(** * Capability-compatibility resolver of codium-copilot

    A shallow embedding of the resolver of [codium-copilot_Version13(1).py]:
    the compatibility gate, the engine version comparator, the capability
    source readers and resolver, the manifest extraction and the version
    selector, followed by the properties the design document states about
    them.

    Conventions of the embedding.
    - Python [str] values are [string]s holding ASCII text; [Set[str]] is
      [gset string]; Python [int]s are unbounded ([N], or [Z] where a
      negative rank occurs), but [int] of a string raises [ValueError]
      when the string has more than 4300 digits.
    - [Path.exists] may raise: its [stat] call fails with an error other
      than file-not-found when, for one, a directory of the path may not
      be searched. [open('w')] empties the file before anything is
      written to it.
    - Output written with [print_info], [print_warning], ... is kept as a
      list of [log_entry]; every effectful function returns its result
      together with the entries it printed.
    - A Python exception is an [exn]; a computation that may raise returns
      an [outcome]. A function whose result type is not an [outcome]
      handles every exception of its body itself. *)

From Stdlib Require Import Ascii String NArith ZArith Lia List Bool.
From stdpp Require Import base decidable option list sorting strings gmap.

Local Open Scope string_scope.
Local Open Scope list_scope.

(** ** Exceptions and printed output *)

Inductive exn : Type :=
| InvalidVersion            (* packaging.version.InvalidVersion *)
| BadZipFile                (* zipfile.BadZipFile *)
| KeyError                  (* missing archive member *)
| JSONDecodeError           (* json.JSONDecodeError *)
| ValueError                (* int() of more than 4300 digits *)
| OtherException.           (* OSError, requests exceptions, AttributeError, ... *)

Inductive outcome (A : Type) : Type :=
| Ret (a : A)
| Raise (e : exn).
Arguments Ret {A} a.
Arguments Raise {A} e.

(** Evaluation in sequence: the first exception raised is the outcome. *)
Definition and_then {A B : Type} (o : outcome A) (f : A → outcome B)
    : outcome B :=
  match o with
  | Ret a => f a
  | Raise e => Raise e
  end.

Inductive level : Type := LInfo | LSuccess | LWarning | LError.

(** An f-string is kept as the list of its pieces. *)
Inductive fragment : Type :=
| Str (s : string)
| Num (n : N)
| Exc (e : exn).

Record log_entry : Type := Log { lvl : level; msg : list fragment }.

(** [M A]: a computation that prints and either returns an [A] or raises. *)
Definition M (A : Type) : Type := outcome A * list log_entry.

Definition ret {A : Type} (a : A) : M A := (Ret a, []).
Definition raise {A : Type} (e : exn) : M A := (Raise e, []).

Definition bind {A B : Type} (m : M A) (f : A -> M B) : M B :=
  match m with
  | (Ret a, out) => let (r, out') := f a in (r, out ++ out')
  | (Raise e, out) => (Raise e, out)
  end.

Notation "'let*' x ':=' m 'in' k" := (bind m (fun x => k))
  (at level 10, x pattern, m at level 100, k at level 200).
Notation "m ';;' k" := (bind m (fun _ => k))
  (at level 100, k at level 200, right associativity).

(** [try: m except: h]: [h e] returns [None] when the [except] clauses do
    not match [e], which then propagates. *)
Definition try_except {A : Type} (m : M A) (h : exn -> option (M A)) : M A :=
  match m with
  | (Ret a, out) => (Ret a, out)
  | (Raise e, out) =>
      match h e with
      | Some handler => let (r, out') := handler in (r, out ++ out')
      | None => (Raise e, out)
      end
  end.

Definition lift {A : Type} (o : outcome A) : M A := (o, []).

Definition print (l : level) (m : list fragment) : M unit :=
  (Ret tt, [Log l m]).
Definition print_info := print LInfo.
Definition print_success := print LSuccess.
Definition print_warning := print LWarning.
Definition print_error := print LError.

(** The result of a computation, and what it printed. *)
Definition result {A : Type} (m : M A) : outcome A := m.1.
Definition printed {A : Type} (m : M A) : list log_entry := m.2.

(** ** String helpers: [str.split], [str.lstrip] *)

(** [s.split(sep)] for a one-character separator: the fields between the
    occurrences of [sep]; never the empty list. *)
Fixpoint str_split (sep : ascii) (s : string) : list string :=
  match s with
  | EmptyString => [EmptyString]
  | String c s' =>
      if Ascii.eqb c sep then EmptyString :: str_split sep s'
      else match str_split sep s' with
           | [] => [String c EmptyString]
           | field :: fields => String c field :: fields
           end
  end.

(** [s.lstrip(chars)]: drop the leading characters that occur in [chars]. *)
Fixpoint str_lstrip (chars : list ascii) (s : string) : string :=
  match s with
  | EmptyString => EmptyString
  | String c s' =>
      if existsb (Ascii.eqb c) chars then str_lstrip chars s' else s
  end.

(** ** Compatibility gate *)

(** [normalize_api_proposal]: [proposal.split('@')[0]]. *)
Definition normalize_api_proposal (proposal : string) : string :=
  default EmptyString (str_split "@" proposal !! 0%nat).

(** The [for] loop of [check_api_compatibility], with the list
    [unsupported] it appends to. *)
Fixpoint collect_unsupported (required_proposals : list string)
    (supported_proposals : gset string) (unsupported : list string)
    : list string :=
  match required_proposals with
  | [] => unsupported
  | proposal :: rest =>
      let base_name := normalize_api_proposal proposal in
      if decide (base_name ∈ supported_proposals)
      then collect_unsupported rest supported_proposals unsupported
      else collect_unsupported rest supported_proposals
             (unsupported ++ [proposal])
  end.

Definition check_api_compatibility (required_proposals : list string)
    (supported_proposals : gset string) : bool * list string :=
  if decide (supported_proposals = ∅) then (true, [])
  else
    let unsupported :=
      collect_unsupported required_proposals supported_proposals [] in
    let is_compatible := Nat.eqb (length unsupported) 0 in
    (is_compatible, unsupported).


(** ** Scanning text

    Character classes and the pieces of regular expressions shared by the
    version pattern and the proposal pattern. *)

Definition code (c : ascii) : N := N_of_ascii c.
Definition in_range (lo hi : N) (c : ascii) : bool :=
  (lo <=? code c)%N && (code c <=? hi)%N.

Definition is_digit : ascii -> bool := in_range 48 57.
Definition is_upper : ascii -> bool := in_range 65 90.
Definition is_lower : ascii -> bool := in_range 97 122.
(** [\s] on ASCII text: tab to carriage return, the four separators
    FS, GS, RS, US, and the space. *)
Definition is_space (c : ascii) : bool :=
  in_range 9 13 c || in_range 28 32 c.
(** [[._-]] *)
Definition is_sep (c : ascii) : bool :=
  Ascii.eqb c "." || Ascii.eqb c "_" || Ascii.eqb c "-".
(** [[a-z0-9]] *)
Definition is_alnum (c : ascii) : bool := is_lower c || is_digit c.

Definition to_lower (c : ascii) : ascii :=
  if is_upper c then ascii_of_N (code c + 32) else c.

(** The longest prefix whose characters satisfy [p], and the rest. *)
Fixpoint span (p : ascii -> bool) (s : list ascii)
    : list ascii * list ascii :=
  match s with
  | c :: s' =>
      if p c then let (run, rest) := span p s' in (c :: run, rest)
      else ([], s)
  | [] => ([], [])
  end.

(** [\s*] *)
Definition skip_spaces (s : list ascii) : list ascii := snd (span is_space s).

(** A literal word. *)
Fixpoint strip_prefix (word s : list ascii) : option (list ascii) :=
  match word, s with
  | [], _ => Some s
  | k :: word', c :: s' =>
      if Ascii.eqb k c then strip_prefix word' s' else None
  | _ :: _, [] => None
  end.

(** ** PEP 440 versions: [packaging.version]

    [is_version_compatible] delegates to [version.parse] and to the
    ordering of [Version] objects of the [packaging] library. The module
    follows that library: [parse] follows the regular expression
    [VERSION_PATTERN] group by group (anchored, surrounded by [\s*],
    case-insensitive), [cmpkey] follows [_cmpkey], and [version_ge] is the
    comparison of two keys as Python tuples. *)
Module Pep440.

Inductive pre_letter : Type := PreA | PreB | PreRC.

Inductive local_segment : Type :=
| LocalInt (n : N)
| LocalStr (s : string).

Record Version : Type := mkVersion {
  epoch : N;
  release : list N;
  pre : option (pre_letter * N);
  post : option N;
  dev : option N;
  local : option (list local_segment)
}.

(** *** Pieces of the pattern

    The pattern is matched first; a numeric group is kept as the string
    of its digits, as [match.group] gives it. *)

Definition digit_value (c : ascii) : N := (code c - 48)%N.

(** The number that a string of decimal digits denotes. *)
Definition digits_value (digits : list ascii) : N :=
  fold_left (fun acc c => (10 * acc + digit_value c)%N) digits 0%N.

(** [sys.get_int_max_str_digits()], as CPython sets it by default. *)
Definition MAX_STR_DIGITS : nat := 4300.

(** [int(digits)]: CPython refuses to convert a decimal string of more
    than [MAX_STR_DIGITS] digits (leading zeros count) and raises
    [ValueError]. *)
Definition int_of_digits (digits : list ascii) : outcome N :=
  if decide (MAX_STR_DIGITS < length digits)%nat then Raise ValueError
  else Ret (digits_value digits).

(** [[._-]?] *)
Definition opt_sep (s : list ascii) : list ascii :=
  match s with
  | c :: s' => if is_sep c then s' else s
  | [] => []
  end.

(** [([0-9]+)?] *)
Definition opt_number (s : list ascii)
    : option (list ascii) * list ascii :=
  match span is_digit s with
  | ([], _) => (None, s)
  | (digits, rest) => (Some digits, rest)
  end.

(** An alternation [w1|w2|...] of literal words, tried from the left;
    each word carries the value its match stands for. *)
Fixpoint alternation {L : Type} (words : list (string * L))
    (s : list ascii) : option (L * list ascii) :=
  match words with
  | [] => None
  | (word, l) :: words' =>
      match strip_prefix (list_ascii_of_string word) s with
      | Some rest => Some (l, rest)
      | None => alternation words' s
      end
  end.

(** [v?] *)
Definition opt_v (s : list ascii) : list ascii :=
  match s with
  | "v"%char :: s' => s'
  | _ => s
  end.

(** [(?:(?P<epoch>[0-9]+)!)?] *)
Definition match_epoch (s : list ascii)
    : option (list ascii) * list ascii :=
  match span is_digit s with
  | (d :: digits, "!"%char :: rest) => (Some (d :: digits), rest)
  | _ => (None, s)
  end.

(** Zero or more [\.[0-9]+] after a component of which the digits [cur]
    have been read so far (in reading order). *)
Fixpoint release_rest (cur : list ascii) (s : list ascii)
    : list (list ascii) * list ascii :=
  match s with
  | c :: s' =>
      if is_digit c then release_rest (cur ++ [c]) s'
      else if Ascii.eqb c "." then
        match s' with
        | d :: s'' =>
            if is_digit d then
              let (components, rest) := release_rest [d] s'' in
              (cur :: components, rest)
            else ([cur], s)
        | [] => ([cur], s)
        end
      else ([cur], s)
  | [] => ([cur], [])
  end.

(** The release group: [[0-9]+] followed by zero or more [\.[0-9]+]; the
    components are the group split at the dots. *)
Definition match_release (s : list ascii)
    : option (list (list ascii) * list ascii) :=
  match s with
  | d :: s' => if is_digit d then Some (release_rest [d] s') else None
  | [] => None
  end.

(** [alpha|a|beta|b|preview|pre|c|rc], with [_LETTER_NORMALIZATION]. *)
Definition pre_words : list (string * pre_letter) :=
  [("alpha", PreA); ("a", PreA); ("beta", PreB); ("b", PreB);
   ("preview", PreRC); ("pre", PreRC); ("c", PreRC); ("rc", PreRC)].

(** [(?P<pre>[._-]?(?P<pre_l>...)[._-]?(?P<pre_n>[0-9]+)?)?]: the letter
    and the number, when there is one. *)
Definition match_pre (s : list ascii)
    : option (pre_letter * option (list ascii)) * list ascii :=
  match alternation pre_words (opt_sep s) with
  | Some (letter, rest) =>
      let (number, rest') := opt_number (opt_sep rest) in
      (Some (letter, number), rest')
  | None => (None, s)
  end.

(** [post|rev|r] *)
Definition post_words : list (string * unit) :=
  [("post", tt); ("rev", tt); ("r", tt)].

(** The second alternative of the post group:
    [[._-]?(?P<post_l>post|rev|r)[._-]?(?P<post_n2>[0-9]+)?]. *)
Definition match_post_word (s : list ascii)
    : option (option (list ascii)) * list ascii :=
  match alternation post_words (opt_sep s) with
  | Some (_, rest) =>
      let (number, rest') := opt_number (opt_sep rest) in
      (Some number, rest')
  | None => (None, s)
  end.

(** [(?P<post>(?:-(?P<post_n1>[0-9]+))|(?:...))?]: the implicit form
    [-N] first, then the spelled form. *)
Definition match_post (s : list ascii)
    : option (option (list ascii)) * list ascii :=
  match s with
  | "-"%char :: s' =>
      match span is_digit s' with
      | (d :: digits, rest) => (Some (Some (d :: digits)), rest)
      | ([], _) => match_post_word s
      end
  | _ => match_post_word s
  end.

(** [(?P<dev>[._-]?(?P<dev_l>dev)[._-]?(?P<dev_n>[0-9]+)?)?] *)
Definition match_dev (s : list ascii)
    : option (option (list ascii)) * list ascii :=
  match alternation [("dev", tt)] (opt_sep s) with
  | Some (_, rest) =>
      let (number, rest') := opt_number (opt_sep rest) in
      (Some number, rest')
  | None => (None, s)
  end.

(** Zero or more [[._-][a-z0-9]+] after a part [cur] read so far (its
    characters in reading order). *)
Fixpoint local_rest (cur : list ascii) (s : list ascii)
    : list (list ascii) * list ascii :=
  match s with
  | c :: s' =>
      if is_alnum c then local_rest (cur ++ [c]) s'
      else if is_sep c then
        match s' with
        | d :: s'' =>
            if is_alnum d then
              let (parts, rest) := local_rest [d] s'' in
              (cur :: parts, rest)
            else ([cur], s)
        | [] => ([cur], s)
        end
      else ([cur], s)
  | [] => ([cur], [])
  end.

(** The optional local group: [\+], then [[a-z0-9]+] followed by zero or
    more [[._-][a-z0-9]+]; the parts are the group split at the
    separators. *)
Definition match_local (s : list ascii)
    : option (list (list ascii)) * list ascii :=
  match s with
  | "+"%char :: c :: s' =>
      if is_alnum c then
        let (parts, rest) := local_rest [c] s' in
        (Some parts, rest)
      else (None, s)
  | _ => (None, s)
  end.

(** *** From the groups to the version: [Version.__init__] *)

(** [tuple(map(int, parts))] *)
Fixpoint ints_of (parts : list (list ascii)) : outcome (list N) :=
  match parts with
  | [] => Ret []
  | part :: parts' =>
      and_then (int_of_digits part) (fun n =>
      and_then (ints_of parts') (fun ns => Ret (n :: ns)))
  end.

(** [int(number or 0)] *)
Definition int_or_zero (number : option (list ascii)) : outcome N :=
  match number with
  | Some digits => int_of_digits digits
  | None => Ret 0%N
  end.

(** [_parse_letter_version] for a group with a letter. *)
Definition letter_version {L : Type}
    (group : option (L * option (list ascii))) : outcome (option (L * N)) :=
  match group with
  | Some (letter, number) =>
      and_then (int_or_zero number) (fun n => Ret (Some (letter, n)))
  | None => Ret None
  end.

(** [_parse_letter_version] for the post and dev groups, whose letter is
    not kept. *)
Definition number_version (group : option (option (list ascii)))
    : outcome (option N) :=
  match group with
  | Some number => and_then (int_or_zero number) (fun n => Ret (Some n))
  | None => Ret None
  end.

(** [_parse_local_version] on one part: [int(part)] if it is all digits,
    the (lower-case) part otherwise. *)
Definition local_segment_of (part : list ascii) : outcome local_segment :=
  if forallb is_digit part
  then and_then (int_of_digits part) (fun n => Ret (LocalInt n))
  else Ret (LocalStr (string_of_list_ascii part)).

Fixpoint local_segments_of (parts : list (list ascii))
    : outcome (list local_segment) :=
  match parts with
  | [] => Ret []
  | part :: parts' =>
      and_then (local_segment_of part) (fun seg =>
      and_then (local_segments_of parts') (fun segs => Ret (seg :: segs)))
  end.

Definition local_version (group : option (list (list ascii)))
    : outcome (option (list local_segment)) :=
  match group with
  | Some parts =>
      and_then (local_segments_of parts) (fun segs => Ret (Some segs))
  | None => Ret None
  end.

(** [version.parse]: the whole pattern, then the end of the string;
    [InvalidVersion] when the pattern does not match, and otherwise the
    conversions of the groups in the order [Version.__init__] makes
    them. *)
Definition parse (version : string) : outcome Version :=
  let s := map to_lower (list_ascii_of_string version) in
  let s := opt_v (skip_spaces s) in
  let (epoch, s) := match_epoch s in
  match match_release s with
  | None => Raise InvalidVersion
  | Some (release, s) =>
      let (pre, s) := match_pre s in
      let (post, s) := match_post s in
      let (dev, s) := match_dev s in
      let (local, s) := match_local s in
      match skip_spaces s with
      | [] =>
          and_then (int_or_zero epoch) (fun epoch =>
          and_then (ints_of release) (fun release =>
          and_then (letter_version pre) (fun pre =>
          and_then (number_version post) (fun post =>
          and_then (number_version dev) (fun dev =>
          and_then (local_version local) (fun local =>
          Ret (mkVersion epoch release pre post dev local)))))))
      | _ :: _ => Raise InvalidVersion
      end
  end.

(** *** Ordering: [_cmpkey] and the comparison of keys *)

(** The [while] loop of [_cmpkey] that finds how much of the release
    remains once its trailing zeros are dropped. *)
Fixpoint trim_index (release : list N) (i : nat) : nat :=
  match i with
  | O => O
  | S j =>
      match release !! j with
      | Some 0%N => trim_index release j
      | _ => i
      end
  end.

Definition trimmed (release : list N) : list N :=
  take (trim_index release (length release)) release.

Definition pre_rank (letter : pre_letter) : Z :=
  match letter with PreA => 0 | PreB => 1 | PreRC => 2 end.

Record CmpKey : Type := mkKey {
  key_epoch : N;
  key_release : list N;
  key_suffix : list Z;
  key_local : option (list (Z * string))
}.

(** The suffix is the tuple
    [(pre_rank, pre_n, post_rank, post_n, dev_rank, dev_n)]. *)
Definition cmpkey (v : Version) : CmpKey :=
  let pre_part :=
    match pre v, post v, dev v with
    | None, None, Some _ => (-1, 0)
    | None, _, _ => (3, 0)
    | Some (letter, n), _, _ => (pre_rank letter, Z.of_N n)
    end%Z in
  let post_part :=
    match post v with None => (0, 0) | Some n => (1, Z.of_N n) end%Z in
  let dev_part :=
    match dev v with None => (1, 0) | Some n => (0, Z.of_N n) end%Z in
  let suffix :=
    [pre_part.1; pre_part.2; post_part.1; post_part.2;
     dev_part.1; dev_part.2] in
  let cmp_local :=
    match local v with
    | None => None
    | Some segments =>
        Some (map (fun seg =>
                     match seg with
                     | LocalInt n => (Z.of_N n, EmptyString)
                     | LocalStr part => ((-1)%Z, part)
                     end) segments)
    end in
  mkKey (epoch v) (trimmed (release v)) suffix cmp_local.

(** Comparison of Python tuples: the first unequal pair of items
    decides; failing that, the shorter tuple is the smaller. *)
Fixpoint lex_compare {A : Type} (cmp : A -> A -> comparison)
    (a b : list A) : comparison :=
  match a, b with
  | [], [] => Eq
  | [], _ :: _ => Lt
  | _ :: _, [] => Gt
  | x :: a', y :: b' =>
      match cmp x y with
      | Eq => lex_compare cmp a' b'
      | c => c
      end
  end.

Definition local_item_compare (x y : Z * string) : comparison :=
  match Z.compare x.1 y.1 with
  | Eq => String.compare x.2 y.2
  | c => c
  end.

(** A key is a 3-tuple, or a 4-tuple when there is a local segment. *)
Definition key_compare (a b : CmpKey) : comparison :=
  match N.compare (key_epoch a) (key_epoch b) with
  | Eq =>
      match lex_compare N.compare (key_release a) (key_release b) with
      | Eq =>
          match lex_compare Z.compare (key_suffix a) (key_suffix b) with
          | Eq =>
              match key_local a, key_local b with
              | None, None => Eq
              | None, Some _ => Lt
              | Some _, None => Gt
              | Some la, Some lb => lex_compare local_item_compare la lb
              end
          | c => c
          end
      | c => c
      end
  | c => c
  end.

(** [a >= b] on [Version] objects. *)
Definition version_ge (a b : Version) : bool :=
  match key_compare (cmpkey a) (cmpkey b) with
  | Lt => false
  | _ => true
  end.

End Pep440.

(** ** Engine version comparator *)

(** [engine_str.lstrip('^>=~')] *)
Definition parse_engine_requirement (engine_str : string) : string :=
  str_lstrip ["^"; ">"; "="; "~"]%char engine_str.

(** The [try] body's [version.parse] calls raise [InvalidVersion] on a
    string that is no PEP 440 version; the [except] clause catches exactly
    that exception. *)
Definition is_version_compatible (vscode_version engine_requirement : string)
    : M bool :=
  try_except
    (let* vscode_ver := lift (Pep440.parse vscode_version) in
     let* required_ver :=
       lift (Pep440.parse (parse_engine_requirement engine_requirement)) in
     ret (Pep440.version_ge vscode_ver required_ver))
    (fun e =>
       match e with
       | InvalidVersion =>
           Some (print_warning [Str "Version comparison failed: "; Exc e];;
                 ret false)
       | _ => None
       end).

(** ** Capability source readers *)

(** The proposal pattern of [get_runtime_api_proposals]: an optional quote,
    the captured name [[a-zA-Z][a-zA-Z0-9_]*], an optional quote, then
    [\s*:\s*\{\s*version\s*:\s*\d]. Every piece is matched greedily; a
    shorter match of a piece is always followed by a character the next
    piece rejects, so no other way of matching exists. *)

Definition is_quote (c : ascii) : bool :=
  Ascii.eqb c "034" || Ascii.eqb c "'".
Definition is_name_start (c : ascii) : bool := is_lower c || is_upper c.
Definition is_name_char (c : ascii) : bool :=
  is_name_start c || is_digit c || Ascii.eqb c "_".

Definition opt_quote (s : list ascii) : list ascii :=
  match s with
  | c :: s' => if is_quote c then s' else s
  | [] => []
  end.

Definition expect (c : ascii) (s : list ascii) : option (list ascii) :=
  match s with
  | d :: s' => if Ascii.eqb c d then Some s' else None
  | [] => None
  end.

(** One match of the pattern at the start of [s]: the captured name and
    what follows the match. *)
Definition match_proposal (s : list ascii)
    : option (list ascii * list ascii) :=
  match opt_quote s with
  | c :: s1 =>
      if is_name_start c then
        let (name, s2) := span is_name_char (c :: s1) in
        s3 ← expect ":" (skip_spaces (opt_quote s2));
        s4 ← expect "{" (skip_spaces s3);
        s5 ← strip_prefix (list_ascii_of_string "version") (skip_spaces s4);
        s6 ← expect ":" (skip_spaces s5);
        match skip_spaces s6 with
        | d :: rest => if is_digit d then Some (name, rest) else None
        | [] => None
        end
      else None
  | [] => None
  end.

(** [re.findall]: the matches from left to right, without overlap. A match
    is tried at every position that no earlier match covers; [skip] is the
    number of characters still covered by the last match. *)
Fixpoint findall_from (skip : nat) (s : list ascii) : list string :=
  match s with
  | [] => []
  | _ :: s' =>
      match skip with
      | S skip' => findall_from skip' s'
      | O =>
          match match_proposal s with
          | Some (name, rest) =>
              string_of_list_ascii name
                :: findall_from (length s - length rest - 1) s'
          | None => findall_from 0 s'
          end
      end
  end.

Definition findall_proposals (content : string) : list string :=
  findall_from 0 (list_ascii_of_string content).

(** What the resolver sees of the machine it runs on: the well-known
    paths, and the outcome of each file operation. [Path.exists] answers,
    or raises the [OSError] of its [stat] call when that is not one of
    file-not-found kind (a directory on the way that may not be searched,
    for one). A JSON document is kept in the shape the code reads it in; a
    document of another shape makes the code raise inside its [try] and is
    a [Raise] here. *)
Record Host : Type := mkHost {
  RUNTIME_API_PROPOSALS_PATHS : list string;
  SYSTEM_PRODUCT_JSON_PATHS : list string;
  (** [Path.exists] *)
  path_exists : string -> outcome bool;
  (** [Path.read_text(encoding='utf-8')] *)
  read_text : string -> outcome string;
  (** [json.load] of an opened product.json: the items of its
      [extensionEnabledApiProposals], [None] when the key is absent. *)
  load_product_json : string -> outcome (option (list (string * list string)))
}.

Definition get_runtime_api_proposals (host : Host) (proposals_js_path : string)
    : option (gset string) :=
  match read_text host proposals_js_path with
  | Ret content =>
      let names := findall_proposals content in
      let proposals : gset string := list_to_set names ∖ {["version"]} in
      if decide (proposals = ∅) then None else Some proposals
  | Raise _ => None
  end.

(** ** Capability set resolver *)

Definition str_le (a b : string) : Prop := String.leb a b = true.
Global Instance str_le_dec (a b : string) : Decision (str_le a b).
Proof. unfold str_le. apply _. Defined.

(** [sorted(proposals)] *)
Definition sorted (proposals : gset string) : list string :=
  merge_sort str_le (elements proposals).

(** The lines that show the first five names and how many are left. *)
Definition print_sample (proposals : gset string) : M unit :=
  let sample := take 5 (sorted proposals) in
  let* _ :=
    foldl (fun acc prop => acc;; print_info [Str prop]) (ret tt) sample in
  if decide (5 < size proposals)
  then print_info [Str "... and "; Num (N.of_nat (size proposals - 5));
                   Str " more"]
  else ret tt.

(** The first loop of [get_supported_api_proposals]: [Some] is its
    [return]. *)
Fixpoint scan_runtime_paths (host : Host) (paths : list string)
    : M (option (gset string)) :=
  match paths with
  | [] => ret None
  | runtime_path :: rest =>
      let* present := lift (path_exists host runtime_path) in
      if (present : bool) then
        print_success [Str "Found runtime proposals file: "; Str runtime_path];;
        match get_runtime_api_proposals host runtime_path with
        | Some proposals =>
            print_success [Str "Found "; Num (N.of_nat (size proposals));
                           Str " runtime-implemented API proposals"];;
            print_sample proposals;;
            ret (Some proposals)
        | None =>
            print_warning
              [Str "Could not parse runtime proposals file, falling back"];;
            scan_runtime_paths host rest
        end
      else scan_runtime_paths host rest
  end.

(** The second loop: the first path that exists. *)
Fixpoint first_existing (host : Host) (paths : list string)
    : outcome (option string) :=
  match paths with
  | [] => Ret None
  | path :: rest =>
      and_then (path_exists host path) (fun present =>
      if (present : bool) then Ret (Some path) else first_existing host rest)
  end.

(** The two nested loops over [enabled_proposals.items()]. *)
Definition collect_enabled (enabled_proposals : list (string * list string))
    : gset string :=
  foldl (fun all_proposals item =>
           foldl (fun all_proposals proposal =>
                    let base_name :=
                      default EmptyString (str_split "@" proposal !! 0%nat) in
                    {[ base_name ]} ∪ all_proposals)
                 all_proposals item.2)
        ∅ enabled_proposals.

Definition get_supported_api_proposals (host : Host) : M (gset string) :=
  print_info [Str "Detecting supported API proposals..."];;
  let* found := scan_runtime_paths host (RUNTIME_API_PROPOSALS_PATHS host) in
  match found with
  | Some proposals => ret proposals
  | None =>
      let* system_product_json :=
        lift (first_existing host (SYSTEM_PRODUCT_JSON_PATHS host)) in
      match system_product_json with
      | None =>
          print_warning [Str "Could not find system product.json"];;
          print_info [Str "Will check all extension versions"];;
          ret ∅
      | Some system_product_json =>
          print_success [Str "Found system product.json: ";
                         Str system_product_json];;
          print_warning
            [Str "Runtime proposals file not found; using product.json fallback (less accurate)"];;
          try_except
            (let* product_data :=
               lift (load_product_json host system_product_json) in
             let all_proposals := collect_enabled (default [] product_data) in
             print_success [Str "Found "; Num (N.of_nat (size all_proposals));
                            Str " supported API proposals"];;
             print_sample all_proposals;;
             ret all_proposals)
            (fun e =>
               match e with
               | JSONDecodeError =>
                   Some (print_error
                           [Str "Invalid JSON in system product.json: "; Exc e];;
                         ret ∅)
               | _ =>
                   Some (print_error
                           [Str "Failed to read system product.json: "; Exc e];;
                         ret ∅)
               end)
      end
  end.

(** ** Manifest extraction *)

(** A package.json read from the archive, as [json.loads] of its decoded
    bytes gives it: the [enabledApiProposals] of the object ([None] when
    the key is absent), or the exception raised on the way. *)
Definition package_json : Type := outcome (option (list string)).

(** What [zipfile.ZipFile(vsix_path, 'r')] gives for a file: the members
    of the archive by name, or the exception raised when opening it. *)
Definition vsix_file : Type := outcome (gmap string package_json).

(** [zip_file.read(name)] *)
Definition zip_read (zip_file : gmap string package_json) (name : string)
    : M package_json :=
  match zip_file !! name with
  | Some data => ret data
  | None => raise KeyError
  end.

(** [extract_api_proposals_from_vsix]; [opened] is what opening the file at
    [vsix_path] as a zip archive gives. *)
Definition extract_api_proposals_from_vsix (vsix_path : string)
    (opened : vsix_file) : M (list string) :=
  try_except
    (let* zip_file := lift opened in
     let* package_json_data :=
       try_except (zip_read zip_file "extension/package.json")
         (fun e =>
            match e with
            | KeyError => Some (zip_read zip_file "package.json")
            | _ => None
            end) in
     let* package_json := lift package_json_data in
     let api_proposals := default [] package_json in
     ret api_proposals)
    (fun e =>
       match e with
       | BadZipFile =>
           Some (print_error [Str "Invalid VSIX file: "; Str vsix_path];;
                 ret [])
       | KeyError =>
           Some (print_error
                   [Str "Could not find package.json in VSIX: "; Exc e];;
                 ret [])
       | JSONDecodeError =>
           Some (print_error [Str "Invalid JSON in package.json: "; Exc e];;
                 ret [])
       | _ =>
           Some (print_error [Str "Failed to extract API proposals: "; Exc e];;
                 ret [])
       end).

(** ** Version selector *)

Definition MAX_VERSIONS_TO_CHECK : nat := 200.

Record Property : Type := mkProperty { key : string; value : string }.

Record FileEntry : Type := mkFile {
  assetType : option string;
  source : option string
}.

(** One entry of the catalog's [versions]. *)
Record VersionRecord : Type := mkRecord {
  version : option string;
  properties : list Property;
  files : list FileEntry
}.

Record CompatibleVersion : Type := mkCompatible {
  cv_version : string;
  engine_requirement : string;
  vsix_url : string
}.

(** The four counters of the scan loop. *)
Record Counters : Type := mkCounters {
  checked_count : nat;
  skipped_prerelease : nat;
  skipped_incompatible_engine : nat;
  skipped_incompatible_api : nat
}.

(** [checked_count += 1] and the like. *)
Definition count_checked (c : Counters) : Counters :=
  mkCounters (S (checked_count c)) (skipped_prerelease c)
    (skipped_incompatible_engine c) (skipped_incompatible_api c).
Definition count_prerelease (c : Counters) : Counters :=
  mkCounters (checked_count c) (S (skipped_prerelease c))
    (skipped_incompatible_engine c) (skipped_incompatible_api c).
Definition count_engine (c : Counters) : Counters :=
  mkCounters (checked_count c) (skipped_prerelease c)
    (S (skipped_incompatible_engine c)) (skipped_incompatible_api c).
Definition count_api (c : Counters) : Counters :=
  mkCounters (checked_count c) (skipped_prerelease c)
    (skipped_incompatible_engine c) (S (skipped_incompatible_api c)).

(** The line that reports the counters when a version is accepted. *)
Definition summary (c : Counters) : list fragment :=
  [Str "Checked "; Num (N.of_nat (checked_count c));
   Str " versions (skipped ";
   Num (N.of_nat (skipped_prerelease c)); Str " pre-release, ";
   Num (N.of_nat (skipped_incompatible_engine c)); Str " wrong engine, ";
   Num (N.of_nat (skipped_incompatible_api c)); Str " incompatible APIs)"].

(** How one pass through the loop body ends: [continue], or [return]. *)
Inductive step : Type :=
| Continue (c : Counters)
| Return (found : CompatibleVersion) (c : Counters).

(** The dict comprehension over [ver.get('properties', [])]: a later
    entry replaces an earlier one with the same key. *)
Definition properties_dict (ver : VersionRecord) : gmap string string :=
  foldl (fun d prop => <[key prop := value prop]> d) ∅ (properties ver).

(** [next((f for f in files if f.get('assetType') == ...), None)] *)
Definition find_vsix_file (fs : list FileEntry) : option FileEntry :=
  snd <$> list_find
    (fun f => assetType f = Some "Microsoft.VisualStudio.Services.VSIXPackage")
    fs.

(** Truth value of an optional string: neither [None] nor empty. *)
Definition truthy (s : option string) : option string :=
  match s with
  | Some EmptyString => None
  | _ => s
  end.

Definition print_items (items : list string) : M unit :=
  foldl (fun acc item => acc;; print_info [Str item]) (ret tt) items.

(** What the [except] clause of the loop body finds when it cleans up
    after a failure: [temp_vsix_path.exists()] and
    [temp_vsix_path.unlink()], each of which answers or raises. *)
Record TempFiles : Type := mkTempFiles {
  temp_exists : string -> outcome bool;
  temp_unlink : string -> outcome unit
}.

Section Selector.

(** [download url temp_vsix_path]: the request, its status check and the
    writing of the body to the temporary file; the outcome is the file
    then found at [temp_vsix_path], or the exception raised. *)
Variable download : string -> string -> outcome vsix_file.

(** The temporary files as the [except] clause finds them. *)
Variable tmp : TempFiles.

(** The compatibility gate the loop body calls. *)
Variable gate : list string -> gset string -> bool * list string.

Variables (target_version extension_id : string).
Variable supported_apis : gset string.

(** The part of the loop body under [try], with its [except] clause. The
    two [unlink] calls inside the [try] delete the file that the same
    [try] has just written and read; they are taken to succeed. The
    clean-up of the [except] clause runs after a failure and is not: an
    exception of its [exists] or [unlink] leaves the selector. *)
Definition probe (ver_str engine url : string) (c : Counters) : M step :=
  let temp_vsix_path :=
    "/tmp/" +:+ extension_id +:+ "-" +:+ ver_str +:+ ".vsix" in
  try_except
    (let* downloaded := lift (download url temp_vsix_path) in
     let* required_apis :=
       extract_api_proposals_from_vsix temp_vsix_path downloaded in
     let accept :=
       print_success [Str "Found compatible version: "; Str ver_str];;
       print_info [Str "Engine requirement: "; Str engine];;
       (match required_apis with
        | [] => ret tt
        | _ :: _ =>
            print_info [Str "All "; Num (N.of_nat (length required_apis));
                        Str " API proposals are supported"]
        end);;
       print_info (summary c);;
       ret (Return (mkCompatible ver_str engine url) c) in
     match required_apis with
     | [] => accept
     | _ :: _ =>
         let (is_api_compatible, unsupported) :=
           gate required_apis supported_apis in
         if is_api_compatible then accept
         else
           print_warning [Str "v"; Str ver_str;
                          Str " requires unsupported APIs:"];;
           print_items (take 3 unsupported);;
           (if decide (3 < length unsupported)
            then print_info [Str "... and ";
                             Num (N.of_nat (length unsupported - 3));
                             Str " more"]
            else ret tt);;
           ret (Continue (count_api c))
     end)
    (fun e =>
       Some (print_warning [Str "Failed to check v"; Str ver_str; Str ": ";
                            Exc e];;
             let* present := lift (temp_exists tmp temp_vsix_path) in
             (if (present : bool)
              then lift (temp_unlink tmp temp_vsix_path)
              else ret tt);;
             ret (Continue c))).

(** One pass through the body of the [for] loop. *)
Definition check_version (ver : VersionRecord) (c0 : Counters) : M step :=
  let c := count_checked c0 in
  let ver_str := default "unknown" (version ver) in
  let props := properties_dict ver in
  if decide (props !! "Microsoft.VisualStudio.Code.PreRelease" = Some "true")
  then ret (Continue (count_prerelease c))
  else
    match truthy (props !! "Microsoft.VisualStudio.Code.Engine") with
    | None => ret (Continue c)
    | Some engine =>
        (if decide (checked_count c <= 10)
         then print_info [Str "Checking v"; Str ver_str; Str " (requires ";
                          Str engine; Str ")..."]
         else ret tt);;
        let* compatible := is_version_compatible target_version engine in
        if negb compatible
        then ret (Continue (count_engine c))
        else
          match find_vsix_file (files ver) with
          | None => ret (Continue c)
          | Some vsix =>
              match truthy (source vsix) with
              | None => ret (Continue c)
              | Some url =>
                  print_info [Str "Downloading v"; Str ver_str;
                              Str " to check API compatibility..."];;
                  probe ver_str engine url c
              end
          end
    end.

(** The [for] loop; [None] when it runs to its end. *)
Fixpoint scan_versions (versions : list VersionRecord) (c : Counters)
    : M (option CompatibleVersion * Counters) :=
  match versions with
  | [] => ret (None, c)
  | ver :: rest =>
      let* s := check_version ver c in
      match s with
      | Continue c' => scan_versions rest c'
      | Return found c' => ret (Some found, c')
      end
  end.

(** The selector; beside the value the function returns, the counters as
    they stand when it returns. *)
Definition find_compatible_version_with (versions : list VersionRecord)
    (extension_name : string) : M (option CompatibleVersion * Counters) :=
  print_info [Str "Searching for compatible version of ";
              Str extension_name; Str "..."];;
  print_info [Str "Will verify API proposal compatibility for each version"];;
  match versions with
  | [] =>
      print_error [Str "No versions available"];;
      ret (None, mkCounters 0 0 0 0)
  | _ :: _ =>
      let total_to_check := min (length versions) MAX_VERSIONS_TO_CHECK in
      print_info [Str "Checking up to "; Num (N.of_nat total_to_check);
                  Str " of "; Num (N.of_nat (length versions));
                  Str " available versions..."];;
      let* r := scan_versions (take MAX_VERSIONS_TO_CHECK versions)
                  (mkCounters 0 0 0 0) in
      match r with
      | (Some found, c) => ret (Some found, c)
      | (None, c) =>
          print_error [Str "No compatible version found for ";
                       Str extension_name];;
          print_info [Str "Checked "; Num (N.of_nat (checked_count c));
                      Str " versions:"];;
          print_info [Str "  - "; Num (N.of_nat (skipped_prerelease c));
                      Str " were pre-release"];;
          print_info [Str "  - ";
                      Num (N.of_nat (skipped_incompatible_engine c));
                      Str " had incompatible engine requirements"];;
          print_info [Str "  - "; Num (N.of_nat (skipped_incompatible_api c));
                      Str " had unsupported API proposals"];;
          ret (None, c)
      end
  end.

End Selector.

(** [find_compatible_version_with_api_check]: the selector with
    [check_api_compatibility] as its gate. *)
Definition find_compatible_version_with_api_check
    (download : string -> string -> outcome vsix_file) (tmp : TempFiles)
    (versions : list VersionRecord)
    (target_version extension_name extension_id : string)
    (supported_apis : gset string)
    : M (option CompatibleVersion * Counters) :=
  find_compatible_version_with download tmp check_api_compatibility
    target_version extension_id supported_apis versions extension_name.

(** ** Bundle reader *)

Definition NOISE_THRESHOLD : nat := 20.

(** Modelled from the spec: the bundle reader ([find_proposals_in_bundle_files],
    of which the repository has only the tests). It applies the extraction
    of [get_runtime_api_proposals] to a bundle file and accepts the result
    only when it holds at least [NOISE_THRESHOLD] distinct names. *)
Definition bundle_reader (host : Host) (bundle_path : string)
    : option (gset string) :=
  match get_runtime_api_proposals host bundle_path with
  | Some proposals =>
      if decide (NOISE_THRESHOLD <= size proposals) then Some proposals
      else None
  | None => None
  end.

(** The distinct capability names matched in a file; none when the file
    cannot be read. *)
Definition matched_names (host : Host) (path : string) : gset string :=
  match read_text host path with
  | Ret content => list_to_set (findall_proposals content) ∖ {["version"]}
  | Raise _ => ∅
  end.

(** A declaration table as a bundle holds it: one entry
    [name:{version:d},] per declaration, the name bare or in double
    quotes. *)
Record Declaration : Type := mkDeclaration {
  decl_name : list ascii;
  decl_quoted : bool;
  decl_version : ascii
}.

Definition render_declaration (d : Declaration) : list ascii :=
  let q := if decl_quoted d then ["034"%char] else [] in
  q ++ decl_name d ++ q
    ++ list_ascii_of_string ":{version:" ++ [decl_version d]
    ++ list_ascii_of_string "},".

Definition render_table (ds : list Declaration) : string :=
  string_of_list_ascii (concat (map render_declaration ds)).

(** A capability name: [[A-Za-z][A-Za-z0-9_]*]. *)
Definition is_capability_name (name : list ascii) : bool :=
  match name with
  | c :: rest => is_name_start c && forallb is_name_char rest
  | [] => false
  end.

(** The name a declaration declares, as the reader reports it. *)
Definition declared_name (d : Declaration) : string :=
  string_of_list_ascii (decl_name d).

Definition well_formed (d : Declaration) : bool :=
  is_capability_name (decl_name d) && is_digit (decl_version d).

(** ** The comparator as the design document words it *)

(** The dotted-integer part at the start of a version string; whatever
    follows it is ignored. *)
Definition spec_parse (s : string) : option (list N) :=
  (fun matched => map Pep440.digits_value matched.1)
    <$> Pep440.match_release (list_ascii_of_string s).

(** Missing trailing components count as 0. *)
Definition pad (n : nat) (components : list N) : list N :=
  components ++ replicate (n - length components) 0%N.

Definition padded_compare (a b : list N) : comparison :=
  let n := max (length a) (length b) in
  Pep440.lex_compare N.compare (pad n a) (pad n b).

Definition spec_is_compatible (host_version requirement_string : string)
    : bool :=
  match spec_parse host_version,
        spec_parse (parse_engine_requirement requirement_string) with
  | Some host, Some required =>
      match padded_compare host required with
      | Lt => false
      | _ => true
      end
  | _, _ => false
  end.

(** ** Reading a catalog record *)

Definition is_prerelease (ver : VersionRecord) : Prop :=
  properties_dict ver !! "Microsoft.VisualStudio.Code.PreRelease" = Some "true".

(** The declared engine requirement, when there is a usable one. *)
Definition engine_of (ver : VersionRecord) : option string :=
  truthy (properties_dict ver !! "Microsoft.VisualStudio.Code.Engine").

(** The reference to the downloadable package, when there is a usable one. *)
Definition package_url (ver : VersionRecord) : option string :=
  find_vsix_file (files ver) ≫= fun vsix => truthy (source vsix).

Definition version_string (ver : VersionRecord) : string :=
  default "unknown" (version ver).

Definition temp_path (extension_id : string) (ver : VersionRecord) : string :=
  "/tmp/" +:+ extension_id +:+ "-" +:+ version_string ver +:+ ".vsix".

(** A record reaches the package probe: it is no pre-release, declares an
    engine requirement the host satisfies, and refers to a package. *)
Definition reaches_probe (target_version : string) (ver : VersionRecord)
    (engine url : string) : Prop :=
  ¬ is_prerelease ver ∧ engine_of ver = Some engine ∧
  (is_version_compatible target_version engine).1 = Ret true ∧
  package_url ver = Some url.

(** The manifest [extract_api_proposals_from_vsix] reads from an archive:
    the member extension/package.json, else the member package.json. *)
Definition manifest (archive : vsix_file) : package_json :=
  match archive with
  | Raise e => Raise e
  | Ret zip_file =>
      match zip_file !! "extension/package.json" with
      | Some data => data
      | None =>
          match zip_file !! "package.json" with
          | Some data => data
          | None => Raise KeyError
          end
      end
  end.

(** What the extraction gives for an archive. *)
Definition extracted (archive : vsix_file) : list string :=
  match manifest archive with
  | Ret (Some api_proposals) => api_proposals
  | _ => []
  end.

(** No runtime proposals file is readable and usable: each of the paths
    is found not to exist, or exists and gives no names. *)
Definition no_runtime_evidence (host : Host) : Prop :=
  ∀ p, p ∈ RUNTIME_API_PROPOSALS_PATHS host →
       path_exists host p = Ret false
       ∨ (path_exists host p = Ret true
          ∧ get_runtime_api_proposals host p = None).

(** No permission-list file is found, or none that is found can be read. *)
Definition no_permission_list (host : Host) : Prop :=
  ∀ p, p ∈ SYSTEM_PRODUCT_JSON_PATHS host →
       path_exists host p = Ret false
       ∨ (path_exists host p = Ret true
          ∧ ∃ e, load_product_json host p = Raise e).

(** No capability evidence source succeeds: no runtime proposals file
    can be read and gives names, and no product.json can be loaded,
    whatever the existence tests do. *)
Definition no_source_succeeds (host : Host) : Prop :=
  (∀ p, p ∈ RUNTIME_API_PROPOSALS_PATHS host →
        get_runtime_api_proposals host p = None)
  ∧ (∀ p, p ∈ SYSTEM_PRODUCT_JSON_PATHS host →
          load_product_json host p = Raise OtherException).

(** A version with a release segment only. *)
Definition unqualified (v : Pep440.Version) : Prop :=
  Pep440.pre v = None ∧ Pep440.post v = None ∧ Pep440.dev v = None
  ∧ Pep440.local v = None.

(** Two recursive readings of the comparison of releases, used to relate
    [Pep440.trimmed] and [pad]: dropping trailing zeros from the front, and
    comparing while reading a missing component as 0. *)
Fixpoint strip_zeros (l : list N) : list N :=
  match l with
  | [] => []
  | x :: l' =>
      match strip_zeros l' with
      | [] => if (x =? 0)%N then [] else [x]
      | t => x :: t
      end
  end.

Definition all_zero (l : list N) : bool := forallb (fun x => (x =? 0)%N) l.

Fixpoint zero_compare (a b : list N) : comparison :=
  match a, b with
  | [], _ => if all_zero b then Eq else Lt
  | _ :: _, [] => if all_zero a then Eq else Gt
  | x :: a', y :: b' =>
      match (x ?= y)%N with
      | Eq => zero_compare a' b'
      | c => c
      end
  end.

(** ** A sample run

    The host is VSCodium 1.109.51242; the catalog lists, newest first, a
    pre-release, a version for a newer engine, a version without a package
    and a version the host can run. *)

Definition sample_target : string := "1.109.51242".

(** Temporary files that the clean-up after a failure finds absent, and
    whose deletion would succeed. *)
Definition clean_tmp : TempFiles :=
  mkTempFiles (fun _ => Ret false) (fun _ => Ret tt).

(** A number of 4301 digits, one more than [int] converts. *)
Definition long_number : string :=
  string_of_list_ascii (repeat "1"%char (S Pep440.MAX_STR_DIGITS)).

Definition sample_url : string := "https://gallery.invalid/copilot-chat-0.37.6.vsix".

Definition engine_property (requirement : string) : Property :=
  mkProperty "Microsoft.VisualStudio.Code.Engine" requirement.

Definition vsix_package (url : string) : FileEntry :=
  mkFile (Some "Microsoft.VisualStudio.Services.VSIXPackage") (Some url).

Definition sample_prerelease : VersionRecord :=
  mkRecord (Some "0.38.0")
    [mkProperty "Microsoft.VisualStudio.Code.PreRelease" "true";
     engine_property "^1.109.0"]
    [vsix_package "https://gallery.invalid/copilot-chat-0.38.0.vsix"].

Definition sample_newer_engine : VersionRecord :=
  mkRecord (Some "0.37.9") [engine_property "^1.110.0"]
    [vsix_package "https://gallery.invalid/copilot-chat-0.37.9.vsix"].

Definition sample_no_package : VersionRecord :=
  mkRecord (Some "0.37.8") [engine_property "^1.109.0"]
    [mkFile (Some "Microsoft.VisualStudio.Services.Content.Details")
       (Some "https://gallery.invalid/README.md")].

Definition sample_compatible : VersionRecord :=
  mkRecord (Some "0.37.6") [engine_property "^1.109.0-20260124"]
    [mkFile (Some "Microsoft.VisualStudio.Services.Content.Details")
       (Some "https://gallery.invalid/README.md");
     vsix_package sample_url].

Definition sample_catalog : list VersionRecord :=
  [sample_prerelease; sample_newer_engine; sample_no_package;
   sample_compatible].

Definition sample_archive : vsix_file :=
  Ret {[ "extension/package.json" :=
           Ret (Some ["chatHooks@6"; "activeComment@1"]) ]}.

(** Only the package of 0.37.6 can be fetched. *)
Definition sample_download (url temp_vsix_path : string)
    : outcome vsix_file :=
  if String.eqb url sample_url then Ret sample_archive
  else Raise OtherException.

(** Every fetch succeeds and writes a file that is no zip archive. *)
Definition corrupt_download (url temp_vsix_path : string)
    : outcome vsix_file :=
  Ret (Raise BadZipFile).

Definition sample_supported : gset string :=
  {[ "chatHooks"; "activeComment"; "chatProvider" ]}.

(** A machine without any capability evidence: none of the well-known
    files exists. *)
Definition bare_host : Host :=
  mkHost ["/usr/share/codium/resources/app/out/vs/workbench/api/common/extensionApiProposals.js"]
    ["/usr/share/codium/resources/app/product.json"]
    (fun _ => Ret false)
    (fun _ => Raise OtherException)
    (fun _ => Raise OtherException).

(** A machine on which the directory of the installation may not be
    searched by the user who runs the script: [exists] raises
    [PermissionError], an [OSError], and so does every reading. *)
Definition locked_host : Host :=
  mkHost ["/usr/share/codium/resources/app/out/vs/workbench/api/common/extensionApiProposals.js"]
    ["/usr/share/codium/resources/app/product.json"]
    (fun _ => Raise OtherException)
    (fun _ => Raise OtherException)
    (fun _ => Raise OtherException).

(** A machine on which the runtime proposals file and product.json exist
    and may not be read. *)
Definition unreadable_host : Host :=
  mkHost ["/usr/share/codium/resources/app/out/vs/workbench/api/common/extensionApiProposals.js"]
    ["/usr/share/codium/resources/app/product.json"]
    (fun _ => Ret true)
    (fun _ => Raise OtherException)
    (fun _ => Raise OtherException).

(** A bundle that embeds a table of twenty declarations, every other
    name in double quotes; and a bundle that embeds only the first eleven. *)
Definition declaration (name : string) (quoted : bool) (v : ascii)
    : Declaration :=
  mkDeclaration (list_ascii_of_string name) quoted v.

Definition sample_declarations : list Declaration :=
  [declaration "chatHooks" true "6";
   declaration "activeComment" false "1";
   declaration "aiRelatedInformation" true "1";
   declaration "chatParticipantPrivate" false "3";
   declaration "chatProvider" true "2";
   declaration "defaultChatParticipant" false "1";
   declaration "findFiles2" true "2";
   declaration "languageModelPicker" false "1";
   declaration "testingCoverage" true "1";
   declaration "inlineCompletionsAdditions" false "3";
   declaration "chatSessionsProvider" true "1";
   declaration "bundleProposal1" false "1";
   declaration "bundleProposal2" true "2";
   declaration "bundleProposal3" false "3";
   declaration "bundleProposal4" true "4";
   declaration "bundleProposal5" false "5";
   declaration "bundleProposal6" true "6";
   declaration "bundleProposal7" false "7";
   declaration "bundleProposal8" true "8";
   declaration "bundleProposal9" false "9"].

Definition bundle_host (declarations : list Declaration) : Host :=
  mkHost [] [] (fun _ => Ret true)
    (fun _ => Ret (render_table declarations))
    (fun _ => Raise OtherException).

(** ** What the selector accepts *)

(** The clean-up of the [except] clause returns: the file is found
    absent, or it is found and deleted. *)
Definition cleanup_returns (tmp : TempFiles) (temp_vsix_path : string)
    : Prop :=
  temp_exists tmp temp_vsix_path = Ret false
  ∨ (temp_exists tmp temp_vsix_path = Ret true
     ∧ temp_unlink tmp temp_vsix_path = Ret tt).

(** A record whose exceptions the selector contains: the comparator
    returns for its engine requirement, and the clean-up of the [except]
    clause returns for its temporary file. *)
Definition contained (tmp : TempFiles) (target_version extension_id : string)
    (ver : VersionRecord) : Prop :=
  (∀ engine, engine_of ver = Some engine →
             ∃ b, result (is_version_compatible target_version engine)
                  = Ret b)
  ∧ cleanup_returns tmp (temp_path extension_id ver).

(** A record the selector returns as [found] when the scan comes to it: it
    reaches the probe, its package is fetched, and the package declares no
    requirement or passes the gate. *)
Definition acceptable (download : string -> string -> outcome vsix_file)
    (gate : list string -> gset string -> bool * list string)
    (target_version extension_id : string) (supported_apis : gset string)
    (ver : VersionRecord) (found : CompatibleVersion) : Prop :=
  ∃ engine url archive,
    reaches_probe target_version ver engine url
    ∧ download url (temp_path extension_id ver) = Ret archive
    ∧ (extracted archive = []
       ∨ (gate (extracted archive) supported_apis).1 = true)
    ∧ found = mkCompatible (version_string ver) engine url.

(** The three counters of skipped records together. *)
Definition skips (c : Counters) : nat :=
  skipped_prerelease c + skipped_incompatible_engine c
  + skipped_incompatible_api c.

(** ** User-level product.json: the granted proposals

    The part of [update_user_product_json] that computes the new content
    of [extensionEnabledApiProposals]. The dict is a [gmap] from extension
    id to the list of its proposals; [extension_proposals] is kept as the
    list of its items, in the order of the dict. A list that the code
    changes in place is the list stored in the dict, so the change is a
    change of the dict entry. *)

(** [ext_id.lower()] *)
Definition str_lower (s : string) : string :=
  string_of_list_ascii (map to_lower (list_ascii_of_string s)).

(** The first loop: the proposals of every extension that has some are
    stored under its lower-case id. *)
Fixpoint store_proposals (extension_proposals : list (string * list string))
    (enabled : gmap string (list string)) : M (gmap string (list string)) :=
  match extension_proposals with
  | [] => ret enabled
  | (ext_id, proposals) :: rest =>
      match proposals with
      | [] => store_proposals rest enabled
      | _ :: _ =>
          let norm_id := str_lower ext_id in
          print_success [Str "Configured "; Num (N.of_nat (length proposals));
                         Str " API proposals for "; Str norm_id];;
          store_proposals rest (<[norm_id := proposals]> enabled)
      end
  end.

(** The inner loop over a copy of the proposals: the base name of every
    versioned proposal is appended unless the list has it already. *)
Fixpoint add_unversioned (copy proposals unversioned_added : list string)
    : list string * list string :=
  match copy with
  | [] => (proposals, unversioned_added)
  | proposal :: rest =>
      if decide ("@"%char ∈ list_ascii_of_string proposal) then
        let base_name :=
          default EmptyString (str_split "@" proposal !! 0%nat) in
        if decide (base_name ∈ proposals)
        then add_unversioned rest proposals unversioned_added
        else add_unversioned rest (proposals ++ [base_name])
               (unversioned_added ++ [base_name])
      else add_unversioned rest proposals unversioned_added
  end.

(** The second loop, over the ids of [extension_proposals]. *)
Fixpoint add_unversioned_variants (ext_ids : list string)
    (enabled : gmap string (list string)) : M (gmap string (list string)) :=
  match ext_ids with
  | [] => ret enabled
  | ext_id :: rest =>
      let norm_id := str_lower ext_id in
      let proposals := default [] (enabled !! norm_id) in
      let (proposals', unversioned_added) :=
        add_unversioned proposals proposals [] in
      let enabled' :=
        match enabled !! norm_id with
        | Some _ => <[norm_id := proposals']> enabled
        | None => enabled
        end in
      (match unversioned_added with
       | [] => ret tt
       | _ :: _ =>
           print_info [Str "Added ";
                       Num (N.of_nat (length unversioned_added));
                       Str " unversioned API variants"]
       end);;
      add_unversioned_variants rest enabled'
  end.

Definition critical_proposals : list string :=
  ["languageModelPicker"; "chatParticipantPrivate";
   "defaultChatParticipant"; "chatSessionsProvider"; "chatProvider";
   "findFiles2"].

(** The inner loop over the critical proposals: one is appended when the
    list lacks it and the host serves it, or when nothing is known about
    the host. *)
Fixpoint add_critical (critical : list string) (supported_apis : gset string)
    (proposals added_critical : list string) : list string * list string :=
  match critical with
  | [] => (proposals, added_critical)
  | prop :: rest =>
      if decide ((prop ∉ proposals)
                 ∧ (supported_apis = ∅ ∨ prop ∈ supported_apis))
      then add_critical rest supported_apis (proposals ++ [prop])
             (added_critical ++ [prop])
      else add_critical rest supported_apis proposals added_critical
  end.

(** The third loop, over the ids of [extension_proposals]. *)
Fixpoint add_critical_proposals (ext_ids : list string)
    (supported_apis : gset string) (enabled : gmap string (list string))
    : M (gmap string (list string)) :=
  match ext_ids with
  | [] => ret enabled
  | ext_id :: rest =>
      let norm_id := str_lower ext_id in
      let proposals := default [] (enabled !! norm_id) in
      let (proposals', added_critical) :=
        add_critical critical_proposals supported_apis proposals [] in
      let enabled' :=
        match enabled !! norm_id with
        | Some _ => <[norm_id := proposals']> enabled
        | None => enabled
        end in
      (match added_critical with
       | [] => ret tt
       | _ :: _ =>
           print_info [Str "Added "; Num (N.of_nat (length added_critical));
                       Str " critical proposals"]
       end);;
      add_critical_proposals rest supported_apis enabled'
  end.

(** The three loops in a row, from the dict read from the file (empty
    when the file has none) to the dict written back. *)
Definition configure_proposals
    (extension_proposals : list (string * list string))
    (supported_apis : gset string) (enabled : gmap string (list string))
    : M (gmap string (list string)) :=
  let* enabled := store_proposals extension_proposals enabled in
  let* enabled :=
    add_unversioned_variants (fst <$> extension_proposals) enabled in
  add_critical_proposals (fst <$> extension_proposals) supported_apis enabled.

(** What the two inner loops make of one list of proposals. *)
Definition granted (supported_apis : gset string) (proposals : list string)
    : list string :=
  (add_critical critical_proposals supported_apis
     (add_unversioned proposals proposals []).1 []).1.

(** ** User-level product.json: the file

    [find_user_config_dir] and [update_user_product_json] against the file
    system, which is a record of what each call answers. The value of
    [update_user_product_json] is paired with the list of the changes made
    to the file system, in the order they were made. [json.load] is
    taken to return an object whose entry [extensionEnabledApiProposals],
    when present, maps extension ids to lists of strings; the other entries
    of the object are carried along as text. *)

(** What a file operation raises: [PermissionError] has an [except]
    clause of its own, [OSError] stands for the other errors. *)
Inductive os_error : Type := PermissionError | OSError.

(** [json.load] of an existing file. *)
Inductive loaded (A : Type) : Type :=
| Loaded (a : A)
| InvalidJson                 (* json.JSONDecodeError *)
| LoadFailed (e : os_error).
Arguments Loaded {A} a.
Arguments InvalidJson {A}.
Arguments LoadFailed {A} e.

Record ProductJson : Type := mkProductJson {
  extensionEnabledApiProposals : option (gmap string (list string));
  other_entries : list (string * string)
}.

(** What a call that answers with an [A] does: it answers, or it raises. *)
Inductive fs_result (A : Type) : Type :=
| Done (a : A)
| Fails (e : os_error).
Arguments Done {A} a.
Arguments Fails {A} e.

(** [open('w')] followed by [json.dump]: the document is written; or the
    file cannot be opened and is left as it was; or it is opened, which
    empties it, and the writing then fails. *)
Inductive write_result : Type :=
| Written
| OpenFailed (e : os_error)
| DumpFailed (e : os_error).

(** The changes made to the file system: a directory created, a file
    renamed, a file emptied and left without its document, a document
    written to a file. *)
Inductive fs_action : Type :=
| Mkdir (path : string)
| Rename (path backup_path : string)
| Truncate (path : string)
| WriteJson (path : string) (data : ProductJson).

Record UserFiles : Type := mkUserFiles {
  (** [USER_CONFIG_DIRS[0]] and the rest of the list *)
  default_config : string;
  more_config_dirs : list string;
  (** [Path.exists]: the answer, or the error of its [stat] call when
      that is not of the file-not-found kind *)
  exists_on_disk : string → fs_result bool;
  (** [Path.mkdir(parents=True, exist_ok=True)], [Path.rename]:
      [None] when the call returns *)
  mkdir : string → option os_error;
  rename : string → string → option os_error;
  (** [open('r')] with [json.load], [open('w')] with [json.dump] *)
  load_json : string → loaded ProductJson;
  dump_json : string → ProductJson → write_result
}.

Definition USER_CONFIG_DIRS (fs : UserFiles) : list string :=
  default_config fs :: more_config_dirs fs.

(** The loop of [find_user_config_dir]: the first directory that exists.
    No [try] surrounds the calls of [exists]: an error of one of them
    leaves the function. *)
Fixpoint first_config_dir (fs : UserFiles) (dirs : list string)
    : outcome (option string) :=
  match dirs with
  | [] => Ret None
  | config_dir :: rest =>
      match exists_on_disk fs config_dir with
      | Done true => Ret (Some config_dir)
      | Done false => first_config_dir fs rest
      | Fails _ => Raise OtherException
      end
  end.

Definition find_user_config_dir (fs : UserFiles)
    : outcome (option string * list fs_action) :=
  and_then (first_config_dir fs (USER_CONFIG_DIRS fs)) (fun found =>
  match found with
  | Some config_dir => Ret (Some config_dir, [])
  | None =>
      match mkdir fs (default_config fs) with
      | None => Ret (Some (default_config fs), [Mkdir (default_config fs)])
      | Some _ => Ret (None, [])
      end
  end).

(** The two [except] clauses at the end of [update_user_product_json]. *)
Definition product_json_failed (product_json_path : string) (e : os_error)
    (acts : list fs_action) : M (bool * list fs_action) :=
  match e with
  | PermissionError =>
      print_error [Str "Permission denied when writing to ";
                   Str product_json_path]
  | OSError =>
      print_error [Str "Unexpected error configuring product.json: ";
                   Exc OtherException]
  end;;
  ret (false, acts).

(** From [if 'extensionEnabledApiProposals' not in existing_data] to the
    end of the [try] block. *)
Definition write_product_json (fs : UserFiles) (product_json_path : string)
    (extension_proposals : list (string * list string))
    (supported_apis : gset string) (existing_data : ProductJson)
    (acts : list fs_action) : M (bool * list fs_action) :=
  let enabled := default ∅ (extensionEnabledApiProposals existing_data) in
  let* enabled :=
    configure_proposals extension_proposals supported_apis enabled in
  let existing_data :=
    mkProductJson (Some enabled) (other_entries existing_data) in
  match dump_json fs product_json_path existing_data with
  | Written =>
      print_success [Str "Updated user product.json: ";
                     Str product_json_path];;
      ret (true, acts ++ [WriteJson product_json_path existing_data])
  | OpenFailed e => product_json_failed product_json_path e acts
  | DumpFailed e =>
      product_json_failed product_json_path e
        (acts ++ [Truncate product_json_path])
  end.

Definition update_user_product_json (fs : UserFiles)
    (extension_proposals : list (string * list string))
    (supported_apis : gset string) : M (bool * list fs_action) :=
  print_info [Str "Updating user-level product.json..."];;
  let* found := lift (find_user_config_dir fs) in
  let (config_dir, acts) := found : option string * list fs_action in
  match config_dir with
  | None =>
      print_error [Str "Could not find or create VSCodium config directory"];;
      ret (false, acts)
  | Some config_dir =>
      let product_json_path := config_dir +:+ "/product.json" in
      let empty := mkProductJson None [] in
      match exists_on_disk fs product_json_path with
      | Done true =>
          match load_json fs product_json_path with
          | Loaded existing_data =>
              write_product_json fs product_json_path extension_proposals
                supported_apis existing_data acts
          | InvalidJson =>
              print_warning
                [Str "Existing product.json is invalid, creating backup..."];;
              let backup_path := product_json_path +:+ ".backup" in
              match rename fs product_json_path backup_path with
              | None =>
                  write_product_json fs product_json_path
                    extension_proposals supported_apis empty
                    (acts ++ [Rename product_json_path backup_path])
              | Some e => product_json_failed product_json_path e acts
              end
          | LoadFailed e => product_json_failed product_json_path e acts
          end
      | Done false =>
          write_product_json fs product_json_path extension_proposals
            supported_apis empty acts
      | Fails e => product_json_failed product_json_path e acts
      end
  end.

(** ** Settings: the merge of [update_user_settings]

    The loop over [COPILOT_SETTINGS] that [update_user_settings] runs on
    the settings it has read. The values are JSON values; the loop only
    compares them, so their type and Python's [==] on them are left
    open. *)
Section Settings.

Variable V : Type.
Variable py_eq : V → V → bool.

Fixpoint merge_settings (settings : list (string * V))
    (existing_settings : gmap string V) (updated_count : nat)
    : gmap string V * nat :=
  match settings with
  | [] => (existing_settings, updated_count)
  | (key, value) :: rest =>
      if match existing_settings !! key with
         | None => true
         | Some old => negb (py_eq old value)
         end
      then merge_settings rest (<[key := value]> existing_settings)
             (S updated_count)
      else merge_settings rest existing_settings updated_count
  end.

(** The condition of the loop, for one entry of [COPILOT_SETTINGS]
    against the settings read from the file. *)
Definition needs_update (existing_settings : gmap string V)
    (entry : string * V) : bool :=
  match existing_settings !! entry.1 with
  | None => true
  | Some old => negb (py_eq old entry.2)
  end.

End Settings.

(** ** The [codium] command line

    What [subprocess.run] does with [check=True] and a timeout. *)
Inductive run_result : Type :=
| Completed (stdout : string)
| TimeoutExpired
| CalledProcessError (stderr : string) (message : string)
| RunFailed (e : exn).        (* anything else, e.g. no such executable *)

(** [s.strip()] *)
Definition str_strip (s : string) : string :=
  string_of_list_ascii
    (rev (skip_spaces (rev (skip_spaces (list_ascii_of_string s))))).

(** [needle in s] for two strings *)
Fixpoint str_contains (needle s : string) : bool :=
  String.prefix needle s
  || match s with
     | EmptyString => false
     | String _ s' => str_contains needle s'
     end.

(** [[ext.strip() for ext in stdout.strip().split('\n') if ext.strip()]] *)
Definition listed_extensions (stdout : string) : list string :=
  str_strip <$> filter (fun ext => str_strip ext ≠ EmptyString)
                  (str_split "010" (str_strip stdout)).

Definition is_extension_installed (list_extensions : run_result)
    (extension_name : string) : M bool :=
  match list_extensions with
  | Completed stdout =>
      let installed := str_lower <$> listed_extensions stdout in
      ret (bool_decide ("github.copilot-chat" ∈ installed))
  | TimeoutExpired | CalledProcessError _ _ => ret false
  | RunFailed e => raise e
  end.

Definition validate_installation (list_extensions : run_result) : M bool :=
  print_info [Str "Verifying installation..."];;
  match list_extensions with
  | Completed stdout =>
      let installed := listed_extensions stdout in
      let copilot_chat :=
        filter (fun ext =>
                  str_contains "github.copilot-chat" (str_lower ext) = true)
          installed in
      match copilot_chat with
      | first :: _ =>
          print_success [Str "GitHub Copilot Chat is installed:"];;
          print_info [Str first];;
          ret true
      | [] =>
          print_error [Str "GitHub Copilot Chat extension not found"];;
          ret false
      end
  | TimeoutExpired => print_error [Str "Validation timed out"];; ret false
  | CalledProcessError _ message =>
      print_error [Str "Validation failed: "; Str message];; ret false
  | RunFailed e => raise e
  end.

(** The loop of [cleanup_existing_extensions] over [copilot_exts]; the
    list returned holds the extensions whose uninstall command was run. *)
Fixpoint uninstall_all (uninstall : string → run_result)
    (copilot_exts : list string) (ran : list string)
    : M (list string) :=
  match copilot_exts with
  | [] => print_success [Str "Cleanup complete"];; ret ran
  | ext :: rest =>
      print_info [Str "Uninstalling "; Str ext; Str "..."];;
      match uninstall ext with
      | Completed _ => uninstall_all uninstall rest (ran ++ [ext])
      | TimeoutExpired =>
          print_warning [Str "Extension listing timed out"];;
          ret (ran ++ [ext])
      | CalledProcessError _ message =>
          print_warning [Str "Cleanup failed: "; Str message];;
          print_info [Str "Continuing anyway..."];;
          ret (ran ++ [ext])
      | RunFailed e => raise e
      end
  end.

Definition cleanup_existing_extensions (list_extensions : run_result)
    (uninstall : string → run_result) : M (list string) :=
  print_info [Str "Checking for existing Copilot extensions..."];;
  match list_extensions with
  | Completed stdout =>
      let installed := listed_extensions stdout in
      let copilot_exts :=
        filter (fun ext => str_contains "copilot" (str_lower ext) = true)
          installed in
      match copilot_exts with
      | [] =>
          print_success [Str "No existing Copilot extensions found"];;
          ret []
      | _ :: _ =>
          print_warning [Str "Found "; Num (N.of_nat (length copilot_exts));
                         Str " existing Copilot extension(s)"];;
          uninstall_all uninstall copilot_exts []
      end
  | TimeoutExpired =>
      print_warning [Str "Extension listing timed out"];; ret []
  | CalledProcessError _ message =>
      print_warning [Str "Cleanup failed: "; Str message];;
      print_info [Str "Continuing anyway..."];;
      ret []
  | RunFailed e => raise e
  end.

Definition INSTALL_RETRY_COUNT : nat := 2.

(** The attempts of [install_extension] from [attempt] on, [remaining]
    of them; [install] and [list_extensions] give what the commands do at
    each attempt. The number returned is the number of install commands
    that were run. *)
Fixpoint install_attempts (install list_extensions : nat → run_result)
    (extension_name : string) (remaining attempt ran : nat)
    : M (bool * nat) :=
  match remaining with
  | O => ret (false, ran)
  | S remaining' =>
      let next :=
        install_attempts install list_extensions extension_name remaining'
          (S attempt) (S ran) in
      match install attempt with
      | Completed _ =>
          print_success [Str "Installed "; Str extension_name];;
          ret (true, S ran)
      | TimeoutExpired =>
          (if decide (attempt < INSTALL_RETRY_COUNT)%nat then
             print_warning [Str "Installation timed out (attempt ";
                            Num (N.of_nat attempt); Str "/";
                            Num (N.of_nat INSTALL_RETRY_COUNT);
                            Str "), retrying..."]
           else print_error [Str "Installation timed out after all retries"]);;
          next
      | CalledProcessError stderr message =>
          let error_msg :=
            match stderr with
            | EmptyString => message
            | _ => str_strip stderr
            end in
          let retry :=
            (if decide (attempt < INSTALL_RETRY_COUNT)%nat then
               print_warning [Str "Installation failed (attempt ";
                              Num (N.of_nat attempt); Str "/";
                              Num (N.of_nat INSTALL_RETRY_COUNT);
                              Str "), retrying..."]
             else print_error [Str "Installation failed: "; Str error_msg]);;
            next in
          if str_contains "ScanningExtension" error_msg then
            print_warning
              [Str "Scanning error occurred, verifying installation..."];;
            let* installed :=
              is_extension_installed (list_extensions attempt)
                extension_name in
            if installed then
              print_success
                [Str "Extension appears to be installed despite error"];;
              ret (true, S ran)
            else retry
          else retry
      | RunFailed e => raise e
      end
  end.

Definition install_extension (install list_extensions : nat → run_result)
    (vsix_path extension_name : string) : M (bool * nat) :=
  print_info [Str "Installing "; Str extension_name; Str "..."];;
  install_attempts install list_extensions extension_name
    INSTALL_RETRY_COUNT 1 0.

(** A file system for the examples: the configuration directory exists
    and every call succeeds; [product_json] is what reading product.json
    gives. *)
Definition sample_files (product_json : loaded ProductJson) : UserFiles :=
  mkUserFiles "/home/user/.config/VSCodium" ["/home/user/.config/Code - OSS"]
    (fun path =>
       Done (bool_decide (path = "/home/user/.config/VSCodium")
             || bool_decide
                  (path = "/home/user/.config/VSCodium/product.json")))
    (fun _ => None) (fun _ _ => None) (fun _ => product_json)
    (fun _ _ => Written).

Definition sample_product_json : ProductJson :=
  mkProductJson (Some {["other.extension" := ["findFiles2"]]})
    [("nameShort", "VSCodium")].

(** Whether an attempt of [install_extension] ends the loop with
    success: the install command completes, or it fails with a scanning
    error and the extension is then listed. *)
Definition attempt_succeeds (install list_extensions : nat → run_result)
    (attempt : nat) : bool :=
  match install attempt with
  | Completed _ => true
  | CalledProcessError stderr message =>
      str_contains "ScanningExtension"
        (match stderr with
         | EmptyString => message
         | _ => str_strip stderr
         end)
      && match list_extensions attempt with
         | Completed stdout =>
             bool_decide ("github.copilot-chat"
                          ∈ str_lower <$> listed_extensions stdout)
         | _ => false
         end
  | _ => false
  end.

(** The extensions that [cleanup_existing_extensions] sets out to
    uninstall. *)
Definition copilot_exts (stdout : string) : list string :=
  filter (fun ext => str_contains "copilot" (str_lower ext) = true)
    (listed_extensions stdout).

(** ** Orders

    What it takes for a three-way comparison to be a total order, and the
    two ways the comparison of keys combines comparisons: pairs compared
    item by item, and [None] before every [Some]. *)
Record LawfulCompare {A : Type} (cmp : A → A → comparison) : Prop := {
  compare_eq : ∀ x y, cmp x y = Eq → x = y;
  compare_refl : ∀ x, cmp x x = Eq;
  compare_antisym : ∀ x y, cmp y x = CompOpp (cmp x y);
  compare_lt_trans : ∀ x y z, cmp x y = Lt → cmp y z = Lt → cmp x z = Lt
}.

Definition pair_compare {A B : Type} (cmp1 : A → A → comparison)
    (cmp2 : B → B → comparison) (p q : A * B) : comparison :=
  match cmp1 p.1 q.1 with
  | Eq => cmp2 p.2 q.2
  | c => c
  end.

Definition none_first {A : Type} (cmp : A → A → comparison)
    (a b : option A) : comparison :=
  match a, b with
  | None, None => Eq
  | None, Some _ => Lt
  | Some _, None => Gt
  | Some x, Some y => cmp x y
  end.

(** A key as the nested pair of its items. *)
Definition key_items (k : Pep440.CmpKey)
    : N * (list N * (list Z * option (list (Z * string)))) :=
  (Pep440.key_epoch k,
   (Pep440.key_release k, (Pep440.key_suffix k, Pep440.key_local k))).

(** * Properties *)

(** ** The compatibility gate *)

Section Gate.

Implicit Types (R : list string) (S : gset string).

Lemma collect_unsupported_filter R S acc :
  collect_unsupported R S acc
  = acc ++ filter (fun r => normalize_api_proposal r ∉ S) R.
Proof.
  revert acc. induction R as [|r R IH]; intros acc; simpl.
  - by rewrite app_nil_r.
  - rewrite filter_cons. destruct (decide (normalize_api_proposal r ∈ S)).
    + rewrite decide_False by auto. apply IH.
    + rewrite decide_True by auto. rewrite IH, <- app_assoc. done.
Qed.

Lemma check_nonempty R S :
  S ≠ ∅ →
  check_api_compatibility R S
  = (bool_decide (filter (fun r => normalize_api_proposal r ∉ S) R = []),
     filter (fun r => normalize_api_proposal r ∉ S) R).
Proof.
  intros HS. unfold check_api_compatibility.
  rewrite decide_False by done. rewrite collect_unsupported_filter. simpl.
  f_equal. destruct (filter _ R); done.
Qed.

Lemma filter_nil_Forall R S :
  filter (fun r => normalize_api_proposal r ∉ S) R = []
  ↔ Forall (fun r => normalize_api_proposal r ∈ S) R.
Proof.
  induction R as [|r R IH]; simpl.
  - split; [constructor|done].
  - rewrite filter_cons, Forall_cons.
    destruct (decide (normalize_api_proposal r ∉ S)) as [Hn|Hy].
    + split; [done|]. intros [? _]. done.
    + apply dec_stable in Hy. rewrite IH. tauto.
Qed.

(** The field before the first separator. *)
Lemma str_split_first sep name rest :
  sep ∉ list_ascii_of_string name →
  str_split sep (name +:+ String sep rest) !! 0%nat = Some name.
Proof.
  induction name as [|c name IH]; simpl; intros Hsep.
  - by rewrite Ascii.eqb_refl.
  - apply not_elem_of_cons in Hsep as [Hc Hname].
    destruct (Ascii.eqb_spec c sep) as [->|_]; [done|].
    specialize (IH Hname).
    destruct (str_split sep (name +:+ String sep rest)) as [|f fs];
      simplify_eq/=; done.
Qed.

Lemma str_split_none sep name :
  sep ∉ list_ascii_of_string name → str_split sep name = [name].
Proof.
  induction name as [|c name IH]; simpl; intros Hsep; [done|].
  apply not_elem_of_cons in Hsep as [Hc Hname].
  destruct (Ascii.eqb_spec c sep) as [->|_]; [done|].
  by rewrite IH.
Qed.

(** The field before the first separator holds no separator. *)
Lemma str_split_head sep s :
  ∃ field fields,
    str_split sep s = field :: fields
    ∧ (sep ∉ list_ascii_of_string field)
    ∧ (s = field ∨ ∃ rest, s = field +:+ String sep rest).
Proof.
  induction s as [|c s (field & fields & IH & Hsep & Hs)]; simpl.
  - exists EmptyString, []. repeat split; [by intros ?%elem_of_nil|by left].
  - destruct (Ascii.eqb_spec c sep) as [->|Hc].
    + exists EmptyString, (str_split sep s).
      repeat split; [by intros ?%elem_of_nil|]. right. by exists s.
    + rewrite IH. exists (String c field), fields. repeat split.
      * simpl. by intros [?|?]%elem_of_cons.
      * destruct Hs as [->|[rest ->]]; [by left|]. right. by exists rest.
Qed.

Lemma normalize_bare name :
  "@"%char ∉ list_ascii_of_string name → normalize_api_proposal name = name.
Proof.
  intros H. unfold normalize_api_proposal. by rewrite str_split_none.
Qed.

Lemma normalize_revision name rev :
  "@"%char ∉ list_ascii_of_string name →
  normalize_api_proposal (name +:+ "@" +:+ rev) = name.
Proof.
  intros H. unfold normalize_api_proposal.
  change ("@" +:+ rev) with (String "@" rev).
  by rewrite str_split_first.
Qed.

Lemma filter_unsupported_fmap R R' S :
  normalize_api_proposal <$> R' = normalize_api_proposal <$> R →
  filter (fun r => normalize_api_proposal r ∉ S) R' = []
  ↔ filter (fun r => normalize_api_proposal r ∉ S) R = [].
Proof.
  intros Heq. rewrite !filter_nil_Forall.
  transitivity (Forall (fun b => b ∈ S) (normalize_api_proposal <$> R')).
  { by rewrite Forall_fmap. }
  rewrite Heq. by rewrite Forall_fmap.
Qed.

End Gate.

(** C1. With an empty supported set the gate accepts every list of
    requirements and reports nothing unsupported. *)
Theorem check_permissive (R : list string) :
  check_api_compatibility R ∅ = (true, []).
Proof. unfold check_api_compatibility. by rewrite decide_True. Qed.

(** C2. With a non-empty supported set [S], the gate accepts exactly when
    the base name of every requirement is in [S], and the unsupported list
    is the requirements whose base name is not in [S], in input order.
    The base name of a requirement is the text before its first [@]: it
    holds no [@] and the requirement is the base name alone or the base
    name followed by [@] and a revision. The revision has no influence:
    [name@rev] has the base name [name] for every [rev], it is accepted
    exactly when [name] is in [S], and two requirement lists with the same
    base names get the same verdict. *)
Theorem gate_checks_base_names (S : gset string) (R : list string) :
  S ≠ ∅ →
  ((check_api_compatibility R S).1 = true
     ↔ Forall (fun r => normalize_api_proposal r ∈ S) R) ∧
  (check_api_compatibility R S).2
    = filter (fun r => normalize_api_proposal r ∉ S) R ∧
  (∀ r : string,
      ("@"%char ∉ list_ascii_of_string (normalize_api_proposal r))
      ∧ (r = normalize_api_proposal r
         ∨ ∃ rev, r = normalize_api_proposal r +:+ "@" +:+ rev)) ∧
  (∀ name rev : string,
      "@"%char ∉ list_ascii_of_string name →
      normalize_api_proposal name = name
      ∧ normalize_api_proposal (name +:+ "@" +:+ rev) = name
      ∧ ((check_api_compatibility [name] S).1 = true ↔ name ∈ S)
      ∧ ((check_api_compatibility [name +:+ "@" +:+ rev] S).1 = true
         ↔ name ∈ S)) ∧
  (∀ R' : list string,
      normalize_api_proposal <$> R' = normalize_api_proposal <$> R →
      (check_api_compatibility R' S).1 = (check_api_compatibility R S).1).
Proof.
  intros HS.
  assert (Hone : ∀ r, (check_api_compatibility [r] S).1 = true
                      ↔ normalize_api_proposal r ∈ S).
  { intros r. rewrite check_nonempty by done. cbn [fst].
    rewrite bool_decide_eq_true, filter_nil_Forall, Forall_singleton. done. }
  rewrite check_nonempty by done. cbn [fst snd]. split_and!.
  - rewrite bool_decide_eq_true. apply filter_nil_Forall.
  - done.
  - intros r. unfold normalize_api_proposal.
    destruct (str_split_head "@" r) as (field & fields & -> & Hno & Hr).
    cbn [lookup list_lookup default]. split; [done|].
    destruct Hr as [->|[rest ->]]; [by left|]. right. by exists rest.
  - intros name rev Hname.
    rewrite !Hone, normalize_revision, normalize_bare by done. done.
  - intros R' Heq. rewrite check_nonempty by done. cbn [fst].
    apply bool_decide_ext. by apply filter_unsupported_fmap.
Qed.

Lemma gate_checks_base_names_witness :
  let S : gset string := {[ "chatHooks"; "activeComment" ]} in
  let R := ["chatHooks@6"; "missingProposal@1"; "activeComment@1"] in
  S ≠ ∅
  ∧ (check_api_compatibility R S).2
    = filter (fun r => normalize_api_proposal r ∉ S) R
  ∧ normalize_api_proposal ("chatHooks" +:+ "@" +:+ "6") = "chatHooks".
Proof.
  intros S R.
  assert (HS : S ≠ ∅) by (apply (bool_decide_eq_false_1 (S = ∅)); vm_compute; reflexivity).
  destruct (gate_checks_base_names S R HS) as (_ & Hlist & _ & Hname & _).
  split; [exact HS|]. split; [exact Hlist|].
  apply (Hname "chatHooks" "6"). apply (bool_decide_eq_true_1 _).
  vm_compute. reflexivity.
Defined.

(** ** The order of releases *)

Section Releases.

Import Pep440.

Implicit Types (l a b : list N).

Lemma trim_index_le l i : trim_index l i <= i.
Proof.
  induction i as [|j IH]; simpl; [lia|].
  destruct (l !! j) as [[|p]|]; lia.
Qed.

Lemma trim_index_app l l' i :
  i <= length l → trim_index (l ++ l') i = trim_index l i.
Proof.
  induction i as [|j IH]; simpl; intros Hi; [done|].
  rewrite lookup_app_l by lia.
  destruct (l !! j) as [[|p]|]; auto with lia.
Qed.

Lemma trimmed_snoc_zero l : trimmed (l ++ [0%N]) = trimmed l.
Proof.
  unfold trimmed. rewrite length_app. simpl.
  replace (length l + 1) with (S (length l)) by lia. simpl.
  rewrite lookup_app_r, Nat.sub_diag by lia. simpl.
  rewrite trim_index_app by lia.
  rewrite take_app_le by apply trim_index_le. done.
Qed.

Lemma trimmed_snoc_nonzero l x : x ≠ 0%N → trimmed (l ++ [x]) = l ++ [x].
Proof.
  intros Hx. unfold trimmed. rewrite length_app. simpl.
  replace (length l + 1) with (S (length l)) by lia. simpl.
  rewrite lookup_app_r, Nat.sub_diag by lia. simpl.
  destruct x as [|p]; [done|].
  rewrite take_ge; [done|]. rewrite length_app. simpl. lia.
Qed.

Lemma strip_zeros_snoc_zero l : strip_zeros (l ++ [0%N]) = strip_zeros l.
Proof.
  induction l as [|x l IH]; simpl; [done|]. by rewrite IH.
Qed.

Lemma strip_zeros_snoc_nonzero l x :
  x ≠ 0%N → strip_zeros (l ++ [x]) = l ++ [x].
Proof.
  intros Hx. induction l as [|y l IH]; simpl.
  - by destruct x.
  - rewrite IH. by destruct l.
Qed.

(** The loop of [_cmpkey] drops exactly the trailing zeros. *)
Lemma trimmed_strip_zeros l : trimmed l = strip_zeros l.
Proof.
  induction l as [|x l IH] using rev_ind; [done|].
  destruct (decide (x = 0%N)) as [->|Hx].
  - by rewrite trimmed_snoc_zero, strip_zeros_snoc_zero.
  - by rewrite trimmed_snoc_nonzero, strip_zeros_snoc_nonzero.
Qed.

Lemma strip_zeros_nil l : strip_zeros l = [] ↔ all_zero l = true.
Proof.
  induction l as [|x l IH]; simpl; [done|].
  destruct (strip_zeros l) as [|t ts] eqn:E.
  - destruct (N.eqb_spec x 0); simpl; [tauto|]. split; [done|]. done.
  - split; [done|]. intros [_ H]%andb_true_iff. apply IH in H. done.
Qed.

Lemma lex_compare_strip_zeros a b :
  lex_compare N.compare (strip_zeros a) (strip_zeros b) = zero_compare a b.
Proof.
  revert b. induction a as [|x a IH]; intros b.
  - simpl. destruct (all_zero b) eqn:Hb.
    + apply strip_zeros_nil in Hb. by rewrite Hb.
    + destruct (strip_zeros b) eqn:E; [|done].
      apply strip_zeros_nil in E. congruence.
  - destruct b as [|y b].
    + change (strip_zeros []) with (@nil N).
      change (zero_compare (x :: a) []) with
        (if all_zero (x :: a) then Eq else Gt).
      destruct (all_zero (x :: a)) eqn:Ha.
      * apply strip_zeros_nil in Ha. by rewrite Ha.
      * destruct (strip_zeros (x :: a)) eqn:E; [|done].
        apply strip_zeros_nil in E. congruence.
    + specialize (IH b). simpl.
      destruct (strip_zeros a) as [|ta tsa] eqn:Ea;
        destruct (strip_zeros b) as [|tb tsb] eqn:Eb;
        destruct (N.eqb_spec x 0) as [->|Hx];
        destruct (N.eqb_spec y 0) as [->|Hy]; simpl in *;
        rewrite <- ?IH; try done;
        try (destruct y; done); try (destruct x; done);
        destruct (N.compare_spec x y); try done; try subst; try lia.
Qed.

Lemma lex_compare_zeros_pad b n :
  length b <= n →
  lex_compare N.compare (replicate n 0%N) (pad n b)
  = if all_zero b then Eq else Lt.
Proof.
  unfold pad. revert n. induction b as [|y b IH]; intros n Hn; simpl in *.
  - rewrite Nat.sub_0_r. induction n; simpl; auto with lia.
  - destruct n as [|n]; [lia|]. simpl.
    destruct (N.eqb_spec y 0) as [->|Hy]; simpl.
    + apply IH. lia.
    + destruct y; done.
Qed.

Lemma lex_compare_pad_zeros a n :
  length a <= n →
  lex_compare N.compare (pad n a) (replicate n 0%N)
  = if all_zero a then Eq else Gt.
Proof.
  unfold pad. revert n. induction a as [|x a IH]; intros n Hn; simpl in *.
  - rewrite Nat.sub_0_r. induction n; simpl; auto with lia.
  - destruct n as [|n]; [lia|]. simpl.
    destruct (N.eqb_spec x 0) as [->|Hx]; simpl.
    + apply IH. lia.
    + destruct x; done.
Qed.

Lemma lex_compare_pad a b n :
  length a <= n → length b <= n →
  lex_compare N.compare (pad n a) (pad n b) = zero_compare a b.
Proof.
  revert b n. induction a as [|x a IH]; intros b n Ha Hb.
  - unfold pad at 1. simpl. rewrite Nat.sub_0_r.
    by apply lex_compare_zeros_pad.
  - destruct b as [|y b].
    + unfold pad at 2. simpl (length []). rewrite Nat.sub_0_r.
      change ([] ++ replicate n 0%N) with (replicate n 0%N).
      by apply lex_compare_pad_zeros.
    + simpl in Ha, Hb. destruct n as [|n]; [lia|].
      change (pad (S n) (x :: a)) with (x :: pad n a).
      change (pad (S n) (y :: b)) with (y :: pad n b).
      cbn [lex_compare zero_compare]. rewrite IH by lia. done.
Qed.

(** Comparing releases without their trailing zeros is comparing them
    padded with zeros to a common length. *)
Lemma trimmed_compare_padded a b :
  lex_compare N.compare (trimmed a) (trimmed b) = padded_compare a b.
Proof.
  rewrite !trimmed_strip_zeros, lex_compare_strip_zeros.
  unfold padded_compare. rewrite lex_compare_pad by lia. done.
Qed.

End Releases.

(** ** The engine version comparator *)

Section Comparator.

Import Pep440.

Lemma and_then_raises {A B : Type} (o : outcome A) (f : A → outcome B) e :
  and_then o f = Raise e →
  o = Raise e ∨ ∃ a, o = Ret a ∧ f a = Raise e.
Proof. destruct o as [a|e']; simpl; [right; by exists a|left; congruence]. Qed.

Lemma int_of_digits_raises digits e :
  int_of_digits digits = Raise e → e = ValueError.
Proof. unfold int_of_digits. case_decide; congruence. Qed.

Lemma int_or_zero_raises number e :
  int_or_zero number = Raise e → e = ValueError.
Proof. destruct number; [apply int_of_digits_raises|done]. Qed.

Lemma ints_of_raises parts e : ints_of parts = Raise e → e = ValueError.
Proof.
  induction parts as [|part parts IH]; [done|]. cbn [ints_of].
  intros [H|(n & _ & [H|(ns & _ & H)]%and_then_raises)]%and_then_raises.
  - by apply int_of_digits_raises in H.
  - by apply IH.
  - done.
Qed.

Lemma local_segments_of_raises parts e :
  local_segments_of parts = Raise e → e = ValueError.
Proof.
  induction parts as [|part parts IH]; [done|]. cbn [local_segments_of].
  intros [H|(n & _ & [H|(ns & _ & H)]%and_then_raises)]%and_then_raises.
  - unfold local_segment_of in H. destruct (forallb is_digit part); [|done].
    apply and_then_raises in H as [H|(n & _ & H)]; [|done].
    by apply int_of_digits_raises in H.
  - by apply IH.
  - done.
Qed.

Lemma letter_version_raises {L : Type}
    (group : option (L * option (list ascii))) e :
  letter_version group = Raise e → e = ValueError.
Proof.
  destruct group as [[letter number]|]; [|done]. cbn [letter_version].
  intros [Hn|(n & _ & Hn)]%and_then_raises; [|done].
  by apply int_or_zero_raises in Hn.
Qed.

Lemma number_version_raises group e :
  number_version group = Raise e → e = ValueError.
Proof.
  destruct group as [number|]; [|done]. cbn [number_version].
  intros [Hn|(n & _ & Hn)]%and_then_raises; [|done].
  by apply int_or_zero_raises in Hn.
Qed.

Lemma local_version_raises group e :
  local_version group = Raise e → e = ValueError.
Proof.
  destruct group as [parts|]; [|done]. cbn [local_version].
  intros [Hn|(n & _ & Hn)]%and_then_raises; [|done].
  by apply local_segments_of_raises in Hn.
Qed.

(** [version.parse] raises [InvalidVersion] when the pattern does not
    match and [ValueError] when a number is too long, and nothing else. *)
Lemma parse_raises s e :
  parse s = Raise e → e = InvalidVersion ∨ e = ValueError.
Proof.
  unfold parse. repeat case_match; try (intros [= <-]; by left).
  intros Hp. right.
  apply and_then_raises in Hp as [Hp|(? & _ & Hp)];
    [by apply int_or_zero_raises in Hp|].
  apply and_then_raises in Hp as [Hp|(? & _ & Hp)];
    [by apply ints_of_raises in Hp|].
  apply and_then_raises in Hp as [Hp|(? & _ & Hp)];
    [by apply letter_version_raises in Hp|].
  apply and_then_raises in Hp as [Hp|(? & _ & Hp)];
    [by apply number_version_raises in Hp|].
  apply and_then_raises in Hp as [Hp|(? & _ & Hp)];
    [by apply number_version_raises in Hp|].
  apply and_then_raises in Hp as [Hp|(? & _ & Hp)];
    [by apply local_version_raises in Hp|].
  done.
Qed.

Lemma is_version_compatible_parsed h r vh vr :
  parse h = Ret vh → parse (parse_engine_requirement r) = Ret vr →
  is_version_compatible h r = (Ret (version_ge vh vr), []).
Proof.
  intros Hh Hr. unfold is_version_compatible. by rewrite Hh, Hr.
Qed.

(** The three prefixes are stripped alike. *)
Lemma parse_engine_requirement_prefix v :
  parse_engine_requirement ("^" +:+ v) = parse_engine_requirement v
  ∧ parse_engine_requirement (">=" +:+ v) = parse_engine_requirement v
  ∧ parse_engine_requirement ("~" +:+ v) = parse_engine_requirement v.
Proof. done. Qed.

Lemma key_compare_release a b :
  epoch a = epoch b →
  match padded_compare (release a) (release b) with
  | Eq => unqualified a → unqualified b → key_compare (cmpkey a) (cmpkey b) = Eq
  | c => key_compare (cmpkey a) (cmpkey b) = c
  end.
Proof.
  intros He. unfold key_compare, cmpkey. simpl. rewrite He, N.compare_refl.
  rewrite trimmed_compare_padded.
  destruct (padded_compare (release a) (release b)); [|done..].
  intros (-> & -> & -> & ->) (-> & -> & -> & ->). done.
Qed.

End Comparator.

(** C4. The four documented comparisons hold, and the prefixes [^], [>=]
    and [~] are stripped alike: for every host version and version string
    the comparator gives the same answer (and prints the same) with any of
    them, namely what it gives without a prefix. *)
Theorem comparator_examples :
  result (is_version_compatible "1.109.51242" "^1.109.0-20260124") = Ret true
  ∧ result (is_version_compatible "1.109.51242" "^1.110.0") = Ret false
  ∧ result (is_version_compatible "1.100.0" "^1.109.0") = Ret false
  ∧ result (is_version_compatible "1.200.0" "^1.109.0") = Ret true
  ∧ ∀ h v : string,
      is_version_compatible h ("^" +:+ v) = is_version_compatible h (">=" +:+ v)
      ∧ is_version_compatible h (">=" +:+ v) = is_version_compatible h ("~" +:+ v)
      ∧ is_version_compatible h ("~" +:+ v) = is_version_compatible h v.
Proof.
  repeat split; try (vm_compute; reflexivity);
    unfold is_version_compatible;
    destruct (parse_engine_requirement_prefix v) as (-> & -> & ->); done.
Qed.

(** C7, as stated, fails: the host 1.109.0 satisfies the requirement
    ^1.109.0 and, read as the design document words the comparison, also
    ^1.109.0-20260124; the comparator rejects the latter, and rejects
    ^1.109.0-insider as well. *)
Lemma qualifier_changes_comparison :
  result (is_version_compatible "1.109.0" "^1.109.0") = Ret true
  ∧ spec_is_compatible "1.109.0" "^1.109.0-20260124" = true
  ∧ result (is_version_compatible "1.109.0" "^1.109.0-20260124") = Ret false
  ∧ spec_is_compatible "1.109.0" "^1.109.0-insider" = true
  ∧ result (is_version_compatible "1.109.0" "^1.109.0-insider") = Ret false.
Proof. repeat split; vm_compute; reflexivity. Qed.

(** C7, amended. When both strings parse as PEP 440 versions of the same
    epoch, the comparator compares the release components as integers,
    missing trailing components counting as 0: it answers true when the
    host's are greater, false when they are smaller, and true when they are
    equal and neither side carries a qualifier. It prints nothing. *)
Theorem comparator_orders_by_release (h r : string)
    (vh vr : Pep440.Version) :
  Pep440.parse h = Ret vh →
  Pep440.parse (parse_engine_requirement r) = Ret vr →
  Pep440.epoch vh = Pep440.epoch vr →
  match padded_compare (Pep440.release vh) (Pep440.release vr) with
  | Gt => is_version_compatible h r = (Ret true, [])
  | Lt => is_version_compatible h r = (Ret false, [])
  | Eq => unqualified vh → unqualified vr →
          is_version_compatible h r = (Ret true, [])
  end.
Proof.
  intros Hh Hr He. rewrite (is_version_compatible_parsed _ _ _ _ Hh Hr).
  pose proof (key_compare_release vh vr He) as Hk.
  unfold Pep440.version_ge.
  destruct (padded_compare _ _).
  - intros Uh Ur. by rewrite (Hk Uh Ur).
  - by rewrite Hk.
  - by rewrite Hk.
Qed.

Lemma comparator_orders_by_release_witness :
  is_version_compatible "1.109.51242" "^1.109.0-20260124" = (Ret true, []).
Proof.
  exact (comparator_orders_by_release "1.109.51242" "^1.109.0-20260124"
           (Pep440.mkVersion 0 [1; 109; 51242]%N None None None None)
           (Pep440.mkVersion 0 [1; 109; 0]%N None (Some 20260124%N) None None)
           eq_refl eq_refl eq_refl).
Defined.

(** The [except] clause at work: when the host version is no PEP 440
    version, or the host version parses and the requirement without its
    prefix is no PEP 440 version, the comparator returns false and prints
    one warning. *)
Lemma comparator_catches_invalid_version (h r : string) :
  Pep440.parse h = Raise InvalidVersion
  ∨ ((∃ vh, Pep440.parse h = Ret vh)
     ∧ Pep440.parse (parse_engine_requirement r) = Raise InvalidVersion) →
  is_version_compatible h r
  = (Ret false,
     [Log LWarning [Str "Version comparison failed: ";
                    Exc InvalidVersion]]).
Proof.
  unfold is_version_compatible. intros [Hh|[[vh Hh] Hr]].
  - by rewrite Hh.
  - by rewrite Hh, Hr.
Qed.

(** What the comparator does with every pair of strings: it returns, or it
    raises the [ValueError] of a number that is too long. *)
Lemma is_version_compatible_cases (h r : string) :
  (∃ b, result (is_version_compatible h r) = Ret b)
  ∨ (result (is_version_compatible h r) = Raise ValueError
     ∧ (Pep440.parse h = Raise ValueError
        ∨ Pep440.parse (parse_engine_requirement r) = Raise ValueError)).
Proof.
  unfold is_version_compatible.
  destruct (Pep440.parse h) as [vh|e] eqn:Hh.
  - destruct (Pep440.parse (parse_engine_requirement r)) as [vr|e] eqn:Hr.
    + left. by eexists.
    + destruct (parse_raises _ _ Hr) as [-> | ->].
      * left. by eexists.
      * right. split; [done|by right].
  - destruct (parse_raises _ _ Hh) as [-> | ->].
    + left. by eexists.
    + right. split; [done|by left].
Qed.

(** C8. A parse failure can leave the comparator as an exception. The
    requirement made of the prefix [^] and a number of 4301 digits does
    not parse: the pattern matches and [int] raises [ValueError] on the
    number, which the clause [except version.InvalidVersion] does not
    catch; the same happens when the host version is that number. The
    sibling failure, a string that is no PEP 440 version, is caught and
    gives false. *)
Theorem long_number_escapes_comparator :
  Pep440.parse (parse_engine_requirement ("^" +:+ long_number))
  = Raise ValueError
  ∧ result (is_version_compatible "1.109.51242" ("^" +:+ long_number))
    = Raise ValueError
  ∧ result (is_version_compatible long_number "^1.109.0") = Raise ValueError
  ∧ is_version_compatible "1.109.51242" "^1.109.0-insider"
    = (Ret false,
       [Log LWarning [Str "Version comparison failed: ";
                      Exc InvalidVersion]]).
Proof. repeat split; vm_compute; reflexivity. Qed.

(** ** Computations *)

Section Computations.

Context {A B : Type}.

Lemma bind_ret_eq (m : M A) (f : A → M B) a :
  result m = Ret a →
  bind m f = (result (f a), printed m ++ printed (f a)).
Proof. destruct m as [o out]. simpl. intros ->. by destruct (f a). Qed.

Lemma bind_raise_eq (m : M A) (f : A → M B) e :
  result m = Raise e → bind m f = (Raise e, printed m).
Proof. destruct m as [o out]. simpl. by intros ->. Qed.

Lemma try_except_ret_eq (m : M A) h a :
  result m = Ret a → try_except m h = m.
Proof. destruct m as [o out]. simpl. by intros ->. Qed.

Lemma try_except_caught_eq (m : M A) h e k :
  result m = Raise e → h e = Some k →
  try_except m h = (result k, printed m ++ printed k).
Proof.
  destruct m as [o out]. simpl. intros -> ->. by destruct k.
Qed.

Lemma pair_result_printed (m : M A) : m = (result m, printed m).
Proof. by destruct m. Qed.

End Computations.

(** ** Manifest extraction *)

(** Extraction always returns: the declared proposals when the manifest
    can be read, the empty list otherwise. *)
Lemma extract_result (vsix_path : string) (archive : vsix_file) :
  result (extract_api_proposals_from_vsix vsix_path archive)
  = Ret match manifest archive with
        | Ret (Some api_proposals) => api_proposals
        | _ => []
        end.
Proof.
  unfold extract_api_proposals_from_vsix, manifest, zip_read.
  destruct archive as [zip_file|e]; simpl; [|by destruct e].
  destruct (zip_file !! "extension/package.json") as [[[l|]|e]|]; simpl;
    try done; try (by destruct e).
  destruct (zip_file !! "package.json") as [[[l|]|e]|]; simpl;
    try done; by destruct e.
Qed.

(** ** The version selector *)

Section SelectorFacts.

Variable download : string → string → outcome vsix_file.
Variable tmp : TempFiles.
Variable gate : list string → gset string → bool * list string.
Variables (target_version extension_id : string).
Variable supported_apis : gset string.

Local Abbreviation run_probe :=
  (probe download tmp gate extension_id supported_apis).
Local Abbreviation run_check :=
  (check_version download tmp gate target_version extension_id supported_apis).
Local Abbreviation run_scan :=
  (scan_versions download tmp gate target_version extension_id supported_apis).

Lemma print_items_returns items :
  ∃ out, print_items items = (Ret tt, out).
Proof.
  unfold print_items, ret. generalize (@nil log_entry).
  induction items as [|x items IH]; intros acc; simpl; [by eexists|].
  apply IH.
Qed.

Lemma probe_download_failed ver_str engine url c e :
  download url ("/tmp/" +:+ extension_id +:+ "-" +:+ ver_str +:+ ".vsix")
    = Raise e →
  cleanup_returns tmp
    ("/tmp/" +:+ extension_id +:+ "-" +:+ ver_str +:+ ".vsix") →
  run_probe ver_str engine url c
  = (Ret (Continue c),
     [Log LWarning [Str "Failed to check v"; Str ver_str; Str ": "; Exc e]]).
Proof.
  intros H [Hc|[Hc Hu]]; unfold probe; rewrite H; cbn; rewrite Hc; cbn;
    [done|]. by rewrite Hu.
Qed.

Lemma probe_accepts ver_str engine url c archive :
  download url ("/tmp/" +:+ extension_id +:+ "-" +:+ ver_str +:+ ".vsix")
    = Ret archive →
  extracted archive = [] ∨ (gate (extracted archive) supported_apis).1 = true →
  ∃ out, run_probe ver_str engine url c
         = (Ret (Return (mkCompatible ver_str engine url) c),
            out ++ [Log LInfo (summary c)]).
Proof.
  intros Hd Hok. unfold probe. rewrite Hd. simpl.
  pose proof (extract_result
                ("/tmp/" +:+ extension_id +:+ "-" +:+ ver_str +:+ ".vsix")
                archive) as Hx.
  fold (extracted archive) in Hx.
  destruct (extract_api_proposals_from_vsix _ archive) as [o out] eqn:E.
  simpl in Hx. subst o. simpl.
  destruct (extracted archive) as [|r rs] eqn:Hreqs.
  - simpl. eexists (out ++ [_; _]). by rewrite <- !app_assoc.
  - destruct Hok as [?|Hok]; [done|].
    destruct (gate (r :: rs) supported_apis) as [ok unsupported].
    simpl in Hok. subst ok. simpl.
    eexists (out ++ [_; _; _]). by rewrite <- !app_assoc.
Qed.

Lemma probe_rejects ver_str engine url c archive :
  download url ("/tmp/" +:+ extension_id +:+ "-" +:+ ver_str +:+ ".vsix")
    = Ret archive →
  extracted archive ≠ [] →
  (gate (extracted archive) supported_apis).1 = false →
  result (run_probe ver_str engine url c) = Ret (Continue (count_api c)).
Proof.
  intros Hd Hne Hno. unfold probe. rewrite Hd. simpl.
  pose proof (extract_result
                ("/tmp/" +:+ extension_id +:+ "-" +:+ ver_str +:+ ".vsix")
                archive) as Hx.
  fold (extracted archive) in Hx.
  destruct (extract_api_proposals_from_vsix _ archive) as [o out] eqn:E.
  simpl in Hx. subst o. simpl.
  destruct (extracted archive) as [|r rs] eqn:Hreqs; [done|].
  destruct (gate (r :: rs) supported_apis) as [ok unsupported].
  simpl in Hno. subst ok. simpl.
  destruct (print_items_returns (take 3 unsupported)) as [out1 ->].
  simpl. by destruct (decide _).
Qed.

Lemma check_version_prerelease ver c :
  is_prerelease ver →
  run_check ver c = (Ret (Continue (count_prerelease (count_checked c))), []).
Proof.
  intros H. unfold check_version. by rewrite decide_True.
Qed.

Lemma check_version_no_engine ver c :
  ¬ is_prerelease ver → engine_of ver = None →
  run_check ver c = (Ret (Continue (count_checked c)), []).
Proof.
  intros Hp He. unfold check_version.
  rewrite decide_False by done. unfold engine_of in He. by rewrite He.
Qed.

Lemma check_version_engine_mismatch ver c engine :
  ¬ is_prerelease ver → engine_of ver = Some engine →
  result (is_version_compatible target_version engine) = Ret false →
  result (run_check ver c) = Ret (Continue (count_engine (count_checked c))).
Proof.
  intros Hp He Hc. unfold check_version.
  rewrite decide_False by done. unfold engine_of in He. rewrite He.
  destruct (is_version_compatible target_version engine) as [o out].
  simpl in Hc. subst o. by destruct (decide _).
Qed.

Lemma check_version_no_package ver c engine :
  ¬ is_prerelease ver → engine_of ver = Some engine →
  result (is_version_compatible target_version engine) = Ret true →
  package_url ver = None →
  result (run_check ver c) = Ret (Continue (count_checked c)).
Proof.
  intros Hp He Hc Hu. unfold check_version.
  rewrite decide_False by done. unfold engine_of in He. rewrite He.
  destruct (is_version_compatible target_version engine) as [o out].
  simpl in Hc. subst o. unfold package_url in Hu.
  destruct (find_vsix_file (files ver)) as [vsix|]; simpl in Hu.
  - rewrite Hu. by destruct (decide _).
  - by destruct (decide _).
Qed.

(** A record that reaches the run_probe ends as its run_probe ends, and prints
    what the run_probe prints last. *)
Lemma check_version_probe ver c engine url :
  reaches_probe target_version ver engine url →
  ∃ out, run_check ver c
         = (result (run_probe (version_string ver) engine url (count_checked c)),
            out ++ printed (run_probe (version_string ver) engine url
                              (count_checked c))).
Proof.
  intros (Hp & He & Hc & Hu). unfold check_version.
  rewrite decide_False by done. unfold engine_of in He. rewrite He.
  destruct (is_version_compatible target_version engine) as [o out].
  simpl in Hc. subst o. unfold package_url in Hu.
  destruct (find_vsix_file (files ver)) as [vsix|]; simpl in Hu; [|done].
  rewrite Hu. fold (version_string ver).
  destruct (run_probe (version_string ver) engine url (count_checked c))
    as [o out'].
  destruct (decide _); simpl.
  - eexists (_ :: out ++ [_]). simpl. by rewrite <- app_assoc.
  - eexists (out ++ [_]). by rewrite <- app_assoc.
Qed.

Lemma scan_versions_continue ver rest c c' :
  result (run_check ver c) = Ret (Continue c') →
  run_scan (ver :: rest) c
  = (result (run_scan rest c'),
     printed (run_check ver c) ++ printed (run_scan rest c')).
Proof. intros H. simpl. by rewrite (bind_ret_eq _ _ _ H). Qed.

Lemma scan_versions_return ver rest c c' found :
  result (run_check ver c) = Ret (Return found c') →
  run_scan (ver :: rest) c
  = (Ret (Some found, c'), printed (run_check ver c)).
Proof.
  intros H. simpl. rewrite (bind_ret_eq _ _ _ H). simpl.
  by rewrite app_nil_r.
Qed.

End SelectorFacts.

Section SelectorClaims.

Variable download : string → string → outcome vsix_file.
Variable tmp : TempFiles.
Variables (target_version extension_name extension_id : string).
Variable supported_apis : gset string.

(** A record that reaches the probe and whose package passes is returned,
    whatever the counters are when the loop comes to it. *)
Lemma scan_versions_accepts gate ver rest c engine url archive :
  reaches_probe target_version ver engine url →
  download url (temp_path extension_id ver) = Ret archive →
  extracted archive = [] ∨ (gate (extracted archive) supported_apis).1 = true →
  ∃ out,
    scan_versions download tmp gate target_version extension_id supported_apis
      (ver :: rest) c
    = (Ret (Some (mkCompatible (version_string ver) engine url),
            count_checked c),
       out ++ [Log LInfo (summary (count_checked c))]).
Proof.
  intros Hr Hd Hok.
  destruct (check_version_probe download tmp gate target_version extension_id
              supported_apis ver c engine url Hr) as [out Hcv].
  destruct (probe_accepts download tmp gate extension_id supported_apis
              (version_string ver) engine url (count_checked c) archive
              Hd Hok) as [out' Hp].
  rewrite Hp in Hcv. simpl in Hcv.
  rewrite (scan_versions_return _ _ _ _ _ _ _ _ _ _ _ (f_equal fst Hcv)).
  rewrite Hcv. simpl. exists (out ++ out'). by rewrite app_assoc.
Qed.

End SelectorClaims.

(** C3. A catalog of, in this order, a pre-release record, a record whose
    engine requirement the host does not satisfy, a record without a
    package reference and a fully compatible record: the selector returns
    the fourth, with the counters checked 4, pre-release 1, engine
    mismatch 1, capability mismatch 0 (the record without a package is
    counted as checked only), and the last line it prints reports these
    counters. *)
Theorem selector_end_to_end
    (download : string → string → outcome vsix_file) (tmp : TempFiles)
    (target_version extension_name extension_id : string)
    (supported_apis : gset string)
    (r1 r2 r3 r4 : VersionRecord) (e2 e3 e4 url : string)
    (archive : vsix_file) :
  is_prerelease r1 →
  ¬ is_prerelease r2 → engine_of r2 = Some e2 →
  result (is_version_compatible target_version e2) = Ret false →
  ¬ is_prerelease r3 → engine_of r3 = Some e3 →
  result (is_version_compatible target_version e3) = Ret true →
  package_url r3 = None →
  reaches_probe target_version r4 e4 url →
  download url (temp_path extension_id r4) = Ret archive →
  (check_api_compatibility (extracted archive) supported_apis).1 = true →
  let run :=
    find_compatible_version_with_api_check download tmp [r1; r2; r3; r4]
      target_version extension_name extension_id supported_apis in
  result run
  = Ret (Some (mkCompatible (version_string r4) e4 url), mkCounters 4 1 1 0)
  ∧ last (printed run) = Some (Log LInfo (summary (mkCounters 4 1 1 0))).
Proof.
  intros H1 H2 E2 C2 H3 E3 C3 U3 H4 Hd Hok run. subst run.
  unfold find_compatible_version_with_api_check, find_compatible_version_with.
  change (take MAX_VERSIONS_TO_CHECK [r1; r2; r3; r4]) with [r1; r2; r3; r4].
  set (c0 := mkCounters 0 0 0 0).
  pose proof (check_version_prerelease download tmp check_api_compatibility
                target_version extension_id supported_apis r1 c0 H1) as S1.
  pose proof (check_version_engine_mismatch download tmp check_api_compatibility
                target_version extension_id supported_apis r2
                (count_prerelease (count_checked c0)) e2 H2 E2 C2) as S2.
  pose proof (check_version_no_package download tmp check_api_compatibility
                target_version extension_id supported_apis r3
                (count_engine (count_checked (count_prerelease (count_checked c0))))
                e3 H3 E3 C3 U3) as S3.
  destruct (scan_versions_accepts download tmp target_version extension_id
              supported_apis check_api_compatibility r4 []
              (count_checked
                 (count_engine
                    (count_checked (count_prerelease (count_checked c0)))))
              e4 url archive H4 Hd (or_intror Hok)) as [out S4].
  rewrite (scan_versions_continue _ _ _ _ _ _ _ _ _ _
             (f_equal fst S1)).
  rewrite (scan_versions_continue _ _ _ _ _ _ _ _ _ _ S2).
  rewrite (scan_versions_continue _ _ _ _ _ _ _ _ _ _ S3).
  rewrite S4. simpl. split; [done|].
  rewrite app_nil_r, !app_assoc, app_comm_cons. apply last_snoc.
Qed.

Lemma selector_end_to_end_witness :
  let run :=
    find_compatible_version_with_api_check sample_download clean_tmp sample_catalog
      sample_target "GitHub Copilot Chat" "GitHub.copilot-chat"
      sample_supported in
  result run
  = Ret (Some (mkCompatible "0.37.6" "^1.109.0-20260124" sample_url),
         mkCounters 4 1 1 0)
  ∧ last (printed run) = Some (Log LInfo (summary (mkCounters 4 1 1 0))).
Proof.
  apply (selector_end_to_end sample_download clean_tmp sample_target
           "GitHub Copilot Chat" "GitHub.copilot-chat" sample_supported
           sample_prerelease sample_newer_engine sample_no_package
           sample_compatible "^1.110.0" "^1.109.0" "^1.109.0-20260124"
           sample_url sample_archive).
  - vm_compute. reflexivity.
  - intros H. vm_compute in H. discriminate.
  - vm_compute. reflexivity.
  - vm_compute. reflexivity.
  - intros H. vm_compute in H. discriminate.
  - vm_compute. reflexivity.
  - vm_compute. reflexivity.
  - vm_compute. reflexivity.
  - repeat split; try (vm_compute; reflexivity).
    intros H. vm_compute in H. discriminate.
  - vm_compute. reflexivity.
  - vm_compute. reflexivity.
Defined.

(** C10. A record that reaches the probe and whose package is fetched is
    returned at once when the extraction gives the empty list, whatever
    the gate and the supported set are; and the extraction gives the empty
    list when the manifest declares no proposals as well as when the
    archive or its manifest cannot be read. *)
Theorem empty_manifest_is_accepted
    (download : string → string → outcome vsix_file) (tmp : TempFiles)
    (gate : list string → gset string → bool * list string)
    (target_version extension_id : string) (supported_apis : gset string)
    (ver : VersionRecord) (rest : list VersionRecord) (c : Counters)
    (engine url : string) (archive : vsix_file) :
  reaches_probe target_version ver engine url →
  download url (temp_path extension_id ver) = Ret archive →
  (∃ e, manifest archive = Raise e) ∨ manifest archive = Ret None
    ∨ manifest archive = Ret (Some []) →
  result (extract_api_proposals_from_vsix (temp_path extension_id ver)
            archive) = Ret []
  ∧ result (scan_versions download tmp gate target_version extension_id
              supported_apis (ver :: rest) c)
    = Ret (Some (mkCompatible (version_string ver) engine url),
           count_checked c).
Proof.
  intros Hr Hd Hm.
  assert (He : extracted archive = []).
  { unfold extracted. by destruct Hm as [[e ->]|[->| ->]]. }
  split.
  - rewrite extract_result. fold (extracted archive). by rewrite He.
  - destruct (scan_versions_accepts download tmp target_version extension_id
                supported_apis gate ver rest c engine url archive Hr Hd
                (or_introl He)) as [out ->].
    done.
Qed.

Lemma empty_manifest_is_accepted_witness :
  result (scan_versions corrupt_download clean_tmp (fun _ _ => (false, []))
            sample_target "GitHub.copilot-chat" sample_supported
            [sample_compatible; sample_no_package] (mkCounters 0 0 0 0))
  = Ret (Some (mkCompatible "0.37.6" "^1.109.0-20260124" sample_url),
         mkCounters 1 0 0 0).
Proof.
  apply (empty_manifest_is_accepted corrupt_download clean_tmp (fun _ _ => (false, []))
           sample_target "GitHub.copilot-chat" sample_supported
           sample_compatible [sample_no_package] (mkCounters 0 0 0 0)
           "^1.109.0-20260124" sample_url (Raise BadZipFile)).
  - repeat split; try (vm_compute; reflexivity).
    intros H. vm_compute in H. discriminate.
  - reflexivity.
  - left. by exists BadZipFile.
Defined.

(** C6, where the code departs from it: a package that is fetched but is
    no zip archive is not skipped. With a non-empty supported set, the
    selector returns the record as the compatible version. *)
Theorem corrupt_archive_is_accepted :
  result (find_compatible_version_with_api_check corrupt_download clean_tmp
            [sample_compatible] sample_target "GitHub Copilot Chat"
            "GitHub.copilot-chat" sample_supported)
  = Ret (Some (mkCompatible "0.37.6" "^1.109.0-20260124" sample_url),
         mkCounters 1 0 0 0).
Proof. vm_compute. reflexivity. Qed.

(** The part of C6 the code does follow: a package that cannot be fetched
    is skipped with one warning, and the scan goes on with the next
    record, once the clean-up of the [except] clause has returned. *)
Lemma fetch_failure_is_skipped
    (download : string → string → outcome vsix_file) (tmp : TempFiles)
    (gate : list string → gset string → bool * list string)
    (target_version extension_id : string) (supported_apis : gset string)
    (ver : VersionRecord) (rest : list VersionRecord) (c : Counters)
    (engine url : string) (e : exn) :
  reaches_probe target_version ver engine url →
  download url (temp_path extension_id ver) = Raise e →
  cleanup_returns tmp (temp_path extension_id ver) →
  result (check_version download tmp gate target_version extension_id
            supported_apis ver c) = Ret (Continue (count_checked c))
  ∧ last (printed (check_version download tmp gate target_version extension_id
                     supported_apis ver c))
    = Some (Log LWarning [Str "Failed to check v"; Str (version_string ver);
                          Str ": "; Exc e])
  ∧ result (scan_versions download tmp gate target_version extension_id
              supported_apis (ver :: rest) c)
    = result (scan_versions download tmp gate target_version extension_id
                supported_apis rest (count_checked c)).
Proof.
  intros Hr Hd Hclean.
  destruct (check_version_probe download tmp gate target_version extension_id
              supported_apis ver c engine url Hr) as [out Hcv].
  rewrite (probe_download_failed download tmp gate extension_id supported_apis
             (version_string ver) engine url (count_checked c) e Hd Hclean)
    in Hcv.
  simpl in Hcv. rewrite Hcv. simpl. repeat split.
  - apply last_snoc.
  - rewrite bind_ret_eq with (a := Continue (count_checked c))
      by (by rewrite Hcv).
    done.
Qed.

(** ** The capability set resolver *)

Section Resolver.

Variable host : Host.

Lemma scan_runtime_paths_none paths :
  (∀ p, p ∈ paths →
        path_exists host p = Ret false
        ∨ (path_exists host p = Ret true
           ∧ get_runtime_api_proposals host p = None)) →
  result (scan_runtime_paths host paths) = Ret None.
Proof.
  induction paths as [|p paths IH]; intros H; cbn [scan_runtime_paths];
    [done|].
  specialize (IH (fun q Hq => H q (list_elem_of_further _ _ _ Hq))).
  destruct (H p) as [Hp|[Hp Hn]]; [by left| |]; rewrite Hp; cbn.
  - destruct (scan_runtime_paths host paths) as [o out]. cbn in *.
    by subst o.
  - rewrite Hn. cbn.
    destruct (scan_runtime_paths host paths) as [o out]. cbn in *.
    by subst o.
Qed.

Lemma first_existing_Some paths p :
  first_existing host paths = Ret (Some p) →
  p ∈ paths ∧ path_exists host p = Ret true.
Proof.
  induction paths as [|q paths IH]; cbn [first_existing]; [done|].
  destruct (path_exists host q) as [[|]|e] eqn:Hq; cbn; [| |done].
  - intros [= ->]. split; [by left|done].
  - intros H. destruct (IH H). split; [by right|done].
Qed.

Lemma first_existing_returns paths :
  (∀ p, p ∈ paths → ∃ b, path_exists host p = Ret b) →
  ∃ found, first_existing host paths = Ret found.
Proof.
  induction paths as [|q paths IH]; intros H; cbn [first_existing];
    [by eexists|].
  destruct (H q) as [[|] ->]; [by left| |]; cbn; [by eexists|].
  apply IH. intros p Hp. apply H. by right.
Qed.

Lemma print_sample_returns (proposals : gset string) :
  ∃ out, print_sample proposals = (Ret tt, out).
Proof.
  unfold print_sample.
  assert (∃ out,
            foldl (fun acc prop => acc;; print_info [Str prop]) (ret tt)
              (take 5 (sorted proposals)) = (Ret tt, out)) as [out ->].
  { unfold ret. generalize (@nil log_entry).
    induction (take 5 (sorted proposals)) as [|x l IH]; intros acc; simpl;
      [by eexists|apply IH]. }
  simpl. destruct (decide _); by eexists.
Qed.

Lemma scan_runtime_paths_returns paths :
  (∀ p, p ∈ paths → ∃ b, path_exists host p = Ret b) →
  ∃ found, result (scan_runtime_paths host paths) = Ret found.
Proof.
  induction paths as [|p paths IH]; intros H; cbn [scan_runtime_paths];
    [by eexists|].
  destruct IH as [found IH]; [intros q Hq; apply H; by right|].
  destruct (H p) as [[|] ->]; [by left| |]; cbn.
  - destruct (get_runtime_api_proposals host p) as [proposals|].
    + destruct (print_sample_returns proposals) as [out ->]. by eexists.
    + destruct (scan_runtime_paths host paths) as [o out]. cbn in *.
      subst o. by eexists.
  - destruct (scan_runtime_paths host paths) as [o out]. cbn in *.
    subst o. by eexists.
Qed.

(** The resolver returns a set whenever its existence tests answer: the
    exceptions of its readings are caught. *)
Lemma get_supported_api_proposals_returns :
  (∀ p, p ∈ RUNTIME_API_PROPOSALS_PATHS host ++ SYSTEM_PRODUCT_JSON_PATHS host →
        ∃ b, path_exists host p = Ret b) →
  ∃ supported, result (get_supported_api_proposals host) = Ret supported.
Proof.
  intros H. unfold get_supported_api_proposals.
  destruct (scan_runtime_paths_returns (RUNTIME_API_PROPOSALS_PATHS host))
    as [found Hscan].
  { intros p Hp. apply H, elem_of_app. by left. }
  destruct (scan_runtime_paths host (RUNTIME_API_PROPOSALS_PATHS host))
    as [o out]. cbn in Hscan. subst o. cbn.
  destruct found as [proposals|]; [by eexists|].
  destruct (first_existing_returns (SYSTEM_PRODUCT_JSON_PATHS host))
    as [[p|] ->]; [|cbn..].
  { intros p Hp. apply H, elem_of_app. by right. }
  - destruct (load_product_json host p) as [product_data|e].
    + cbn.
      destruct (print_sample_returns
                  (collect_enabled (default [] product_data))) as [out' ->].
      by eexists.
    + destruct e; by eexists.
  - by eexists.
Qed.

End Resolver.

(** The part of C5 the code does follow. When every existence test
    answers and no capability evidence source succeeds, the resolver
    returns the empty set. With the set it returns, the selector accepts a
    record that reaches the probe and whose package is fetched, whatever
    capabilities the package requires. *)
Lemma resolver_permissive_without_evidence (host : Host) :
  no_runtime_evidence host → no_permission_list host →
  result (get_supported_api_proposals host) = Ret ∅
  ∧ ∀ (supported : gset string)
      (download : string → string → outcome vsix_file) (tmp : TempFiles)
      (target_version extension_name extension_id : string)
      (ver : VersionRecord) (rest : list VersionRecord)
      (engine url : string) (archive : vsix_file),
      result (get_supported_api_proposals host) = Ret supported →
      reaches_probe target_version ver engine url →
      download url (temp_path extension_id ver) = Ret archive →
      result (find_compatible_version_with_api_check download tmp
                (ver :: rest) target_version extension_name extension_id
                supported)
      = Ret (Some (mkCompatible (version_string ver) engine url),
             mkCounters 1 0 0 0).
Proof.
  intros Hrun Hperm.
  assert (Hempty : result (get_supported_api_proposals host) = Ret ∅).
  { unfold get_supported_api_proposals.
    pose proof (scan_runtime_paths_none host _ Hrun) as Hscan.
    destruct (scan_runtime_paths host (RUNTIME_API_PROPOSALS_PATHS host))
      as [o out]. cbn in Hscan. subst o. cbn.
    destruct (first_existing_returns host (SYSTEM_PRODUCT_JSON_PATHS host))
      as [[p|] Hfirst].
    { intros p Hp. destruct (Hperm p Hp) as [?|[? _]]; by eexists. }
    - rewrite Hfirst. cbn.
      apply first_existing_Some in Hfirst as [Hin Hex].
      destruct (Hperm p Hin) as [Hno|[_ [e He]]]; [congruence|].
      rewrite He. by destruct e.
    - by rewrite Hfirst. }
  split; [done|].
  intros supported download tmp target_version extension_name extension_id
    ver rest engine url archive Hs Hr Hd.
  rewrite Hempty in Hs. injection Hs as <-.
  unfold find_compatible_version_with_api_check, find_compatible_version_with.
  change (take MAX_VERSIONS_TO_CHECK (ver :: rest))
    with (ver :: take (pred MAX_VERSIONS_TO_CHECK) rest).
  destruct (scan_versions_accepts download tmp target_version extension_id ∅
              check_api_compatibility ver
              (take (pred MAX_VERSIONS_TO_CHECK) rest) (mkCounters 0 0 0 0)
              engine url archive Hr Hd) as [out ->].
  { right. by rewrite check_permissive. }
  done.
Qed.

Lemma resolver_permissive_without_evidence_witness :
  result (get_supported_api_proposals bare_host) = Ret ∅
  ∧ result (find_compatible_version_with_api_check sample_download clean_tmp
              [sample_compatible] sample_target "GitHub Copilot Chat"
              "GitHub.copilot-chat" ∅)
    = Ret (Some (mkCompatible "0.37.6" "^1.109.0-20260124" sample_url),
           mkCounters 1 0 0 0).
Proof.
  assert (H1 : no_runtime_evidence bare_host) by (intros p _; by left).
  assert (H2 : no_permission_list bare_host) by (intros p _; by left).
  destruct (resolver_permissive_without_evidence bare_host H1 H2)
    as [Hempty Haccept].
  split; [exact Hempty|].
  apply (Haccept ∅ sample_download clean_tmp sample_target
           "GitHub Copilot Chat" "GitHub.copilot-chat" sample_compatible []
           "^1.109.0-20260124" sample_url sample_archive Hempty).
  - repeat split; try (vm_compute; reflexivity).
    intros H. vm_compute in H. discriminate.
  - reflexivity.
Defined.

(** An existence test that raises ends the resolver: the exception leaves
    it, from the first loop as from the second. *)
Lemma exists_failure_escapes_resolver (host : Host) (e : exn) :
  (∃ p rest, RUNTIME_API_PROPOSALS_PATHS host = p :: rest
             ∧ path_exists host p = Raise e)
  ∨ (no_runtime_evidence host
     ∧ ∃ p rest, SYSTEM_PRODUCT_JSON_PATHS host = p :: rest
                 ∧ path_exists host p = Raise e) →
  result (get_supported_api_proposals host) = Raise e.
Proof.
  unfold get_supported_api_proposals.
  intros [(p & rest & -> & Hp)|(Hrun & p & rest & Hpaths & Hp)].
  - cbn [scan_runtime_paths]. by rewrite Hp.
  - pose proof (scan_runtime_paths_none host _ Hrun) as Hscan.
    destruct (scan_runtime_paths host (RUNTIME_API_PROPOSALS_PATHS host))
      as [o out]. cbn in Hscan. subst o. cbn.
    rewrite Hpaths. cbn [first_existing]. by rewrite Hp.
Qed.

(** C5. The resolver can raise when no capability evidence source
    succeeds. On a machine where the installation directory may not be
    searched, the first existence test raises and the exception leaves the
    resolver: [exists] is called outside every [try]. The sibling failure,
    a file that exists and may not be read, is caught and gives the empty
    set, as does a machine where no file exists. *)
Theorem unreadable_path_escapes_resolver :
  no_source_succeeds locked_host
  ∧ result (get_supported_api_proposals locked_host) = Raise OtherException
  ∧ result (get_supported_api_proposals unreadable_host) = Ret ∅
  ∧ result (get_supported_api_proposals bare_host) = Ret ∅.
Proof.
  split; [|split; [|split]].
  - split; intros p _; vm_compute; reflexivity.
  - apply exists_failure_escapes_resolver. left. by eexists _, _.
  - apply resolver_permissive_without_evidence.
    + intros p _. right. by split.
    + intros p _. right. split; [done|]. by eexists.
  - apply resolver_permissive_without_evidence; intros p _; by left.
Qed.

(** ** The proposal pattern and the bundle reader *)

Section ProposalPattern.

Lemma name_start_not_quote c : is_name_start c = true → is_quote c = false.
Proof.
  intros H. unfold is_quote.
  destruct (Ascii.eqb_spec c "034") as [->|_]; [by vm_compute in H|].
  destruct (Ascii.eqb_spec c "'") as [->|_]; [by vm_compute in H|]. done.
Qed.

Lemma digit_not_space c : is_digit c = true → is_space c = false.
Proof.
  unfold is_digit, is_space, in_range.
  intros [H1 H2]%andb_true_iff.
  apply N.leb_le in H1, H2.
  apply orb_false_iff. split; apply andb_false_iff.
  - right. apply N.leb_gt. lia.
  - right. apply N.leb_gt. lia.
Qed.

Lemma span_run p run c rest :
  forallb p run = true → p c = false →
  span p (run ++ c :: rest) = (run, c :: rest).
Proof.
  intros Hrun Hc. induction run as [|x run IH]; simpl in *.
  - by rewrite Hc.
  - apply andb_true_iff in Hrun as [-> Hrun]. by rewrite IH.
Qed.

Lemma name_chars name :
  is_capability_name name = true → forallb is_name_char name = true.
Proof.
  destruct name as [|c name]; simpl; [done|].
  intros [Hc ->]%andb_true_iff. unfold is_name_char. by rewrite Hc.
Qed.

Lemma match_proposal_declaration (quoted : bool) c name v rest :
  is_name_start c = true → forallb is_name_char name = true →
  is_digit v = true →
  let q := if quoted then ["034"%char] else [] in
  match_proposal
    (q ++ (c :: name) ++ q ++ list_ascii_of_string ":{version:" ++ v :: rest)
  = Some (c :: name, rest).
Proof.
  intros Hc Hname Hv q. subst q.
  assert (Hchars : forallb is_name_char (c :: name) = true).
  { simpl. unfold is_name_char at 1. by rewrite Hc, Hname. }
  pose proof (digit_not_space _ Hv) as Hsp.
  pose proof (name_start_not_quote c Hc) as Hq.
  unfold match_proposal. destruct quoted.
  - change (opt_quote (["034"%char] ++ ?l)) with l.
    cbn [app]. rewrite Hc. rewrite app_comm_cons.
    rewrite (span_run is_name_char (c :: name) "034" _ Hchars eq_refl).
    simpl. unfold skip_spaces. simpl. rewrite Hsp. simpl. by rewrite Hv.
  - cbn [app]. rewrite app_comm_cons. unfold opt_quote at 1.
    cbn [app]. rewrite Hq, Hc. rewrite app_comm_cons.
    cbn [list_ascii_of_string app]. rewrite app_comm_cons.
    rewrite (span_run is_name_char (c :: name) ":" _ Hchars eq_refl).
    simpl. unfold skip_spaces. simpl. rewrite Hsp. simpl. by rewrite Hv.
Qed.

Lemma match_proposal_rendered d rest :
  well_formed d = true →
  match_proposal (render_declaration d ++ rest)
  = Some (decl_name d, "}"%char :: ","%char :: rest).
Proof.
  unfold well_formed. intros [Hname Hv]%andb_true_iff.
  destruct d as [[|c name] quoted v]; [done|]. simpl in Hname, Hv.
  apply andb_true_iff in Hname as [Hc Hname].
  unfold render_declaration. cbn [decl_name decl_quoted decl_version].
  rewrite <- !app_assoc.
  by apply (match_proposal_declaration quoted c name v).
Qed.

Lemma findall_from_skip a b :
  findall_from (length a) (a ++ b) = findall_from 0 b.
Proof. induction a as [|x a IH]; simpl; done. Qed.

Lemma render_declaration_split d :
  ∃ x m, render_declaration d = (x :: m) ++ ["}"%char; ","%char].
Proof.
  unfold render_declaration.
  destruct (decl_quoted d); [|destruct (decl_name d) as [|c name]].
  - exists "034"%char,
      (decl_name d ++ ["034"%char] ++ list_ascii_of_string ":{version:"
         ++ [decl_version d]).
    cbn [app]. f_equal. by rewrite <- !app_assoc.
  - by exists ":"%char, (list_ascii_of_string "{version:" ++ [decl_version d]).
  - exists c, (name ++ list_ascii_of_string ":{version:" ++ [decl_version d]).
    cbn [app]. f_equal. by rewrite <- !app_assoc.
Qed.

(** Scanning a rendered declaration reports its name and goes on after
    it. *)
Lemma findall_from_rendered d rest :
  well_formed d = true →
  findall_from 0 (render_declaration d ++ rest)
  = declared_name d :: findall_from 0 rest.
Proof.
  intros Hwf. pose proof (match_proposal_rendered d rest Hwf) as Hm.
  destruct (render_declaration_split d) as (x & m & E).
  rewrite E in Hm |- *. rewrite <- app_assoc in Hm |- *.
  cbn [app] in Hm |- *. cbn [findall_from]. rewrite Hm.
  unfold declared_name. f_equal.
  replace (length (x :: m ++ "}"%char :: ","%char :: rest)
           - length ("}"%char :: ","%char :: rest) - 1) with (length m)
    by (simpl; rewrite length_app; simpl; lia).
  rewrite findall_from_skip. reflexivity.
Qed.

Lemma findall_rendered_table ds :
  Forall (fun d => well_formed d = true) ds →
  findall_proposals (render_table ds) = declared_name <$> ds.
Proof.
  intros Hds. unfold findall_proposals, render_table.
  rewrite list_ascii_of_string_of_list_ascii.
  induction Hds as [|d ds Hd _ IH]; [done|].
  cbn [map concat fmap list_fmap]. rewrite findall_from_rendered by done.
  by rewrite IH.
Qed.

End ProposalPattern.

(** C9. The bundle reader returns [None] when fewer than 20 distinct
    capability names are matched in the bundle file, and the whole set of
    matched names when there are 20 or more. A declaration is matched
    whether its name is quoted or bare: in a table of well-formed
    declarations the matched names are the declared ones. *)
Theorem bundle_reader_threshold (host : Host) (bundle_path : string) :
  (size (matched_names host bundle_path) < NOISE_THRESHOLD →
   bundle_reader host bundle_path = None)
  ∧ (NOISE_THRESHOLD <= size (matched_names host bundle_path) →
     bundle_reader host bundle_path = Some (matched_names host bundle_path))
  ∧ ∀ ds : list Declaration,
      Forall (fun d => well_formed d = true) ds →
      read_text host bundle_path = Ret (render_table ds) →
      matched_names host bundle_path
      = list_to_set (declared_name <$> ds) ∖ {["version"]}.
Proof.
  unfold bundle_reader, get_runtime_api_proposals, matched_names.
  repeat split.
  - intros Hlt. destruct (read_text host bundle_path) as [content|e]; [|done].
    destruct (decide (_ = ∅)); [done|]. by rewrite decide_False by lia.
  - intros Hge. unfold NOISE_THRESHOLD in Hge.
    destruct (read_text host bundle_path) as [content|e].
    + destruct (decide (_ = ∅)) as [E|_].
      * rewrite E, size_empty in Hge. lia.
      * by rewrite decide_True.
    + rewrite size_empty in Hge. lia.
  - intros ds Hds ->. by rewrite findall_rendered_table.
Qed.

Lemma bundle_reader_threshold_witness :
  bundle_reader (bundle_host sample_declarations) "workbench.desktop.main.js"
  = Some (list_to_set (declared_name <$> sample_declarations) ∖ {["version"]})
  ∧ bundle_reader (bundle_host (take 11 sample_declarations))
      "workbench.desktop.main.js" = None.
Proof.
  split.
  - destruct (bundle_reader_threshold (bundle_host sample_declarations)
                "workbench.desktop.main.js") as (_ & Hge & Hnames).
    rewrite <- (Hnames sample_declarations);
      [|repeat constructor|reflexivity].
    apply Hge. apply Nat.leb_le. vm_compute. reflexivity.
  - destruct (bundle_reader_threshold
                (bundle_host (take 11 sample_declarations))
                "workbench.desktop.main.js") as (Hlt & _ & _).
    apply Hlt. apply Nat.ltb_lt. vm_compute. reflexivity.
Defined.

(** * Further properties *)

(** ** More on the compatibility gate *)

(** X1. The base name of a requirement is the part of it before the first
    [@]: it holds no [@], the requirement is the base name alone or the
    base name followed by [@] and more, and normalising a base name
    leaves it as it is. *)
Theorem normalize_is_prefix_before_at (proposal : string) :
  ("@"%char ∉ list_ascii_of_string (normalize_api_proposal proposal))
  ∧ (proposal = normalize_api_proposal proposal
     ∨ ∃ rest, proposal = normalize_api_proposal proposal +:+ String "@" rest)
  ∧ normalize_api_proposal (normalize_api_proposal proposal)
    = normalize_api_proposal proposal.
Proof.
  assert (Hn : ∃ field, normalize_api_proposal proposal = field
                ∧ ("@"%char ∉ list_ascii_of_string field)
                ∧ (proposal = field
                   ∨ ∃ rest, proposal = field +:+ String "@" rest)).
  { unfold normalize_api_proposal.
    destruct (str_split_head "@" proposal)
      as (field & fields & -> & Hsep & Hs).
    by exists field. }
  destruct Hn as (field & -> & Hsep & Hs).
  repeat split; [done..|]. by apply normalize_bare.
Qed.

(** X2. Whatever the supported set, the gate accepts exactly when it
    reports nothing; what it reports is taken from the requirements, in
    their order, and every reported requirement has a base name outside
    the supported set. *)
Theorem gate_verdict_matches_report (R : list string) (S : gset string) :
  ((check_api_compatibility R S).1 = true
     ↔ (check_api_compatibility R S).2 = [])
  ∧ (check_api_compatibility R S).2 `sublist_of` R
  ∧ ∀ r, r ∈ (check_api_compatibility R S).2 →
         r ∈ R ∧ normalize_api_proposal r ∉ S.
Proof.
  destruct (decide (S = ∅)) as [->|HS].
  - rewrite check_permissive. simpl. split; [done|]. split.
    + apply sublist_nil_l.
    + by intros r ?%elem_of_nil.
  - rewrite check_nonempty by done. simpl. split; [|split].
    + apply bool_decide_eq_true.
    + apply sublist_filter.
    + intros r [? ?]%list_elem_of_filter. done.
Qed.

(** Checking two requirement lists one after the other is checking
    their concatenation: the reports are appended and the concatenation is
    accepted exactly when both lists are. *)
Lemma gate_of_concatenation (R1 R2 : list string) (S : gset string) :
  (check_api_compatibility (R1 ++ R2) S).2
  = (check_api_compatibility R1 S).2 ++ (check_api_compatibility R2 S).2
  ∧ (check_api_compatibility (R1 ++ R2) S).1
    = (check_api_compatibility R1 S).1 && (check_api_compatibility R2 S).1.
Proof.
  destruct (decide (S = ∅)) as [->|HS].
  - by rewrite !check_permissive.
  - rewrite !check_nonempty by done. simpl. rewrite filter_app. split; [done|].
    destruct (filter _ R1), (filter _ R2); done.
Qed.

(** X3. Among non-empty supported sets the gate is monotone: a larger set
    accepts whatever a smaller one accepts, and reports no requirement the
    smaller one does not report. *)
Theorem gate_monotone (R : list string) (S S' : gset string) :
  S ≠ ∅ → S ⊆ S' →
  ((check_api_compatibility R S).1 = true →
   (check_api_compatibility R S').1 = true)
  ∧ ∀ r, r ∈ (check_api_compatibility R S').2 →
         r ∈ (check_api_compatibility R S).2.
Proof.
  intros HS Hsub.
  assert (HS' : S' ≠ ∅) by set_solver.
  rewrite !check_nonempty by done. simpl. split.
  - intros H%bool_decide_eq_true. apply bool_decide_eq_true.
    apply filter_nil_Forall. apply filter_nil_Forall in H.
    eapply Forall_impl; [exact H|]. set_solver.
  - intros r [Hr Hin]%list_elem_of_filter. apply list_elem_of_filter.
    split; [set_solver|done].
Qed.

Lemma gate_monotone_witness :
  (check_api_compatibility ["chatHooks@6"] sample_supported).1 = true.
Proof.
  assert (H1 : ({[ "chatHooks" ]} : gset string) ≠ ∅)
    by (apply (bool_decide_eq_false_1 (_ = ∅)); vm_compute; reflexivity).
  assert (H2 : ({[ "chatHooks" ]} : gset string) ⊆ sample_supported)
    by (unfold sample_supported; set_solver).
  apply (proj1 (gate_monotone ["chatHooks@6"] {[ "chatHooks" ]}
                  sample_supported H1 H2)).
  vm_compute. reflexivity.
Defined.

(** ** More on the readers and the resolver *)

Lemma span_forall p s : forallb p (span p s).1 = true.
Proof.
  induction s as [|c s IH]; simpl; [done|].
  destruct (p c) eqn:Hc; [|done].
  destruct (span p s) as [run rest]. simpl in *. by rewrite Hc, IH.
Qed.

Lemma match_proposal_name s name rest :
  match_proposal s = Some (name, rest) → is_capability_name name = true.
Proof.
  unfold match_proposal.
  destruct (opt_quote s) as [|c s1]; [done|].
  destruct (is_name_start c) eqn:Hc; [|done].
  pose proof (span_forall is_name_char (c :: s1)) as Hrun.
  destruct (span is_name_char (c :: s1)) as [run s2] eqn:Hspan.
  intros H.
  assert (run = name) as ->.
  { repeat match type of H with
           | (?m ≫= _) = Some _ =>
               destruct m; simpl in H; [|discriminate H]
           end.
    destruct (skip_spaces _) as [|d tail]; [discriminate H|].
    destruct (is_digit d); [|discriminate H]. by injection H. }
  assert (Hc' : is_name_char c = true)
    by (unfold is_name_char; by rewrite Hc).
  cbn [span] in Hspan. rewrite Hc' in Hspan.
  destruct (span is_name_char s1) as [run' rest'].
  injection Hspan as <- <-. cbn [fst forallb] in Hrun.
  apply andb_true_iff in Hrun as [_ Hrun].
  cbn [is_capability_name]. by rewrite Hc, Hrun.
Qed.

Lemma findall_from_names skip s name :
  name ∈ findall_from skip s →
  is_capability_name (list_ascii_of_string name) = true.
Proof.
  revert skip. induction s as [|c s IH]; intros skip; simpl.
  - by intros ?%elem_of_nil.
  - destruct skip as [|skip]; [|apply IH].
    destruct (match_proposal (c :: s)) as [[found rest]|] eqn:Hm; [|apply IH].
    intros [->|Hin]%elem_of_cons; [|by eapply IH].
    rewrite list_ascii_of_string_of_list_ascii.
    by eapply match_proposal_name.
Qed.

(** X4. What the structured-source reader returns is never empty, never
    holds the word version, and holds only names of the shape
    [[A-Za-z][A-Za-z0-9_]*]. *)
Theorem runtime_proposals_are_names (host : Host) (proposals_js_path : string)
    (proposals : gset string) :
  get_runtime_api_proposals host proposals_js_path = Some proposals →
  proposals ≠ ∅
  ∧ ("version" ∉ proposals)
  ∧ ∀ name, name ∈ proposals →
            is_capability_name (list_ascii_of_string name) = true.
Proof.
  unfold get_runtime_api_proposals.
  destruct (read_text host proposals_js_path) as [content|e]; [|done].
  destruct (decide (_ = ∅)) as [|Hne]; [done|].
  intros [= <-]. split; [done|]. split.
  { intros [_ Hn]%elem_of_difference. apply Hn. by apply elem_of_singleton. }
  intros name [Hin _]%elem_of_difference.
  apply elem_of_list_to_set in Hin. by eapply findall_from_names.
Qed.

Lemma runtime_proposals_are_names_witness :
  ∃ proposals,
    get_runtime_api_proposals (bundle_host sample_declarations)
      "extensionApiProposals.js" = Some proposals
    ∧ "version" ∉ proposals.
Proof.
  assert (Hsome : match get_runtime_api_proposals
                           (bundle_host sample_declarations)
                           "extensionApiProposals.js"
                   with Some _ => true | None => false end = true)
    by (vm_compute; reflexivity).
  destruct (get_runtime_api_proposals (bundle_host sample_declarations)
              "extensionApiProposals.js") as [proposals|] eqn:E;
    [|discriminate Hsome].
  exists proposals. split; [reflexivity|].
  exact (proj1 (proj2 (runtime_proposals_are_names _ _ _ E))).
Defined.

Lemma scan_runtime_paths_first (host : Host) skipped p rest proposals :
  (∀ q, q ∈ skipped →
        path_exists host q = Ret false
        ∨ (path_exists host q = Ret true
           ∧ get_runtime_api_proposals host q = None)) →
  path_exists host p = Ret true →
  get_runtime_api_proposals host p = Some proposals →
  result (scan_runtime_paths host (skipped ++ p :: rest)) = Ret (Some proposals).
Proof.
  intros Hskip Hp Hget. induction skipped as [|q skipped IH];
    cbn [app scan_runtime_paths].
  - rewrite Hp. cbn. rewrite Hget. cbn.
    by destruct (print_sample_returns proposals) as [out ->].
  - assert (IH' : result (scan_runtime_paths host (skipped ++ p :: rest))
                  = Ret (Some proposals)).
    { apply IH. intros q' Hq'. apply Hskip. by right. }
    destruct (Hskip q) as [Hq|[Hq Hn]]; [by left| |]; rewrite Hq; cbn.
    + destruct (scan_runtime_paths host (skipped ++ p :: rest)) as [o out].
      cbn in *. by subst o.
    + rewrite Hn. cbn.
      destruct (scan_runtime_paths host (skipped ++ p :: rest)) as [o out].
      cbn in *. by subst o.
Qed.

(** X5. The first runtime proposals file that exists and can be used
    decides the result alone: the resolver returns its names, whatever the
    later runtime files and the product.json files hold. *)
Theorem resolver_first_runtime_source_wins (host : Host)
    (skipped : list string) (p : string) (rest : list string)
    (proposals : gset string) :
  RUNTIME_API_PROPOSALS_PATHS host = skipped ++ p :: rest →
  (∀ q, q ∈ skipped →
        path_exists host q = Ret false
        ∨ (path_exists host q = Ret true
           ∧ get_runtime_api_proposals host q = None)) →
  path_exists host p = Ret true →
  get_runtime_api_proposals host p = Some proposals →
  result (get_supported_api_proposals host) = Ret proposals.
Proof.
  intros Hpaths Hskip Hp Hget. unfold get_supported_api_proposals.
  rewrite Hpaths.
  pose proof (scan_runtime_paths_first host skipped p rest proposals
                Hskip Hp Hget) as Hscan.
  destruct (scan_runtime_paths host (skipped ++ p :: rest)) as [o out].
  simpl in Hscan. by subst o.
Qed.

Lemma resolver_first_runtime_source_wins_witness :
  ∃ proposals,
    result (get_supported_api_proposals
              (mkHost ["/opt/a.js"; "/opt/b.js"] ["/opt/product.json"]
                 (fun p => Ret (negb (String.eqb p "/opt/a.js")))
                 (fun _ => Ret (render_table sample_declarations))
                 (fun _ => Ret (Some [("publisher.other", ["extra@1"])]))))
    = Ret proposals.
Proof.
  set (host := mkHost _ _ _ _ _).
  assert (Hsome : match get_runtime_api_proposals host "/opt/b.js"
                   with Some _ => true | None => false end = true)
    by (vm_compute; reflexivity).
  destruct (get_runtime_api_proposals host "/opt/b.js") as [proposals|] eqn:E;
    [|discriminate Hsome].
  exists proposals.
  apply (resolver_first_runtime_source_wins host ["/opt/a.js"] "/opt/b.js"
           [] proposals eq_refl); [|reflexivity|exact E].
  intros q Hq%list_elem_of_singleton. subst q. left. reflexivity.
Defined.

Lemma collect_enabled_inner (acc : gset string) (proposals : list string) x :
  x ∈ foldl (fun all_proposals proposal =>
               let base_name :=
                 default EmptyString (str_split "@" proposal !! 0%nat) in
               {[ base_name ]} ∪ all_proposals) acc proposals
  ↔ x ∈ acc ∨ ∃ proposal, proposal ∈ proposals
                          ∧ normalize_api_proposal proposal = x.
Proof.
  revert acc. induction proposals as [|p proposals IH]; intros acc; simpl.
  - split; [by left|]. intros [?|(? & []%elem_of_nil & _)]. done.
  - rewrite IH. fold (normalize_api_proposal p). split.
    + intros [[->%elem_of_singleton|?]%elem_of_union|(q & Hq & Hn)].
      * right. exists p. split; [by left|done].
      * by left.
      * right. exists q. split; [by right|done].
    + intros [?|(q & [->|Hq]%elem_of_cons & Hn)].
      * left. apply elem_of_union. by right.
      * left. apply elem_of_union. left. by apply elem_of_singleton.
      * right. by exists q.
Qed.

Lemma collect_enabled_spec (enabled : list (string * list string)) x :
  x ∈ collect_enabled enabled
  ↔ ∃ ext proposals proposal,
      (ext, proposals) ∈ enabled ∧ proposal ∈ proposals
      ∧ normalize_api_proposal proposal = x.
Proof.
  unfold collect_enabled.
  assert (Hgen : ∀ acc : gset string,
    x ∈ foldl (fun all_proposals item =>
                 foldl (fun all_proposals proposal =>
                          let base_name :=
                            default EmptyString
                              (str_split "@" proposal !! 0%nat) in
                          {[ base_name ]} ∪ all_proposals)
                       all_proposals item.2) acc enabled
    ↔ x ∈ acc ∨ ∃ ext proposals proposal,
        (ext, proposals) ∈ enabled ∧ proposal ∈ proposals
        ∧ normalize_api_proposal proposal = x).
  { induction enabled as [|[ext props] enabled IH]; intros acc; simpl.
    - split; [by left|]. intros [?|(? & ? & ? & []%elem_of_nil & _)]. done.
    - rewrite IH, collect_enabled_inner. split.
      + intros [[?|(q & Hq & Hn)]|(e & ps & q & Hin & Hq & Hn)].
        * by left.
        * right. exists ext, props, q. split; [by left|done].
        * right. exists e, ps, q. split; [by right|done].
      + intros [?|(e & ps & q & [[= -> ->]|Hin]%elem_of_cons & Hq & Hn)].
        * left. by left.
        * left. right. by exists q.
        * right. by exists e, ps, q. }
  rewrite Hgen. split; [|by right]. intros [[]%elem_of_empty|?]. done.
Qed.

(** X6. Without a usable runtime proposals file, the resolver reads the
    first product.json that exists: the set it returns holds exactly the
    base names of the proposals listed there, for all extensions
    together. *)
Theorem resolver_product_json_fallback (host : Host) (p : string)
    (enabled : option (list (string * list string))) :
  no_runtime_evidence host →
  first_existing host (SYSTEM_PRODUCT_JSON_PATHS host) = Ret (Some p) →
  load_product_json host p = Ret enabled →
  ∃ supported,
    result (get_supported_api_proposals host) = Ret supported
    ∧ ∀ name, name ∈ supported
        ↔ ∃ ext proposals proposal,
            (ext, proposals) ∈ default [] enabled ∧ proposal ∈ proposals
            ∧ normalize_api_proposal proposal = name.
Proof.
  intros Hrun Hfirst Hload.
  exists (collect_enabled (default [] enabled)). split.
  - unfold get_supported_api_proposals.
    pose proof (scan_runtime_paths_none host _ Hrun) as Hscan.
    destruct (scan_runtime_paths host (RUNTIME_API_PROPOSALS_PATHS host))
      as [o out]. simpl in Hscan. subst o. simpl.
    rewrite Hfirst. simpl. rewrite Hload. simpl.
    by destruct (print_sample_returns (collect_enabled (default [] enabled)))
      as [out' ->].
  - intros name. apply collect_enabled_spec.
Qed.

Lemma resolver_product_json_fallback_witness :
  ∃ supported,
    result (get_supported_api_proposals
              (mkHost [] ["/opt/product.json"] (fun _ => Ret true)
                 (fun _ => Raise OtherException)
                 (fun _ => Ret (Some [("github.copilot-chat",
                                        ["chatProvider@2"; "findFiles2"])]))))
    = Ret supported
    ∧ ("chatProvider" ∈ supported).
Proof.
  set (host := mkHost _ _ _ _ _).
  destruct (resolver_product_json_fallback host "/opt/product.json"
              (Some [("github.copilot-chat",
                      ["chatProvider@2"; "findFiles2"])]))
    as (supported & Hres & Hin).
  - intros q Hq. by apply elem_of_nil in Hq.
  - reflexivity.
  - reflexivity.
  - exists supported. split; [exact Hres|]. apply Hin.
    exists "github.copilot-chat", ["chatProvider@2"; "findFiles2"],
      "chatProvider@2".
    split; [by left|]. split; [by left|]. reflexivity.
Defined.

(** X7. The extraction reads the member extension/package.json when the
    archive has it, whatever else the archive holds; it reads the member
    package.json only when the first is missing; and a first member that
    cannot be parsed gives the empty list, with no fallback. *)
Theorem extraction_prefers_extension_manifest (vsix_path : string)
    (zip_file : gmap string package_json) (api_proposals : list string)
    (e : exn) :
  result (extract_api_proposals_from_vsix vsix_path
            (Ret (<["extension/package.json" := Ret (Some api_proposals)]>
                    zip_file)))
  = Ret api_proposals
  ∧ result (extract_api_proposals_from_vsix vsix_path
              (Ret (<["package.json" := Ret (Some api_proposals)]>
                      (delete "extension/package.json" zip_file))))
    = Ret api_proposals
  ∧ result (extract_api_proposals_from_vsix vsix_path
              (Ret (<["extension/package.json" := Raise e]> zip_file)))
    = Ret [].
Proof.
  rewrite !extract_result. unfold manifest. repeat split.
  - by rewrite lookup_insert_eq.
  - rewrite lookup_insert_ne, lookup_delete_eq by done.
    by rewrite lookup_insert_eq.
  - by rewrite lookup_insert_eq.
Qed.

(** ** More on the version selector *)

Section SelectorScan.

Variable download : string → string → outcome vsix_file.
Variable tmp : TempFiles.
Variable gate : list string → gset string → bool * list string.
Variables (target_version extension_id : string).
Variable supported_apis : gset string.

Local Abbreviation step_of :=
  (check_version download tmp gate target_version extension_id supported_apis).
Local Abbreviation scan_of :=
  (scan_versions download tmp gate target_version extension_id supported_apis).
Local Abbreviation acceptable_here :=
  (acceptable download gate target_version extension_id supported_apis).
Local Abbreviation contained_here :=
  (contained tmp target_version extension_id).

Lemma reaches_probe_functional ver engine url engine' url' :
  reaches_probe target_version ver engine url →
  reaches_probe target_version ver engine' url' →
  engine = engine' ∧ url = url'.
Proof.
  intros (_ & He & _ & Hu) (_ & He' & _ & Hu'). split; congruence.
Qed.

(** The clean-up after a failed download returns, or its exception is
    the outcome of the probe. *)
Lemma probe_cleanup_cases ver_str engine url c e :
  download url ("/tmp/" +:+ extension_id +:+ "-" +:+ ver_str +:+ ".vsix")
    = Raise e →
  cleanup_returns tmp
    ("/tmp/" +:+ extension_id +:+ "-" +:+ ver_str +:+ ".vsix")
  ∨ (¬ cleanup_returns tmp
         ("/tmp/" +:+ extension_id +:+ "-" +:+ ver_str +:+ ".vsix")
     ∧ ∃ e', result (probe download tmp gate extension_id supported_apis
                       ver_str engine url c) = Raise e').
Proof.
  intros Hd. unfold cleanup_returns, probe. rewrite Hd. cbn.
  destruct (temp_exists tmp _) as [[|]|e1]; cbn.
  - destruct (temp_unlink tmp _) as [[]|e2]; cbn.
    + left. right. by split.
    + right. split; [|by eexists]. intros [?|[_ ?]]; done.
  - left. by left.
  - right. split; [|by eexists]. intros [?|[? _]]; done.
Qed.

(** One pass through the loop body either returns an acceptable record,
    or goes on with one of four counter updates, or raises; it raises
    only on a record whose exceptions are not contained. *)
Lemma check_version_cases ver c :
  (∃ found, acceptable_here ver found
            ∧ result (step_of ver c) = Ret (Return found (count_checked c)))
  ∨ ((∀ found, ¬ acceptable_here ver found)
     ∧ ∃ c', result (step_of ver c) = Ret (Continue c')
             ∧ (c' = count_checked c
                ∨ c' = count_prerelease (count_checked c)
                ∨ c' = count_engine (count_checked c)
                ∨ c' = count_api (count_checked c)))
  ∨ ((∀ found, ¬ acceptable_here ver found)
     ∧ ¬ contained_here ver
     ∧ ∃ e, result (step_of ver c) = Raise e).
Proof.
  destruct (decide (is_prerelease ver)) as [Hp|Hp].
  { right. left. split.
    - intros found (engine & url & archive & (Hn & _) & _). done.
    - eexists. rewrite check_version_prerelease by done. simpl. eauto. }
  destruct (engine_of ver) as [engine|] eqn:He; cycle 1.
  { right. left. split.
    - intros found (engine & url & archive & (_ & He' & _) & _). congruence.
    - eexists. rewrite check_version_no_engine by done. simpl. eauto. }
  destruct (is_version_compatible_cases target_version engine)
    as [[b Hb]|[Hb _]]; cycle 1.
  { right. right. split_and!.
    - intros found (engine' & url & archive & (_ & He' & Hc & _) & _).
      unfold result in Hb. congruence.
    - intros [Hret _]. destruct (Hret engine He) as [b Hb']. congruence.
    - exists ValueError. unfold check_version.
      rewrite decide_False by done. unfold engine_of in He. rewrite He.
      destruct (is_version_compatible target_version engine) as [o out].
      cbn in Hb. subst o. by destruct (decide _). }
  destruct b; cycle 1.
  { right. left. split.
    - intros found (engine' & url & archive & (_ & He' & Hc & _) & _).
      unfold result in Hb. congruence.
    - eexists. split; [by eapply check_version_engine_mismatch|]. eauto. }
  destruct (package_url ver) as [url|] eqn:Hu; cycle 1.
  { right. left. split.
    - intros found (engine' & url & archive & (_ & _ & _ & Hu') & _).
      congruence.
    - eexists. split; [by eapply check_version_no_package|]. eauto. }
  assert (Hr : reaches_probe target_version ver engine url) by done.
  destruct (check_version_probe download tmp gate target_version extension_id
              supported_apis ver c engine url Hr) as [out Hcv].
  destruct (download url (temp_path extension_id ver)) as [archive|e] eqn:Hd.
  - destruct (extracted archive) as [|r rs] eqn:Hx;
      [|destruct (gate (r :: rs) supported_apis).1 eqn:Hg].
    + left. eexists. split; [exists engine, url, archive; eauto|].
      destruct (probe_accepts download tmp gate extension_id supported_apis
                  (version_string ver) engine url (count_checked c) archive
                  Hd (or_introl Hx)) as [out' Hp'].
      rewrite Hcv, Hp'. done.
    + left. eexists. split.
      { exists engine, url, archive. rewrite Hx. eauto. }
      destruct (probe_accepts download tmp gate extension_id supported_apis
                  (version_string ver) engine url (count_checked c) archive
                  Hd) as [out' Hp'].
      { right. by rewrite Hx. }
      rewrite Hcv, Hp'. done.
    + right. left. split.
      * intros found (engine' & url' & archive' & Hr' & Hd' & Hok & _).
        destruct (reaches_probe_functional _ _ _ _ _ Hr Hr') as [<- <-].
        rewrite Hd in Hd'. injection Hd' as <-. rewrite Hx in Hok.
        destruct Hok; congruence.
      * eexists. rewrite Hcv. simpl. split; [|eauto 10].
        apply (probe_rejects download tmp gate extension_id supported_apis
                 (version_string ver) engine url (count_checked c) archive Hd).
        -- by rewrite Hx.
        -- by rewrite Hx.
  - assert (Hnot : ∀ found, ¬ acceptable_here ver found).
    { intros found (engine' & url' & archive' & Hr' & Hd' & _).
      destruct (reaches_probe_functional _ _ _ _ _ Hr Hr') as [<- <-].
      congruence. }
    destruct (probe_cleanup_cases (version_string ver) engine url
                (count_checked c) e Hd) as [Hclean|[Hclean [e' Hraise]]].
    + right. left. split; [done|].
      eexists. rewrite Hcv.
      rewrite (probe_download_failed download tmp gate extension_id
                 supported_apis (version_string ver) engine url
                 (count_checked c) e Hd Hclean).
      simpl. eauto.
    + right. right. split_and!; [done| |].
      * intros [_ Hc]. by apply Hclean.
      * exists e'. rewrite Hcv. done.
Qed.

(** The loop: it returns the first acceptable record, or runs to the end
    of the list when there is none, or raises at a record whose exceptions
    are not contained; it counts every record it comes to, and at most one
    skip for each record it passes. *)
Lemma scan_versions_cases versions c :
  (∃ passed ver rest found c',
      versions = passed ++ ver :: rest
      ∧ Forall (fun v => ∀ f, ¬ acceptable_here v f) passed
      ∧ acceptable_here ver found
      ∧ result (scan_of versions c) = Ret (Some found, c')
      ∧ checked_count c' = checked_count c + length passed + 1
      ∧ skips c <= skips c' <= skips c + length passed)
  ∨ (Forall (fun v => ∀ f, ¬ acceptable_here v f) versions
     ∧ ∃ c', result (scan_of versions c) = Ret (None, c')
             ∧ checked_count c' = checked_count c + length versions
             ∧ skips c <= skips c' <= skips c + length versions)
  ∨ (∃ ver e, ver ∈ versions ∧ ¬ contained_here ver
              ∧ result (scan_of versions c) = Raise e).
Proof.
  revert c. induction versions as [|ver versions IH]; intros c.
  - right. left. split; [constructor|]. exists c. simpl. repeat split; lia.
  - destruct (check_version_cases ver c)
      as [(found & Hacc & Hres)|[(Hnot & c1 & Hres & Hc1)
                                |(Hnot & Hesc & e & Hres)]].
    + left. exists [], ver, versions, found, (count_checked c).
      rewrite (scan_versions_return _ _ _ _ _ _ _ _ _ _ _ Hres).
      repeat split;
        first [done | by constructor | unfold skips; simpl; lia].
    + assert (Hcount : checked_count c1 = S (checked_count c)
                       ∧ skips c <= skips c1 <= S (skips c)).
      { unfold skips.
        destruct Hc1 as [-> | [-> | [-> | ->]]]; simpl; lia. }
      destruct Hcount as [Hchecked Hskips].
      rewrite (scan_versions_continue _ _ _ _ _ _ _ _ _ _ Hres).
      destruct (IH c1)
        as [(passed & v & rest & found & c' & -> & Hpassed & Hacc & Hr
             & Hch & Hsk)
           |[(Hall & c' & Hr & Hch & Hsk)
            |(v & e & Hin & Hesc & Hr)]].
      * left. exists (ver :: passed), v, rest, found, c'.
        repeat split; first [done | by constructor | simpl; lia].
      * right. left. split; [by constructor|]. exists c'.
        repeat split; first [done | simpl; lia].
      * right. right. exists v, e. split_and!; [by right|done|done].
    + right. right. exists ver, e. split_and!; [by left|done|].
      cbn [scan_versions]. by rewrite (bind_raise_eq _ _ e Hres).
Qed.

End SelectorScan.

Lemma result_print_then {A : Type} l m (k : M A) :
  result (print l m;; k) = result k.
Proof. unfold print, bind. by destruct k. Qed.

Section SelectorResults.

Variable download : string → string → outcome vsix_file.
Variable tmp : TempFiles.
Variables (target_version extension_name extension_id : string).
Variable supported_apis : gset string.

Local Abbreviation select :=
  (fun versions =>
     find_compatible_version_with_api_check download tmp versions target_version
       extension_name extension_id supported_apis).
Local Abbreviation scan_all :=
  (fun versions =>
     scan_versions download tmp check_api_compatibility target_version
       extension_id supported_apis (take MAX_VERSIONS_TO_CHECK versions)
       (mkCounters 0 0 0 0)).
Local Abbreviation unacceptable :=
  (fun v => ∀ f, ¬ acceptable download check_api_compatibility
                     target_version extension_id supported_apis v f).

(** The selector returns what its loop returns on the first 200 records,
    and raises what it raises. *)
Lemma select_result_scan versions :
  result (select versions) = result (scan_all versions).
Proof.
  unfold find_compatible_version_with_api_check, find_compatible_version_with.
  destruct versions as [|ver versions]; [done|].
  unfold print_info. rewrite !result_print_then.
  destruct (result (scan_versions _ _ _ _ _ _ _ _)) as [r|e] eqn:Hscan.
  - rewrite (bind_ret_eq _ _ _ Hscan). by destruct r as [[found|] c].
  - by rewrite (bind_raise_eq _ _ _ Hscan).
Qed.

Lemma select_result versions r :
  result (scan_all versions) = Ret r → result (select versions) = Ret r.
Proof. intros H. etrans; [apply select_result_scan|exact H]. Qed.

Lemma select_cases versions :
  (∃ passed ver rest found c,
      take MAX_VERSIONS_TO_CHECK versions = passed ++ ver :: rest
      ∧ Forall unacceptable passed
      ∧ acceptable download check_api_compatibility target_version
          extension_id supported_apis ver found
      ∧ result (select versions) = Ret (Some found, c)
      ∧ checked_count c = length passed + 1
      ∧ skips c <= length passed)
  ∨ (Forall unacceptable (take MAX_VERSIONS_TO_CHECK versions)
     ∧ ∃ c, result (select versions) = Ret (None, c)
            ∧ checked_count c = min (length versions) MAX_VERSIONS_TO_CHECK
            ∧ skips c <= checked_count c)
  ∨ (∃ ver e, ver ∈ take MAX_VERSIONS_TO_CHECK versions
              ∧ ¬ contained tmp target_version extension_id ver
              ∧ result (select versions) = Raise e).
Proof.
  destruct (scan_versions_cases download tmp check_api_compatibility
              target_version extension_id supported_apis
              (take MAX_VERSIONS_TO_CHECK versions) (mkCounters 0 0 0 0))
    as [(passed & ver & rest & found & c & Htake & Hpassed & Hacc & Hres
         & Hch & Hsk)
       |[(Hall & c & Hres & Hch & Hsk)
        |(ver & e & Hin & Hesc & Hres)]].
  - left. exists passed, ver, rest, found, c.
    rewrite (select_result _ _ Hres).
    unfold skips in *.
    cbn [checked_count skipped_prerelease skipped_incompatible_engine
         skipped_incompatible_api] in *.
    split_and!; [done..|lia|lia].
  - right. left. split; [done|]. exists c. rewrite (select_result _ _ Hres).
    rewrite length_take in Hch, Hsk. unfold skips in *.
    cbn [checked_count skipped_prerelease skipped_incompatible_engine
         skipped_incompatible_api] in *.
    split_and!; [done|lia|lia].
  - right. right. exists ver, e. split_and!; [done|done|].
    etrans; [apply select_result_scan|exact Hres].
Qed.

End SelectorResults.

(** X8. The selector contains the failures of the records it checks: it
    returns whenever, for each of the first 200 records, the comparator
    returns for the engine requirement and the clean-up after a failed
    check returns; a failed download is then one more record passed over.
    When it raises, one of the first 200 records is not of that kind. *)
Theorem selector_contains_failures
    (download : string → string → outcome vsix_file) (tmp : TempFiles)
    (versions : list VersionRecord)
    (target_version extension_name extension_id : string)
    (supported_apis : gset string) :
  (Forall (contained tmp target_version extension_id)
     (take MAX_VERSIONS_TO_CHECK versions) →
   ∃ r, result (find_compatible_version_with_api_check download tmp versions
                  target_version extension_name extension_id supported_apis)
        = Ret r)
  ∧ ∀ e, result (find_compatible_version_with_api_check download tmp versions
                   target_version extension_name extension_id supported_apis)
         = Raise e →
         ∃ ver, ver ∈ take MAX_VERSIONS_TO_CHECK versions
                ∧ ¬ contained tmp target_version extension_id ver.
Proof.
  destruct (select_cases download tmp target_version extension_name
              extension_id supported_apis versions)
    as [(passed & ver & rest & found & c & _ & _ & _ & Hres & _)
       |[(_ & c & Hres & _)|(ver & e & Hin & Hesc & Hres)]].
  - split; [by eexists|]. intros e. by rewrite Hres.
  - split; [by eexists|]. intros e. by rewrite Hres.
  - split.
    + intros Hall. rewrite Forall_forall in Hall. by destruct (Hesc (Hall _ Hin)).
    + intros _ _. by exists ver.
Qed.

Lemma selector_contains_failures_witness :
  ∃ r, result (find_compatible_version_with_api_check
                 (fun _ _ => Raise OtherException)
                 (mkTempFiles (fun _ => Ret true) (fun _ => Ret tt))
                 sample_catalog sample_target "GitHub Copilot Chat"
                 "GitHub.copilot-chat" sample_supported) = Ret r.
Proof.
  apply (proj1 (selector_contains_failures (fun _ _ => Raise OtherException)
                  (mkTempFiles (fun _ => Ret true) (fun _ => Ret tt))
                  sample_catalog sample_target "GitHub Copilot Chat"
                  "GitHub.copilot-chat" sample_supported)).
  unfold sample_catalog. cbn [take MAX_VERSIONS_TO_CHECK].
  repeat constructor; try (right; by split);
    intros engine [= <-]; eexists; vm_compute; reflexivity.
Defined.

(** X9. A version the selector returns comes from the first acceptable
    record among the first 200 of the catalog: every record before it is
    unacceptable, and the counter of checked records is its position. *)
Theorem selector_returns_first_acceptable
    (download : string → string → outcome vsix_file) (tmp : TempFiles)
    (versions : list VersionRecord)
    (target_version extension_name extension_id : string)
    (supported_apis : gset string) (found : CompatibleVersion)
    (c : Counters) :
  result (find_compatible_version_with_api_check download tmp versions
            target_version extension_name extension_id supported_apis)
  = Ret (Some found, c) →
  ∃ passed ver rest,
    take MAX_VERSIONS_TO_CHECK versions = passed ++ ver :: rest
    ∧ Forall (fun v => ∀ f, ¬ acceptable download check_api_compatibility
                              target_version extension_id supported_apis v f)
        passed
    ∧ acceptable download check_api_compatibility target_version
        extension_id supported_apis ver found
    ∧ checked_count c = length passed + 1.
Proof.
  intros Hres.
  destruct (select_cases download tmp target_version extension_name
              extension_id supported_apis versions)
    as [(passed & ver & rest & found' & c' & Htake & Hpassed & Hacc & Hres'
         & Hch & _)
       |[(_ & c' & Hres' & _)|(_ & e & _ & _ & Hres')]];
    rewrite Hres in Hres'; [|discriminate Hres'..].
  injection Hres' as <- <-. by exists passed, ver, rest.
Qed.

Lemma selector_returns_first_acceptable_witness :
  ∃ passed ver rest,
    take MAX_VERSIONS_TO_CHECK sample_catalog = passed ++ ver :: rest
    ∧ Forall (fun v => ∀ f, ¬ acceptable sample_download
                              check_api_compatibility sample_target
                              "GitHub.copilot-chat" sample_supported v f)
        passed
    ∧ acceptable sample_download check_api_compatibility sample_target
        "GitHub.copilot-chat" sample_supported ver
        (mkCompatible "0.37.6" "^1.109.0-20260124" sample_url)
    ∧ checked_count (mkCounters 4 1 1 0) = length passed + 1.
Proof.
  apply (selector_returns_first_acceptable sample_download clean_tmp
           sample_catalog
           sample_target "GitHub Copilot Chat").
  vm_compute. reflexivity.
Defined.

(** X10. When the selector contains the failures of the first 200
    records, it finds nothing exactly when none of them is acceptable, and
    it has then checked all of them. Whenever it returns without a
    version, none of the first 200 records is acceptable and all of them
    have been checked. *)
Theorem selector_exhausted_iff
    (download : string → string → outcome vsix_file) (tmp : TempFiles)
    (versions : list VersionRecord)
    (target_version extension_name extension_id : string)
    (supported_apis : gset string) :
  (Forall (contained tmp target_version extension_id)
     (take MAX_VERSIONS_TO_CHECK versions) →
   Forall (fun v => ∀ f, ¬ acceptable download check_api_compatibility
                           target_version extension_id supported_apis v f)
     (take MAX_VERSIONS_TO_CHECK versions)
   → ∃ c, result (find_compatible_version_with_api_check download tmp versions
                    target_version extension_name extension_id
                    supported_apis) = Ret (None, c)
          ∧ checked_count c = min (length versions) MAX_VERSIONS_TO_CHECK)
  ∧ ∀ c, result (find_compatible_version_with_api_check download tmp versions
                   target_version extension_name extension_id supported_apis)
         = Ret (None, c)
         → Forall (fun v => ∀ f, ¬ acceptable download
                                   check_api_compatibility target_version
                                   extension_id supported_apis v f)
             (take MAX_VERSIONS_TO_CHECK versions)
           ∧ checked_count c = min (length versions) MAX_VERSIONS_TO_CHECK.
Proof.
  destruct (select_cases download tmp target_version extension_name
              extension_id supported_apis versions)
    as [(passed & ver & rest & found & c & Htake & Hpassed & Hacc & Hres & _)
       |[(Hall & c & Hres & Hch & _)|(ver & e & Hin & Hesc & Hres)]].
  - split.
    + intros _ Hnone. rewrite Htake in Hnone.
      apply Forall_app in Hnone as [_ Hnone].
      apply Forall_cons in Hnone as [Hnone _]. by destruct (Hnone found).
    + intros c'. rewrite Hres. discriminate.
  - split; [by exists c|]. intros c'. rewrite Hres. by intros [= <-].
  - split.
    + intros Hcont _. rewrite Forall_forall in Hcont.
      by destruct (Hesc (Hcont _ Hin)).
    + intros c'. rewrite Hres. discriminate.
Qed.

Lemma selector_exhausted_iff_witness :
  ∃ c, result (find_compatible_version_with_api_check sample_download clean_tmp
                 [sample_prerelease] sample_target "GitHub Copilot Chat"
                 "GitHub.copilot-chat" sample_supported) = Ret (None, c)
       ∧ checked_count c = 1.
Proof.
  apply (proj1 (selector_exhausted_iff sample_download clean_tmp
                  [sample_prerelease]
                  sample_target "GitHub Copilot Chat" "GitHub.copilot-chat"
                  sample_supported)).
  - apply Forall_cons. split; [|by apply Forall_nil].
    split; [|by left].
    intros engine [= <-]. eexists. vm_compute. reflexivity.
  - repeat constructor.
    intros f (engine & url & archive & (Hp & _) & _).
    apply Hp. vm_compute. reflexivity.
Defined.

(** X11. Whatever the selector returns, its counters are consistent: the
    records skipped as pre-release, engine mismatch and capability
    mismatch together are no more than the records checked, strictly fewer
    when a version is returned, and no more than 200 records are
    checked. *)
Theorem selector_counters_bounded
    (download : string → string → outcome vsix_file) (tmp : TempFiles)
    (versions : list VersionRecord)
    (target_version extension_name extension_id : string)
    (supported_apis : gset string) (r : option CompatibleVersion)
    (c : Counters) :
  result (find_compatible_version_with_api_check download tmp versions
            target_version extension_name extension_id supported_apis)
  = Ret (r, c) →
  skips c <= checked_count c
  ∧ checked_count c <= min (length versions) MAX_VERSIONS_TO_CHECK
  ∧ (is_Some r → skips c < checked_count c).
Proof.
  intros Hres.
  destruct (select_cases download tmp target_version extension_name
              extension_id supported_apis versions)
    as [(passed & ver & rest & found & c' & Htake & _ & _ & Hres' & Hch & Hsk)
       |[(_ & c' & Hres' & Hch & Hsk)|(_ & e & _ & _ & Hres')]];
    rewrite Hres in Hres'; [| |discriminate Hres'];
    injection Hres' as -> <-.
  - apply (f_equal length) in Htake.
    rewrite length_take, length_app in Htake. cbn [length] in Htake.
    split_and!; [lia|lia|intros _; lia].
  - split_and!; [lia|lia|by intros [? [=]]].
Qed.

Lemma selector_counters_bounded_witness :
  skips (mkCounters 4 1 1 0) < checked_count (mkCounters 4 1 1 0).
Proof.
  apply (selector_counters_bounded sample_download clean_tmp sample_catalog
           sample_target "GitHub Copilot Chat" "GitHub.copilot-chat"
           sample_supported
           (Some (mkCompatible "0.37.6" "^1.109.0-20260124" sample_url))
           (mkCounters 4 1 1 0)).
  - vm_compute. reflexivity.
  - by eexists.
Defined.

(** X12. Records after the 200th have no influence on what the selector
    returns. *)
Theorem selector_ignores_records_after_cap
    (download : string → string → outcome vsix_file) (tmp : TempFiles)
    (versions extra : list VersionRecord)
    (target_version extension_name extension_id : string)
    (supported_apis : gset string) :
  MAX_VERSIONS_TO_CHECK <= length versions →
  result (find_compatible_version_with_api_check download tmp (versions ++ extra)
            target_version extension_name extension_id supported_apis)
  = result (find_compatible_version_with_api_check download tmp versions
              target_version extension_name extension_id supported_apis).
Proof.
  intros Hlen.
  etrans; [apply select_result_scan|].
  etrans; [|symmetry; apply select_result_scan].
  by rewrite take_app_le.
Qed.

Lemma selector_ignores_records_after_cap_witness :
  result (find_compatible_version_with_api_check sample_download clean_tmp
            (replicate 200 sample_prerelease ++ [sample_compatible])
            sample_target "GitHub Copilot Chat" "GitHub.copilot-chat"
            sample_supported)
  = result (find_compatible_version_with_api_check sample_download clean_tmp
              (replicate 200 sample_prerelease)
              sample_target "GitHub Copilot Chat" "GitHub.copilot-chat"
              sample_supported).
Proof.
  apply selector_ignores_records_after_cap.
  rewrite length_replicate. unfold MAX_VERSIONS_TO_CHECK. lia.
Defined.

Lemma is_version_compatible_host_unparsed h r :
  Pep440.parse h = Raise InvalidVersion →
  result (is_version_compatible h r) = Ret false.
Proof. intros Hh. unfold is_version_compatible. by rewrite Hh. Qed.

Lemma check_version_host_unparsed target_version ver c :
  Pep440.parse target_version = Raise InvalidVersion →
  ∃ c', skipped_incompatible_api c' = skipped_incompatible_api c
        ∧ ∀ download tmp gate extension_id supported_apis,
            result (check_version download tmp gate target_version extension_id
                      supported_apis ver c) = Ret (Continue c').
Proof.
  intros Hh. destruct (decide (is_prerelease ver)) as [Hp|Hp].
  { eexists. split; [|intros; by rewrite check_version_prerelease]. done. }
  destruct (engine_of ver) as [engine|] eqn:He.
  - eexists. split; [|intros; eapply check_version_engine_mismatch; eauto].
    + done.
    + by eapply is_version_compatible_host_unparsed.
  - eexists. split; [|intros; by rewrite check_version_no_engine]. done.
Qed.

Lemma scan_versions_host_unparsed target_version versions c :
  Pep440.parse target_version = Raise InvalidVersion →
  ∃ c', skipped_incompatible_api c' = skipped_incompatible_api c
        ∧ ∀ download tmp gate extension_id supported_apis,
            result (scan_versions download tmp gate target_version extension_id
                      supported_apis versions c) = Ret (None, c').
Proof.
  intros Hh. revert c. induction versions as [|ver versions IH]; intros c.
  - by exists c.
  - destruct (check_version_host_unparsed target_version ver c Hh)
      as (c1 & Hapi1 & Hstep).
    destruct (IH c1) as (c' & Hapi & Hscan).
    exists c'. split; [congruence|]. intros.
    rewrite (scan_versions_continue _ _ _ _ _ _ _ _ _ _ (Hstep _ _ _ _ _)).
    apply Hscan.
Qed.

(** X13. When the host version is not a valid PEP 440 version, the
    selector finds nothing, whatever the catalog: no record reaches the
    probe, so the result depends neither on the fetches nor on the
    supported set, and no record is counted as a capability mismatch. *)
Theorem selector_with_unparsed_host (versions : list VersionRecord)
    (target_version : string) :
  Pep440.parse target_version = Raise InvalidVersion →
  ∃ c, skipped_incompatible_api c = 0
       ∧ ∀ download tmp extension_name extension_id supported_apis,
           result (find_compatible_version_with_api_check download tmp versions
                     target_version extension_name extension_id
                     supported_apis) = Ret (None, c).
Proof.
  intros Hh.
  destruct (scan_versions_host_unparsed target_version
              (take MAX_VERSIONS_TO_CHECK versions) (mkCounters 0 0 0 0) Hh)
    as (c & Hapi & Hscan).
  exists c. split; [done|]. intros. apply select_result. apply Hscan.
Qed.

Lemma selector_with_unparsed_host_witness :
  ∃ c, skipped_incompatible_api c = 0
       ∧ ∀ download tmp extension_name extension_id supported_apis,
           result (find_compatible_version_with_api_check download tmp
                     sample_catalog "1.109.0-insider" extension_name
                     extension_id supported_apis) = Ret (None, c).
Proof.
  apply (selector_with_unparsed_host sample_catalog "1.109.0-insider").
  vm_compute. reflexivity.
Defined.

(** X14. With a non-empty supported set, a record whose package requires
    a capability outside the set is passed over: it is counted as checked
    and as a capability mismatch, and the scan goes on with the next
    record. *)
Theorem unsupported_requirement_is_skipped
    (download : string → string → outcome vsix_file) (tmp : TempFiles)
    (target_version extension_id : string) (supported_apis : gset string)
    (ver : VersionRecord) (rest : list VersionRecord) (c : Counters)
    (engine url : string) (archive : vsix_file) (r : string) :
  supported_apis ≠ ∅ →
  reaches_probe target_version ver engine url →
  download url (temp_path extension_id ver) = Ret archive →
  r ∈ extracted archive →
  normalize_api_proposal r ∉ supported_apis →
  result (scan_versions download tmp check_api_compatibility target_version
            extension_id supported_apis (ver :: rest) c)
  = result (scan_versions download tmp check_api_compatibility target_version
              extension_id supported_apis rest (count_api (count_checked c))).
Proof.
  intros HS Hr Hd Hin Hout.
  destruct (check_version_probe download tmp check_api_compatibility
              target_version extension_id supported_apis ver c engine url Hr)
    as [out Hcv].
  assert (Hstep : result (check_version download tmp check_api_compatibility
                            target_version extension_id supported_apis ver c)
                  = Ret (Continue (count_api (count_checked c)))).
  { rewrite Hcv. simpl.
    apply (probe_rejects download tmp check_api_compatibility extension_id
             supported_apis (version_string ver) engine url (count_checked c)
             archive Hd).
    - intros Hnil. rewrite Hnil in Hin. by apply elem_of_nil in Hin.
    - rewrite check_nonempty by done. simpl. apply bool_decide_eq_false.
      intros Hnil.
      assert (Hf : r ∈ filter (fun r => normalize_api_proposal r
                                         ∉ supported_apis)
                     (extracted archive))
        by (by apply list_elem_of_filter).
      rewrite Hnil in Hf. by apply elem_of_nil in Hf. }
  by rewrite (scan_versions_continue _ _ _ _ _ _ _ _ _ _ Hstep).
Qed.

Lemma unsupported_requirement_is_skipped_witness :
  result (scan_versions sample_download clean_tmp check_api_compatibility sample_target
            "GitHub.copilot-chat" {[ "activeComment" ]}
            [sample_compatible] (mkCounters 0 0 0 0))
  = Ret (None, mkCounters 1 0 0 1).
Proof.
  assert (HS : ({[ "activeComment" ]} : gset string) ≠ ∅)
    by (apply (bool_decide_eq_false_1 (_ = ∅)); vm_compute; reflexivity).
  rewrite (unsupported_requirement_is_skipped sample_download clean_tmp
             sample_target
             "GitHub.copilot-chat" {[ "activeComment" ]} sample_compatible []
             (mkCounters 0 0 0 0) "^1.109.0-20260124" sample_url
             sample_archive "chatHooks@6" HS).
  - reflexivity.
  - split_and!; try (vm_compute; reflexivity).
    intros H. vm_compute in H. discriminate.
  - reflexivity.
  - by left.
  - apply (bool_decide_eq_false_1 (_ ∈ _)). vm_compute. reflexivity.
Defined.

Lemma foldl_insert_lookup (props : list Property) (d : gmap string string) k :
  foldl (fun d prop => <[key prop := value prop]> d) d props !! k
  = match last (filter (fun prop => key prop = k) props) with
    | Some prop => Some (value prop)
    | None => d !! k
    end.
Proof.
  revert d. induction props as [|p props IH]; intros d; simpl; [done|].
  rewrite IH, filter_cons.
  destruct (decide (key p = k)) as [<-|Hne].
  - destruct (filter _ props) as [|q l] eqn:E.
    + simpl. by rewrite lookup_insert_eq.
    + change (last (p :: q :: l)) with (last (q :: l)).
      destruct (last (q :: l)) eqn:El; [done|].
      by apply last_None in El.
  - destruct (last (filter _ props)); [done|]. by rewrite lookup_insert_ne.
Qed.

(** When a record lists a property key more than once, the last
    entry with that key is the one the selector reads; a key that is not
    listed reads as absent. *)
Lemma properties_last_entry_wins (ver : VersionRecord) (k : string) :
  properties_dict ver !! k
  = value <$> last (filter (fun prop => key prop = k) (properties ver)).
Proof.
  unfold properties_dict. rewrite foldl_insert_lookup.
  by destruct (last _).
Qed.

(** ** More on the engine version comparator *)

(** Stripping the operator prefix removes a run of the characters
    [^], [>], [=], [~] from the front and nothing else: what is left does
    not begin with one of them, and stripping it again changes nothing. *)
Lemma parse_engine_requirement_strips_prefix (engine_str : string) :
  let ops := ["^"; ">"; "="; "~"]%char in
  (∃ prefix,
      engine_str = prefix +:+ parse_engine_requirement engine_str
      ∧ Forall (fun c => c ∈ ops) (list_ascii_of_string prefix))
  ∧ (∀ c rest, parse_engine_requirement engine_str = String c rest → c ∉ ops)
  ∧ parse_engine_requirement (parse_engine_requirement engine_str)
    = parse_engine_requirement engine_str.
Proof.
  intros ops. unfold parse_engine_requirement. fold ops.
  induction engine_str as [|c s (Hpre & Hhead & Hidem)].
  - split_and!; [by exists EmptyString|done|done].
  - cbn [str_lstrip].
    destruct (existsb (Ascii.eqb c) ops) eqn:Hc.
    + split_and!; [|done|done].
      destruct Hpre as (prefix & Heq & Hall).
      exists (String c prefix). split; [by rewrite Heq at 1|].
      constructor; [|done].
      apply existsb_exists in Hc as (x & Hx & ->%Ascii.eqb_eq).
      by apply list_elem_of_In.
    + split_and!.
      * exists EmptyString. by split.
      * intros c' rest [= <- <-] Hin.
        apply list_elem_of_In in Hin.
        assert (existsb (Ascii.eqb c) ops = true); [|congruence].
        apply existsb_exists. exists c. split; [done|apply Ascii.eqb_refl].
      * cbn [str_lstrip]. by rewrite Hc.
Qed.

Section KeyOrder.

Import Pep440.

Lemma lex_compare_refl {A : Type} (cmp : A → A → comparison) (l : list A) :
  (∀ x, cmp x x = Eq) → lex_compare cmp l l = Eq.
Proof. intros H. induction l as [|x l IH]; simpl; [done|]. by rewrite H. Qed.

Lemma string_compare_refl (s : string) : String.compare s s = Eq.
Proof.
  induction s as [|c s IH]; simpl; [done|].
  unfold Ascii.compare. by rewrite N.compare_refl.
Qed.

Lemma key_compare_refl (k : CmpKey) : key_compare k k = Eq.
Proof.
  unfold key_compare.
  rewrite N.compare_refl, (lex_compare_refl N.compare) by apply N.compare_refl.
  rewrite (lex_compare_refl Z.compare) by apply Z.compare_refl.
  destruct (key_local k) as [l|]; [|done].
  apply lex_compare_refl. intros [z s]. unfold local_item_compare. simpl.
  by rewrite Z.compare_refl, string_compare_refl.
Qed.

End KeyOrder.

(** X15. A host whose version is the required version itself satisfies
    the requirement: for every requirement that parses once its prefix is
    stripped, the comparator answers true for the stripped string as the
    host version, and prints nothing. *)
Theorem required_version_satisfies_itself (engine_requirement : string)
    (v : Pep440.Version) :
  Pep440.parse (parse_engine_requirement engine_requirement) = Ret v →
  is_version_compatible (parse_engine_requirement engine_requirement)
    engine_requirement = (Ret true, []).
Proof.
  intros Hv. rewrite (is_version_compatible_parsed _ _ v v Hv Hv).
  unfold Pep440.version_ge. by rewrite key_compare_refl.
Qed.

Lemma required_version_satisfies_itself_witness :
  is_version_compatible "1.109.0-20260124" "^1.109.0-20260124"
  = (Ret true, []).
Proof.
  apply (required_version_satisfies_itself "^1.109.0-20260124"
           (Pep440.mkVersion 0 [1; 109; 0]%N None (Some 20260124%N) None None)).
  vm_compute. reflexivity.
Defined.

(** ** The proposals granted in the user-level product.json *)

Lemma add_unversioned_spec copy proposals added :
  ∃ new,
    add_unversioned copy proposals added = (proposals ++ new, added ++ new)
    ∧ NoDup new
    ∧ (∀ y, y ∈ new →
         (y ∉ proposals)
         ∧ ∃ x, x ∈ copy ∧ "@"%char ∈ list_ascii_of_string x
                ∧ y = normalize_api_proposal x)
    ∧ (∀ x, x ∈ copy → "@"%char ∈ list_ascii_of_string x →
         normalize_api_proposal x ∈ proposals ++ new).
Proof.
  revert proposals added.
  induction copy as [|x copy IH]; intros proposals added; simpl.
  - exists []. rewrite !app_nil_r. split_and!; [done|constructor| |].
    + by intros y ?%elem_of_nil.
    + by intros y ?%elem_of_nil.
  - fold (normalize_api_proposal x).
    destruct (decide ("@"%char ∈ list_ascii_of_string x)) as [Hat|Hat].
    + destruct (decide (normalize_api_proposal x ∈ proposals)) as [Hin|Hin].
      * destruct (IH proposals added) as (new & -> & Hnd & Hnew & Hall).
        exists new. split_and!; [done|done| |].
        -- intros y Hy. destruct (Hnew y Hy) as (? & z & ? & ? & ?).
           split; [done|]. exists z. split_and!; [by right|done|done].
        -- intros z [->|Hz]%elem_of_cons ?;
             [apply elem_of_app; by left|by apply Hall].
      * destruct (IH (proposals ++ [normalize_api_proposal x])
                    (added ++ [normalize_api_proposal x]))
          as (new & -> & Hnd & Hnew & Hall).
        exists (normalize_api_proposal x :: new).
        rewrite <- !app_assoc. simpl. split_and!; [done| | |].
        -- constructor; [|done]. intros Hx.
           destruct (Hnew _ Hx) as (Hn & _). apply Hn, elem_of_app.
           right. by left.
        -- intros y [->|Hy]%elem_of_cons.
           ++ split; [done|]. exists x. split_and!; [by left|done|done].
           ++ destruct (Hnew y Hy) as (Hn & z & ? & ? & ?). split.
              ** intros ?. apply Hn, elem_of_app. by left.
              ** exists z. split_and!; [by right|done|done].
        -- intros z [->|Hz]%elem_of_cons ?.
           ++ apply elem_of_app. right. by left.
           ++ specialize (Hall z Hz). rewrite <- app_assoc in Hall.
              by apply Hall.
    + destruct (IH proposals added) as (new & -> & Hnd & Hnew & Hall).
      exists new. split_and!; [done|done| |].
      * intros y Hy. destruct (Hnew y Hy) as (? & z & ? & ? & ?).
        split; [done|]. exists z. split_and!; [by right|done|done].
      * intros z [->|Hz]%elem_of_cons ?; [done|by apply Hall].
Qed.

Lemma add_critical_spec critical S proposals added :
  ∃ new,
    add_critical critical S proposals added = (proposals ++ new, added ++ new)
    ∧ NoDup new
    ∧ (∀ y, y ∈ new → (y ∉ proposals) ∧ y ∈ critical ∧ (S = ∅ ∨ y ∈ S))
    ∧ (∀ c, c ∈ critical → S = ∅ ∨ c ∈ S → c ∈ proposals ++ new).
Proof.
  revert proposals added.
  induction critical as [|c critical IH]; intros proposals added; simpl.
  - exists []. rewrite !app_nil_r. split_and!; [done|constructor| |].
    + by intros y ?%elem_of_nil.
    + by intros y ?%elem_of_nil.
  - destruct (decide ((c ∉ proposals) ∧ (S = ∅ ∨ c ∈ S))) as [[Hc HS]|Hno].
    + destruct (IH (proposals ++ [c]) (added ++ [c]))
        as (new & -> & Hnd & Hnew & Hall).
      exists (c :: new). rewrite <- !app_assoc. simpl.
      split_and!; [done| | |].
      * constructor; [|done]. intros Hx.
        destruct (Hnew _ Hx) as (Hn & _). apply Hn, elem_of_app.
        right. by left.
      * intros y [->|Hy]%elem_of_cons.
        -- split_and!; [done|by left|done].
        -- destruct (Hnew y Hy) as (Hn & ? & ?). split_and!; [|by right|done].
           intros ?. apply Hn, elem_of_app. by left.
      * intros z [->|Hz]%elem_of_cons ?.
        -- apply elem_of_app. right. by left.
        -- specialize (Hall z Hz). rewrite <- app_assoc in Hall.
           by apply Hall.
    + destruct (IH proposals added) as (new & -> & Hnd & Hnew & Hall).
      exists new. split_and!; [done|done| |].
      * intros y Hy. destruct (Hnew y Hy) as (? & ? & ?).
        split_and!; [done|by right|done].
      * intros z [->|Hz]%elem_of_cons HS; [|by apply Hall].
        apply elem_of_app. left.
        destruct (decide (c ∈ proposals)) as [|Hz]; [done|].
        destruct Hno. by split.
Qed.

Lemma normalize_is_base x :
  ("@"%char ∉ list_ascii_of_string (normalize_api_proposal x))
  ∧ normalize_api_proposal (normalize_api_proposal x)
    = normalize_api_proposal x.
Proof.
  assert (H : "@"%char ∉ list_ascii_of_string (normalize_api_proposal x)).
  { unfold normalize_api_proposal.
    destruct (str_split_head "@" x) as (field & fields & -> & Hno & _).
    done. }
  split; [done|]. by apply normalize_bare.
Qed.

Lemma no_elements_nil {A : Type} (l : list A) : (∀ x, x ∉ l) → l = [].
Proof. destruct l as [|x l]; [done|]. intros H. destruct (H x). by left. Qed.

(** A list that has the base name of each of its versioned proposals is
    left as it is by the second loop. *)
Lemma add_unversioned_fixed proposals :
  (∀ x, x ∈ proposals → "@"%char ∈ list_ascii_of_string x →
        normalize_api_proposal x ∈ proposals) →
  add_unversioned proposals proposals [] = (proposals, []).
Proof.
  intros H.
  destruct (add_unversioned_spec proposals proposals [])
    as (new & -> & _ & Hnew & _).
  rewrite (no_elements_nil new); [by rewrite app_nil_r|].
  intros y Hy. destruct (Hnew y Hy) as (Hn & x & Hx & Hat & ->).
  by apply Hn, H.
Qed.

Lemma add_critical_fixed critical S proposals :
  (∀ c, c ∈ critical → S = ∅ ∨ c ∈ S → c ∈ proposals) →
  add_critical critical S proposals [] = (proposals, []).
Proof.
  intros H.
  destruct (add_critical_spec critical S proposals [])
    as (new & -> & _ & Hnew & _).
  rewrite (no_elements_nil new); [by rewrite app_nil_r|].
  intros y Hy. destruct (Hnew y Hy) as (Hn & Hc & HS). by apply Hn, H.
Qed.

Lemma critical_proposals_bare c :
  c ∈ critical_proposals → "@"%char ∉ list_ascii_of_string c.
Proof.
  unfold critical_proposals. rewrite !elem_of_cons, elem_of_nil.
  intros [-> | [-> | [-> | [-> | [-> | [-> | []]]]]]];
    apply (bool_decide_eq_true_1 _); vm_compute; reflexivity.
Qed.

(** The shape of the list the two inner loops produce. *)
Lemma granted_shape S proposals :
  ∃ bases crit,
    granted S proposals = proposals ++ bases ++ crit
    ∧ NoDup bases ∧ NoDup crit
    ∧ (∀ y, y ∈ bases ↔
         (y ∉ proposals)
         ∧ ∃ x, x ∈ proposals ∧ "@"%char ∈ list_ascii_of_string x
                ∧ y = normalize_api_proposal x)
    ∧ (∀ y, y ∈ crit ↔
         y ∈ critical_proposals ∧ (y ∉ proposals ++ bases)
         ∧ (S = ∅ ∨ y ∈ S)).
Proof.
  unfold granted.
  destruct (add_unversioned_spec proposals proposals [])
    as (bases & -> & Hnd & Hnew & Hall). cbn [fst].
  destruct (add_critical_spec critical_proposals S (proposals ++ bases) [])
    as (crit & -> & Hnd' & Hnew' & Hall'). cbn [fst].
  exists bases, crit. rewrite <- app_assoc.
  split_and!; [done|done|done| |].
  - intros y. split; [apply Hnew|].
    intros (Hn & x & Hx & Hat & ->).
    specialize (Hall x Hx Hat). apply elem_of_app in Hall as [|]; done.
  - intros y. split.
    + intros Hy. destruct (Hnew' y Hy) as (? & ? & ?). done.
    + intros (Hc & Hn & HS). specialize (Hall' y Hc HS).
      apply elem_of_app in Hall' as [|]; done.
Qed.

(** X16. After the second loop of the product.json update, a list of
    proposals keeps its entries in their order and gains, after them and
    once each, exactly the base names of its versioned proposals that it
    did not have; the second component is the list of the names added. *)
Theorem unversioned_variants_added (proposals : list string) :
  (add_unversioned proposals proposals []).1
  = proposals ++ (add_unversioned proposals proposals []).2
  ∧ NoDup (add_unversioned proposals proposals []).2
  ∧ (∀ y, y ∈ (add_unversioned proposals proposals []).2 ↔
       (y ∉ proposals)
       ∧ ∃ x, x ∈ proposals ∧ "@"%char ∈ list_ascii_of_string x
              ∧ y = normalize_api_proposal x)
  ∧ ∀ x, x ∈ proposals →
      normalize_api_proposal x ∈ (add_unversioned proposals proposals []).1.
Proof.
  destruct (add_unversioned_spec proposals proposals [])
    as (new & -> & Hnd & Hnew & Hall). simpl.
  split_and!; [done|done| |].
  - intros y. split; [apply Hnew|].
    intros (Hn & x & Hx & Hat & ->).
    specialize (Hall x Hx Hat). apply elem_of_app in Hall as [|]; done.
  - intros x Hx.
    destruct (decide ("@"%char ∈ list_ascii_of_string x)) as [Hat|Hat].
    + by apply Hall.
    + rewrite normalize_bare by done. apply elem_of_app. by left.
Qed.

(** X17. The third loop of the product.json update grants a critical
    proposal only if the host serves it or nothing is known about the
    host: the names appended are exactly the critical proposals that the
    list lacks and that are in the supported set, or all the missing ones
    when the supported set is empty. With a non-empty supported set, a
    critical proposal outside it is in the result only if it was in the
    list before. *)
Theorem critical_proposals_only_if_served (S : gset string)
    (proposals : list string) :
  (add_critical critical_proposals S proposals []).1
  = proposals ++ (add_critical critical_proposals S proposals []).2
  ∧ NoDup (add_critical critical_proposals S proposals []).2
  ∧ (∀ y, y ∈ (add_critical critical_proposals S proposals []).2 ↔
       y ∈ critical_proposals ∧ (y ∉ proposals) ∧ (S = ∅ ∨ y ∈ S))
  ∧ ∀ y, S ≠ ∅ → y ∉ S →
      y ∈ (add_critical critical_proposals S proposals []).1 →
      y ∈ proposals.
Proof.
  destruct (add_critical_spec critical_proposals S proposals [])
    as (new & -> & Hnd & Hnew & Hall). simpl.
  split_and!; [done|done| |].
  - intros y. split.
    + intros Hy. destruct (Hnew y Hy) as (? & ? & ?). done.
    + intros (Hc & Hn & HS). specialize (Hall y Hc HS).
      apply elem_of_app in Hall as [|]; done.
  - intros y HS Hy [|Hin]%elem_of_app; [done|].
    destruct (Hnew y Hin) as (_ & _ & [|]); done.
Qed.

(** The grant is idempotent: running the two inner loops on their
    own result changes nothing, so updating product.json twice leaves the
    list of an extension as the first update made it. *)
Lemma granted_idempotent (S : gset string) (proposals : list string) :
  granted S (granted S proposals) = granted S proposals.
Proof.
  destruct (granted_shape S proposals)
    as (bases & crit & Hg & _ & _ & Hb & Hc).
  assert (Hfix : add_unversioned (granted S proposals) (granted S proposals) []
                 = (granted S proposals, [])).
  { apply add_unversioned_fixed. intros x Hx Hat. rewrite Hg in Hx |- *.
    apply elem_of_app in Hx as [Hx|Hx].
    - destruct (decide (normalize_api_proposal x ∈ proposals)) as [|Hn].
      + apply elem_of_app. by left.
      + apply elem_of_app. right. apply elem_of_app. left. apply Hb.
        split; [done|]. by exists x.
    - apply elem_of_app in Hx as [Hx|Hx].
      + apply Hb in Hx as (_ & z & _ & _ & ->).
        destruct (normalize_is_base z) as [Hno _]. done.
      + apply Hc in Hx as (Hx & _). by apply critical_proposals_bare in Hx. }
  unfold granted at 1. rewrite Hfix. cbn [fst].
  rewrite add_critical_fixed; [done|].
  intros c Hc' HS. rewrite Hg.
  destruct (decide (c ∈ proposals ++ bases)) as [Hin|Hn].
  - rewrite app_assoc. apply elem_of_app. by left.
  - rewrite app_assoc. apply elem_of_app. right. by apply Hc.
Qed.

(** X18. The configuration grants nothing the host does not serve to an
    extension that passed the gate: when the supported set is not empty
    and the gate accepts a list of requirements, the gate also accepts
    the list that the product.json update makes of it. *)
Theorem granted_passes_gate (S : gset string) (proposals : list string) :
  S ≠ ∅ →
  (check_api_compatibility proposals S).1 = true →
  (check_api_compatibility (granted S proposals) S).1 = true.
Proof.
  intros HS. rewrite !check_nonempty by done. simpl.
  rewrite !bool_decide_eq_true, !filter_nil_Forall, !Forall_forall.
  intros Hok.
  destruct (granted_shape S proposals)
    as (bases & crit & -> & _ & _ & Hb & Hc).
  intros y [Hy|[Hy|Hy]%elem_of_app]%elem_of_app.
  - by apply Hok.
  - apply Hb in Hy as (_ & z & Hz & _ & ->).
    destruct (normalize_is_base z) as (_ & ->). by apply Hok.
  - apply Hc in Hy as (Hy & _ & [|Hin]); [done|].
    rewrite normalize_bare; [done|by apply critical_proposals_bare].
Qed.

Lemma granted_passes_gate_witness :
  (check_api_compatibility
     (granted {["chatProvider"; "findFiles2"]} ["chatProvider@2"])
     {["chatProvider"; "findFiles2"]}).1 = true.
Proof.
  apply granted_passes_gate.
  - apply (bool_decide_eq_false_1 _). vm_compute. reflexivity.
  - vm_compute. reflexivity.
Defined.

(** *** The three loops on the dict *)

Lemma add_unversioned_idempotent proposals :
  add_unversioned (add_unversioned proposals proposals []).1
    (add_unversioned proposals proposals []).1 []
  = ((add_unversioned proposals proposals []).1, []).
Proof.
  apply add_unversioned_fixed.
  destruct (add_unversioned_spec proposals proposals [])
    as (new & -> & _ & Hnew & Hall). cbn [fst].
  intros x [Hx|Hx]%elem_of_app Hat; [by apply Hall|].
  destruct (Hnew x Hx) as (_ & z & _ & _ & ->).
  by destruct (normalize_is_base z).
Qed.

Lemma add_critical_idempotent critical S proposals :
  add_critical critical S (add_critical critical S proposals []).1 []
  = ((add_critical critical S proposals []).1, []).
Proof.
  apply add_critical_fixed.
  destruct (add_critical_spec critical S proposals [])
    as (new & -> & _ & _ & Hall). cbn [fst]. done.
Qed.

Lemma store_proposals_lookup extension_proposals :
  ∃ f : string → option (list string),
    (∀ enabled, ∃ enabled',
        result (store_proposals extension_proposals enabled) = Ret enabled'
        ∧ ∀ k, enabled' !! k
               = match f k with Some p => Some p | None => enabled !! k end)
    ∧ (∀ k, k ∉ (str_lower ∘ fst <$> extension_proposals) → f k = None)
    ∧ (NoDup (str_lower ∘ fst <$> extension_proposals) →
       ∀ e p, (e, p) ∈ extension_proposals →
              f (str_lower e) = match p with [] => None | _ => Some p end).
Proof.
  induction extension_proposals as [|[e p] eps (f & Hf & Hout & Hin)].
  - exists (fun _ => None). split_and!.
    + intros d. by exists d.
    + done.
    + by intros _ e p ?%elem_of_nil.
  - destruct p as [|x p].
    + exists f. split_and!.
      * intros d. simpl. apply Hf.
      * intros k Hk. apply Hout. intros ?. apply Hk. by right.
      * intros Hnd e' p' Hep. cbn [fmap list_fmap] in Hnd.
        apply NoDup_cons in Hnd as [Hne Hnd].
        apply elem_of_cons in Hep as [[= -> ->]|Hep].
        -- by apply Hout.
        -- by apply Hin.
    + exists (fun k => match f k with
                       | Some q => Some q
                       | None => if decide (k = str_lower e)
                                 then Some (x :: p) else None
                       end).
      split_and!.
      * intros d. cbn [store_proposals]. unfold print_success.
        rewrite result_print_then.
        destruct (Hf (<[str_lower e := x :: p]> d)) as (d' & -> & Hd').
        exists d'. split; [done|]. intros k. rewrite Hd'.
        destruct (f k); [done|].
        destruct (decide (k = str_lower e)) as [->|Hk].
        -- by rewrite lookup_insert_eq.
        -- by rewrite lookup_insert_ne.
      * intros k Hk. rewrite Hout.
        -- rewrite decide_False; [done|]. intros ->. apply Hk. by left.
        -- intros ?. apply Hk. by right.
      * intros Hnd e' p' Hep. cbn [fmap list_fmap] in Hnd.
        apply NoDup_cons in Hnd as [Hne Hnd].
        apply elem_of_cons in Hep as [[= -> ->]|Hep].
        -- rewrite Hout by done. by rewrite decide_True.
        -- rewrite (Hin Hnd e' p' Hep).
           destruct p' as [|y p']; [|done].
           rewrite decide_False; [done|]. intros Heq. apply Hne.
           cbn [compose fst]. rewrite <- Heq.
           apply (list_elem_of_fmap_2 (str_lower ∘ fst) _ _ Hep).
Qed.

Lemma add_unversioned_variants_lookup ext_ids enabled :
  ∃ enabled',
    result (add_unversioned_variants ext_ids enabled) = Ret enabled'
    ∧ ∀ k, enabled' !! k
           = if decide (k ∈ str_lower <$> ext_ids)
             then (fun l => (add_unversioned l l []).1) <$> enabled !! k
             else enabled !! k.
Proof.
  revert enabled. induction ext_ids as [|e ids IH]; intros d.
  - exists d. split; [done|]. intros k. rewrite decide_False; [done|].
    by intros ?%elem_of_nil.
  - cbn [add_unversioned_variants].
    destruct (add_unversioned (default [] (d !! str_lower e))
                (default [] (d !! str_lower e)) []) as [l' added] eqn:El.
    set (d1 := match d !! str_lower e with
               | Some _ => <[str_lower e := l']> d
               | None => d
               end).
    assert (Hd1 : ∀ k, d1 !! k
                  = if decide (k = str_lower e)
                    then (fun l => (add_unversioned l l []).1) <$> d !! k
                    else d !! k).
    { intros k. subst d1. destruct (decide (k = str_lower e)) as [->|Hk].
      - destruct (d !! str_lower e) as [l|] eqn:Ed; [|by rewrite Ed].
        rewrite lookup_insert_eq. simpl in El |- *. by rewrite El.
      - destruct (d !! str_lower e); [|done]. by rewrite lookup_insert_ne. }
    destruct (IH d1) as (d' & Hres & Hd').
    exists d'. split.
    { destruct added; [|unfold print_info; by rewrite result_print_then].
      unfold ret. rewrite (bind_ret_eq _ _ tt) by done. done. }
    intros k. rewrite Hd', Hd1. cbn [fmap list_fmap].
    destruct (decide (k = str_lower e)) as [->|Hk].
    + rewrite (decide_True (P := _ ∈ _ :: _)) by by left.
      destruct (decide (str_lower e ∈ str_lower <$> ids)); [|done].
      destruct (d !! str_lower e) as [l|]; [|done]. simpl.
      by rewrite add_unversioned_idempotent.
    + destruct (decide (k ∈ str_lower <$> ids)) as [Hin|Hin].
      * rewrite decide_True; [done|by right].
      * rewrite decide_False; [done|].
        by intros [?|?]%elem_of_cons.
Qed.

Lemma add_critical_proposals_lookup ext_ids S enabled :
  ∃ enabled',
    result (add_critical_proposals ext_ids S enabled) = Ret enabled'
    ∧ ∀ k, enabled' !! k
           = if decide (k ∈ str_lower <$> ext_ids)
             then (fun l => (add_critical critical_proposals S l []).1)
                    <$> enabled !! k
             else enabled !! k.
Proof.
  revert enabled. induction ext_ids as [|e ids IH]; intros d.
  - exists d. split; [done|]. intros k. rewrite decide_False; [done|].
    by intros ?%elem_of_nil.
  - cbn [add_critical_proposals].
    destruct (add_critical critical_proposals S
                (default [] (d !! str_lower e)) []) as [l' added] eqn:El.
    set (d1 := match d !! str_lower e with
               | Some _ => <[str_lower e := l']> d
               | None => d
               end).
    assert (Hd1 : ∀ k, d1 !! k
                  = if decide (k = str_lower e)
                    then (fun l => (add_critical critical_proposals S l []).1)
                           <$> d !! k
                    else d !! k).
    { intros k. subst d1. destruct (decide (k = str_lower e)) as [->|Hk].
      - destruct (d !! str_lower e) as [l|] eqn:Ed; [|by rewrite Ed].
        rewrite lookup_insert_eq.
        change (default [] (Some l)) with l in El.
        change (Some l' = Some (add_critical critical_proposals S l []).1).
        by rewrite El.
      - destruct (d !! str_lower e); [|done]. by rewrite lookup_insert_ne. }
    destruct (IH d1) as (d' & Hres & Hd').
    exists d'. split.
    { destruct added; [|unfold print_info; by rewrite result_print_then].
      unfold ret. rewrite (bind_ret_eq _ _ tt) by done. done. }
    intros k. rewrite Hd', Hd1. cbn [fmap list_fmap].
    destruct (decide (k = str_lower e)) as [->|Hk].
    + rewrite (decide_True (P := _ ∈ _ :: _)) by by left.
      destruct (decide (str_lower e ∈ str_lower <$> ids)); [|done].
      destruct (d !! str_lower e) as [l|]; [|done].
      change (Some (add_critical critical_proposals S
                      (add_critical critical_proposals S l []).1 []).1
              = Some (add_critical critical_proposals S l []).1).
      by rewrite add_critical_idempotent.
    + destruct (decide (k ∈ str_lower <$> ids)) as [Hin|Hin].
      * rewrite decide_True; [done|by right].
      * rewrite decide_False; [done|].
        by intros [?|?]%elem_of_cons.
Qed.

(** The entries of the dict after the three loops, in terms of what the
    first loop stores. *)
Lemma configure_proposals_lookup extension_proposals S :
  ∃ f : string → option (list string),
    (∀ enabled, ∃ enabled',
        result (configure_proposals extension_proposals S enabled)
        = Ret enabled'
        ∧ ∀ k, enabled' !! k
               = if decide (k ∈ (str_lower ∘ fst <$> extension_proposals))
                 then granted S
                        <$> match f k with
                            | Some p => Some p
                            | None => enabled !! k
                            end
                 else enabled !! k)
    ∧ (NoDup (str_lower ∘ fst <$> extension_proposals) →
       ∀ e p, (e, p) ∈ extension_proposals →
              f (str_lower e) = match p with [] => None | _ => Some p end).
Proof.
  destruct (store_proposals_lookup extension_proposals)
    as (f & Hf & Hout & Hin).
  exists f. split; [|done]. intros d.
  destruct (Hf d) as (d1 & H1 & Hd1).
  destruct (add_unversioned_variants_lookup (fst <$> extension_proposals) d1)
    as (d2 & H2 & Hd2).
  destruct (add_critical_proposals_lookup (fst <$> extension_proposals) S d2)
    as (d3 & H3 & Hd3).
  exists d3. split.
  { unfold configure_proposals.
    rewrite (bind_ret_eq _ _ d1) by done. unfold result at 1. cbn [fst].
    rewrite (bind_ret_eq _ _ d2) by done. done. }
  intros k. rewrite Hd3, Hd2, Hd1, <- !list_fmap_compose.
  destruct (decide (k ∈ (str_lower ∘ fst <$> extension_proposals)))
    as [Hk|Hk].
  - rewrite <- option_fmap_compose. done.
  - by rewrite Hout.
Qed.

(** X19. What the product.json update makes of the dict of granted
    proposals, when no two extensions share a lower-case id. The loops
    return; the entries of other extensions are left as they were; an
    extension with proposals gets, under its lower-case id, its proposals
    followed by the base names and the critical proposals added; an
    extension without proposals keeps the entry that the file had, with
    the same additions, and gets no entry if the file had none. *)
Theorem configure_proposals_entries
    (extension_proposals : list (string * list string))
    (S : gset string) (enabled : gmap string (list string)) :
  NoDup (str_lower ∘ fst <$> extension_proposals) →
  ∃ enabled',
    result (configure_proposals extension_proposals S enabled) = Ret enabled'
    ∧ (∀ k, k ∉ (str_lower ∘ fst <$> extension_proposals) →
            enabled' !! k = enabled !! k)
    ∧ ∀ ext_id proposals, (ext_id, proposals) ∈ extension_proposals →
        enabled' !! str_lower ext_id
        = granted S <$> match proposals with
                        | [] => enabled !! str_lower ext_id
                        | _ => Some proposals
                        end.
Proof.
  intros Hnd.
  destruct (configure_proposals_lookup extension_proposals S)
    as (f & Hf & Hin).
  destruct (Hf enabled) as (d' & Hres & Hd').
  exists d'. split_and!; [done| |].
  - intros k Hk. rewrite Hd'. by rewrite decide_False.
  - intros e p Hep. rewrite Hd', (Hin Hnd e p Hep).
    rewrite decide_True.
    + by destruct p.
    + apply (list_elem_of_fmap_2 (str_lower ∘ fst) _ _ Hep).
Qed.

Lemma configure_proposals_entries_witness :
  ∃ enabled',
    result (configure_proposals [("GitHub.copilot-chat", ["chatProvider@2"])]
              ∅ ∅) = Ret enabled'
    ∧ (∀ k, k ∉ (str_lower ∘ fst
                   <$> [("GitHub.copilot-chat", ["chatProvider@2"])]) →
            enabled' !! k = (∅ : gmap string (list string)) !! k)
    ∧ ∀ ext_id proposals,
        (ext_id, proposals) ∈ [("GitHub.copilot-chat", ["chatProvider@2"])] →
        enabled' !! str_lower ext_id
        = granted ∅ <$> match proposals with
                        | [] => (∅ : gmap string (list string))
                                  !! str_lower ext_id
                        | _ => Some proposals
                        end.
Proof.
  apply configure_proposals_entries.
  apply (bool_decide_eq_true_1 _). vm_compute. reflexivity.
Defined.

(** X20. Updating twice is updating once: the dict that the three loops
    produce is left unchanged when the loops run on it again with the same
    extensions and the same supported set. *)
Theorem configure_proposals_idempotent
    (extension_proposals : list (string * list string))
    (S : gset string) (enabled enabled' : gmap string (list string)) :
  result (configure_proposals extension_proposals S enabled) = Ret enabled' →
  result (configure_proposals extension_proposals S enabled') = Ret enabled'.
Proof.
  intros Hres.
  destruct (configure_proposals_lookup extension_proposals S)
    as (f & Hf & _).
  destruct (Hf enabled) as (d1 & Hres1 & Hd1).
  assert (d1 = enabled') as -> by congruence.
  destruct (Hf enabled') as (d2 & Hres2 & Hd2).
  rewrite Hres2. f_equal. apply map_eq. intros k.
  rewrite Hd2, Hd1.
  destruct (decide (k ∈ (str_lower ∘ fst <$> extension_proposals)));
    [|done].
  destruct (f k); [done|].
  destruct (enabled !! k); [|done]. simpl. by rewrite granted_idempotent.
Qed.

Lemma configure_proposals_idempotent_witness :
  result (configure_proposals [("GitHub.copilot-chat", ["chatProvider@2"])]
            {["findFiles2"]}
            {["github.copilot-chat" :=
                ["chatProvider@2"; "chatProvider"; "findFiles2"]]})
  = Ret {["github.copilot-chat" :=
            ["chatProvider@2"; "chatProvider"; "findFiles2"]]}.
Proof.
  apply (configure_proposals_idempotent _ _ ∅).
  vm_compute. reflexivity.
Defined.

(** ** The user-level product.json file *)

Lemma result_lift_ret {A B : Type} (o : outcome A) (f : A → M B) a :
  o = Ret a → result (bind (lift o) f) = result (f a).
Proof. intros ->. unfold lift, bind. by destruct (f a). Qed.

Lemma result_lift_raise {A B : Type} (o : outcome A) (f : A → M B) e :
  o = Raise e → result (bind (lift o) f) = Raise e.
Proof. by intros ->. Qed.

(** The search through [USER_CONFIG_DIRS] returns when every existence
    test answers; what it raises is the failure of one of the tests. *)
Lemma first_config_dir_cases fs dirs :
  (∃ found, first_config_dir fs dirs = Ret found)
  ∨ (first_config_dir fs dirs = Raise OtherException
     ∧ ∃ config_dir err, config_dir ∈ dirs
                         ∧ exists_on_disk fs config_dir = Fails err).
Proof.
  induction dirs as [|config_dir dirs IH]; [left; by eexists|].
  cbn [first_config_dir].
  destruct (exists_on_disk fs config_dir) as [[|]|err] eqn:Hex.
  - left. by eexists.
  - destruct IH as [IH|(Hr & d & err & Hin & Hd)]; [by left|].
    right. split; [done|]. exists d, err. split; [by right|done].
  - right. split; [done|]. exists config_dir, err. split; [by left|done].
Qed.

Lemma find_user_config_dir_cases fs :
  (∃ config_dir made,
      find_user_config_dir fs = Ret (config_dir, made)
      ∧ (made = [] ∨ made = [Mkdir (default_config fs)]))
  ∨ (find_user_config_dir fs = Raise OtherException
     ∧ ∃ config_dir err, config_dir ∈ USER_CONFIG_DIRS fs
                         ∧ exists_on_disk fs config_dir = Fails err).
Proof.
  unfold find_user_config_dir.
  destruct (first_config_dir_cases fs (USER_CONFIG_DIRS fs))
    as [[found ->]|[-> Hfail]]; [|by right].
  left. cbn [and_then]. destruct found as [config_dir|].
  - eexists _, _. split; [done|by left].
  - destruct (mkdir fs (default_config fs));
      eexists _, _; (split; [done|]); [by left|by right].
Qed.

Lemma result_bind_ret {A B : Type} (m : M A) (f : A → M B) a :
  result m = Ret a → result (bind m f) = result (f a).
Proof. intros H. by rewrite (bind_ret_eq _ _ a H). Qed.

Lemma product_json_failed_result path e acts :
  result (product_json_failed path e acts) = Ret (false, acts).
Proof. by destruct e. Qed.

Lemma configure_proposals_returns extension_proposals S enabled :
  ∃ enabled',
    result (configure_proposals extension_proposals S enabled) = Ret enabled'
    ∧ ∀ k, k ∉ (str_lower ∘ fst <$> extension_proposals) →
           enabled' !! k = enabled !! k.
Proof.
  destruct (configure_proposals_lookup extension_proposals S)
    as (f & Hf & _).
  destruct (Hf enabled) as (d' & Hres & Hd').
  exists d'. split; [done|]. intros k Hk. rewrite Hd'.
  by rewrite decide_False.
Qed.

(** What [write_product_json] does: the file cannot be opened and nothing
    changes; or it is opened and the writing fails, which leaves it empty;
    or the configured data is written as the last action. *)
Lemma write_product_json_cases fs path extension_proposals S existing acts :
  ∃ enabled',
    result (configure_proposals extension_proposals S
              (default ∅ (extensionEnabledApiProposals existing)))
    = Ret enabled'
    ∧ ((∃ e, dump_json fs path
               (mkProductJson (Some enabled') (other_entries existing))
             = OpenFailed e)
         ∧ result (write_product_json fs path extension_proposals S existing
                     acts) = Ret (false, acts)
       ∨ (∃ e, dump_json fs path
                 (mkProductJson (Some enabled') (other_entries existing))
               = DumpFailed e)
         ∧ result (write_product_json fs path extension_proposals S existing
                     acts) = Ret (false, acts ++ [Truncate path])
       ∨ dump_json fs path
           (mkProductJson (Some enabled') (other_entries existing)) = Written
         ∧ result (write_product_json fs path extension_proposals S existing
                     acts)
           = Ret (true,
                  acts ++ [WriteJson path
                             (mkProductJson (Some enabled')
                                (other_entries existing))])).
Proof.
  destruct (configure_proposals_returns extension_proposals S
              (default ∅ (extensionEnabledApiProposals existing)))
    as (d' & Hres & _).
  exists d'. split; [done|].
  unfold write_product_json. rewrite (result_bind_ret _ _ d') by done.
  destruct (dump_json fs path _) as [|e|e] eqn:Ed.
  - right. right. split; [done|]. unfold print_success.
    by rewrite result_print_then.
  - left. split; [by eexists|]. apply product_json_failed_result.
  - right. left. split; [by eexists|]. apply product_json_failed_result.
Qed.

Section ProductJsonReport.

Variable fs : UserFiles.

(** What the verdict [ok] says of the actions [acts]. *)
Local Abbreviation reports :=
  (fun (ok : bool) (acts : list fs_action) =>
     (ok = true ↔ ∃ path data, last acts = Some (WriteJson path data))
     ∧ (ok = false → ∀ path data, WriteJson path data ∉ acts)
     ∧ (∀ path, Truncate path ∈ acts →
                ok = false ∧ last acts = Some (Truncate path)
                ∧ ∃ data e, dump_json fs path data = DumpFailed e)).

(** Directories created and files renamed, nothing else. *)
Local Abbreviation preparing :=
  (fun acts : list fs_action =>
     ∀ a, a ∈ acts → (∃ p, a = Mkdir p) ∨ (∃ p q, a = Rename p q)).

Lemma preparing_no_write acts p d : preparing acts → WriteJson p d ∉ acts.
Proof. intros Hq Hin. by destruct (Hq _ Hin) as [[? ?]|(? & ? & ?)]. Qed.

Lemma preparing_no_truncate acts p : preparing acts → Truncate p ∉ acts.
Proof. intros Hq Hin. by destruct (Hq _ Hin) as [[? ?]|(? & ? & ?)]. Qed.

Lemma failed_reports acts : preparing acts → reports false acts.
Proof.
  intros Hq. split_and!.
  - split; [done|]. intros (p & d & Hl).
    apply last_Some_elem_of in Hl. by apply preparing_no_write in Hl.
  - intros _ p d. by apply preparing_no_write.
  - intros p Hin. by apply preparing_no_truncate in Hin.
Qed.

Lemma write_product_json_reports path extension_proposals S existing acts :
  preparing acts →
  ∃ ok acts',
    result (write_product_json fs path extension_proposals S existing acts)
    = Ret (ok, acts')
    ∧ reports ok acts'.
Proof.
  intros Hq.
  destruct (write_product_json_cases fs path extension_proposals S existing
              acts)
    as (d' & _ & [[_ ->] | [[[e He] ->] | [_ ->]]]).
  - exists false, acts. split; [done|]. by apply failed_reports.
  - eexists false, _. split; [done|]. split_and!.
    + split; [done|]. intros (p & d & Hl). by rewrite last_snoc in Hl.
    + intros _ p d [Hin|[?|?%elem_of_nil]%elem_of_cons]%elem_of_app;
        [by apply preparing_no_write in Hin|done|done].
    + intros p [Hin|[[= ->]|?%elem_of_nil]%elem_of_cons]%elem_of_app;
        [by apply preparing_no_truncate in Hin| |done].
      split_and!; [done|by rewrite last_snoc|by eexists _, _].
  - eexists true, _. split; [done|]. split_and!.
    + split; [|done]. intros _. eexists _, _. by rewrite last_snoc.
    + done.
    + intros p [Hin|[?|?%elem_of_nil]%elem_of_cons]%elem_of_app;
        [by apply preparing_no_truncate in Hin|done|done].
Qed.

End ProductJsonReport.

(** X21. The product.json update raises only what the search for the
    configuration directory raises, which is the failure of an existence
    test on one of the candidate directories. When the search returns, the
    update returns, and its verdict tells whether the document was
    written: it returns true exactly when its last action was to write
    product.json; when it returns false no document was written, and the
    file was emptied only if it could be opened for writing and the
    writing then failed, as the last action. *)
Theorem update_user_product_json_reports_write (fs : UserFiles)
    (extension_proposals : list (string * list string))
    (supported_apis : gset string) :
  (∀ e, result (update_user_product_json fs extension_proposals
                  supported_apis) = Raise e
        ↔ find_user_config_dir fs = Raise e)
  ∧ (∀ e, find_user_config_dir fs = Raise e →
          ∃ config_dir err, config_dir ∈ USER_CONFIG_DIRS fs
                            ∧ exists_on_disk fs config_dir = Fails err)
  ∧ (∀ found, find_user_config_dir fs = Ret found →
       ∃ ok acts,
         result (update_user_product_json fs extension_proposals
                   supported_apis) = Ret (ok, acts)
         ∧ (ok = true ↔ ∃ path data, last acts = Some (WriteJson path data))
         ∧ (ok = false → ∀ path data, WriteJson path data ∉ acts)
         ∧ (∀ path, Truncate path ∈ acts →
                    ok = false ∧ last acts = Some (Truncate path)
                    ∧ ∃ data e, dump_json fs path data = DumpFailed e)).
Proof.
  assert (Hret : ∀ found, find_user_config_dir fs = Ret found →
            ∃ ok acts,
              result (update_user_product_json fs extension_proposals
                        supported_apis) = Ret (ok, acts)
              ∧ (ok = true
                 ↔ ∃ path data, last acts = Some (WriteJson path data))
              ∧ (ok = false → ∀ path data, WriteJson path data ∉ acts)
              ∧ (∀ path, Truncate path ∈ acts →
                         ok = false ∧ last acts = Some (Truncate path)
                         ∧ ∃ data e, dump_json fs path data = DumpFailed e)).
  { intros found Hfound.
    destruct (find_user_config_dir_cases fs)
      as [(dir & made & Hdir & Hmade)|[Hraise _]]; [|congruence].
    assert (Hq : ∀ a, a ∈ made → (∃ p, a = Mkdir p) ∨ (∃ p q, a = Rename p q)).
    { intros a Hin. left.
      destruct Hmade as [-> | ->]; [by apply elem_of_nil in Hin|].
      apply elem_of_cons in Hin as [->|Hin%elem_of_nil]; [by eexists|done]. }
    unfold update_user_product_json, print_info. rewrite result_print_then.
    rewrite (result_lift_ret _ _ _ Hdir).
    destruct dir as [config_dir|].
    2:{ exists false, made. unfold print_error. rewrite result_print_then.
        split; [done|]. by apply failed_reports. }
    destruct (exists_on_disk fs (config_dir +:+ "/product.json"))
      as [[|]|err].
    - destruct (load_json fs (config_dir +:+ "/product.json"))
        as [existing| |e].
      + by apply write_product_json_reports.
      + unfold print_warning. rewrite result_print_then.
        destruct (rename fs _ _) as [e|].
        * rewrite product_json_failed_result. exists false, made.
          split; [done|]. by apply failed_reports.
        * apply write_product_json_reports.
          intros a [Hin|[->|?%elem_of_nil]%elem_of_cons]%elem_of_app;
            [by apply Hq|right; by eexists _, _|done].
      + rewrite product_json_failed_result. exists false, made.
        split; [done|]. by apply failed_reports.
    - by apply write_product_json_reports.
    - rewrite product_json_failed_result. exists false, made.
      split; [done|]. by apply failed_reports. }
  split_and!; [|intros e He|done].
  - intros e.
    destruct (find_user_config_dir fs) as [found|e'] eqn:Hfind.
    + destruct (Hret found eq_refl) as (ok & acts & -> & _).
      split; congruence.
    + unfold update_user_product_json, print_info.
      rewrite result_print_then, (result_lift_raise _ _ _ Hfind).
      split; congruence.
  - destruct (find_user_config_dir_cases fs)
      as [(dir & made & Hdir & _)|[_ Hfail]]; [congruence|done].
Qed.

Lemma update_user_product_json_reports_write_witness :
  ∃ ok acts,
    result (update_user_product_json
              (sample_files (Loaded sample_product_json))
              [("GitHub.copilot-chat", ["chatProvider@2"])] {["findFiles2"]})
    = Ret (ok, acts)
    ∧ (ok = true ↔ ∃ path data, last acts = Some (WriteJson path data))
    ∧ (ok = false → ∀ path data, WriteJson path data ∉ acts)
    ∧ (∀ path, Truncate path ∈ acts →
               ok = false ∧ last acts = Some (Truncate path)
               ∧ ∃ data e,
                   dump_json (sample_files (Loaded sample_product_json))
                     path data = DumpFailed e).
Proof.
  apply (proj2 (proj2 (update_user_product_json_reports_write
                         (sample_files (Loaded sample_product_json))
                         [("GitHub.copilot-chat", ["chatProvider@2"])]
                         {["findFiles2"]}))
           (Some "/home/user/.config/VSCodium", [])).
  vm_compute. reflexivity.
Defined.

(** X22. An invalid product.json is moved aside before anything is
    written. When the file exists and does not parse, the update renames
    it to product.json.backup first; if the rename fails the update
    returns false and changes nothing more, and otherwise the data it then
    writes is built from an empty document, so nothing of the invalid file
    is kept. *)
Theorem invalid_product_json_is_backed_up (fs : UserFiles)
    (extension_proposals : list (string * list string))
    (supported_apis : gset string) (config_dir : string)
    (made : list fs_action) :
  find_user_config_dir fs = Ret (Some config_dir, made) →
  exists_on_disk fs (config_dir +:+ "/product.json") = Done true →
  load_json fs (config_dir +:+ "/product.json") = InvalidJson →
  ∃ ok acts,
    result (update_user_product_json fs extension_proposals supported_apis)
    = Ret (ok, acts)
    ∧ match rename fs (config_dir +:+ "/product.json")
              (config_dir +:+ "/product.json.backup") with
      | Some _ => ok = false ∧ acts = made
      | None =>
          ∃ written,
            acts = made ++ Rename (config_dir +:+ "/product.json")
                             (config_dir +:+ "/product.json.backup")
                           :: written
            ∧ ∀ path data, WriteJson path data ∈ written →
                path = config_dir +:+ "/product.json"
                ∧ other_entries data = []
                ∧ ∃ enabled,
                    extensionEnabledApiProposals data = Some enabled
                    ∧ result (configure_proposals extension_proposals
                                supported_apis ∅) = Ret enabled
      end.
Proof.
  intros Hdir Hex Hload.
  assert (Hpath : (config_dir +:+ "/product.json") +:+ ".backup"
                  = config_dir +:+ "/product.json.backup").
  { clear. induction config_dir as [|c s IH]; [done|].
    change (String c ((s +:+ "/product.json") +:+ ".backup")
            = String c (s +:+ "/product.json.backup")).
    by rewrite IH. }
  unfold update_user_product_json, print_info. rewrite result_print_then.
  rewrite (result_lift_ret _ _ _ Hdir), Hex, Hload. unfold print_warning.
  rewrite result_print_then, Hpath.
  destruct (rename fs _ _) as [e|].
  - rewrite product_json_failed_result. by exists false, made.
  - destruct (write_product_json_cases fs (config_dir +:+ "/product.json")
                extension_proposals supported_apis (mkProductJson None [])
                (made ++ [Rename (config_dir +:+ "/product.json")
                            (config_dir +:+ "/product.json.backup")]))
      as (enabled & Hconf & [[_ ->] | [[_ ->] | [_ ->]]]).
    + eexists false, _. split; [done|]. exists [].
      split; [done|]. by intros ? ? ?%elem_of_nil.
    + eexists false, _. split; [done|]. eexists [_].
      split; [by rewrite <- app_assoc|].
      intros path data [?|?%elem_of_nil]%elem_of_cons; done.
    + eexists true, _. split; [done|]. eexists [_].
      split; [by rewrite <- app_assoc|].
      intros path data [[= -> ->]|?%elem_of_nil]%elem_of_cons; [|done].
      split_and!; [done|done|]. by exists enabled.
Qed.

Lemma invalid_product_json_is_backed_up_witness :
  ∃ ok acts,
    result (update_user_product_json (sample_files InvalidJson)
              [("GitHub.copilot-chat", ["chatProvider@2"])] ∅)
    = Ret (ok, acts)
    ∧ match rename (sample_files InvalidJson)
              ("/home/user/.config/VSCodium" +:+ "/product.json")
              ("/home/user/.config/VSCodium" +:+ "/product.json.backup") with
      | Some _ => ok = false ∧ acts = []
      | None =>
          ∃ written,
            acts = [] ++ Rename
                           ("/home/user/.config/VSCodium" +:+ "/product.json")
                           ("/home/user/.config/VSCodium"
                            +:+ "/product.json.backup")
                         :: written
            ∧ ∀ path data, WriteJson path data ∈ written →
                path = "/home/user/.config/VSCodium" +:+ "/product.json"
                ∧ other_entries data = []
                ∧ ∃ enabled,
                    extensionEnabledApiProposals data = Some enabled
                    ∧ result (configure_proposals
                                [("GitHub.copilot-chat", ["chatProvider@2"])]
                                ∅ ∅) = Ret enabled
      end.
Proof.
  apply (invalid_product_json_is_backed_up (sample_files InvalidJson)
           [("GitHub.copilot-chat", ["chatProvider@2"])] ∅
           "/home/user/.config/VSCodium" []);
    vm_compute; reflexivity.
Defined.

(** X23. Updating a product.json that parses keeps what the update is not
    about: when the update succeeds, its one write stores a document with
    the other top-level entries of the file as they were, and with the
    granted proposals of every extension whose lower-case id is not among
    the extensions being configured as they were. *)
Theorem existing_product_json_is_kept (fs : UserFiles)
    (extension_proposals : list (string * list string))
    (supported_apis : gset string) (config_dir : string)
    (made acts : list fs_action) (existing : ProductJson) :
  find_user_config_dir fs = Ret (Some config_dir, made) →
  exists_on_disk fs (config_dir +:+ "/product.json") = Done true →
  load_json fs (config_dir +:+ "/product.json") = Loaded existing →
  result (update_user_product_json fs extension_proposals supported_apis)
  = Ret (true, acts) →
  ∃ data enabled,
    acts = made ++ [WriteJson (config_dir +:+ "/product.json") data]
    ∧ other_entries data = other_entries existing
    ∧ extensionEnabledApiProposals data = Some enabled
    ∧ ∀ k, k ∉ (str_lower ∘ fst <$> extension_proposals) →
           enabled !! k
           = default ∅ (extensionEnabledApiProposals existing) !! k.
Proof.
  intros Hdir Hex Hload.
  unfold update_user_product_json, print_info. rewrite result_print_then.
  rewrite (result_lift_ret _ _ _ Hdir), Hex, Hload.
  destruct (write_product_json_cases fs (config_dir +:+ "/product.json")
              extension_proposals supported_apis existing made)
    as (enabled & Hconf & [[_ ->] | [[_ ->] | [_ ->]]]); [done|done|].
  intros [= <-]. eexists _, enabled. split_and!; [done|done|done|].
  destruct (configure_proposals_returns extension_proposals supported_apis
              (default ∅ (extensionEnabledApiProposals existing)))
    as (d' & Hres & Hd').
  assert (d' = enabled) as -> by congruence. done.
Qed.

Lemma existing_product_json_is_kept_witness :
  ∃ data enabled,
    [WriteJson "/home/user/.config/VSCodium/product.json"
       (mkProductJson
          (Some {["github.copilot-chat" :=
                    ["chatProvider@2"; "chatProvider"; "findFiles2"];
                  "other.extension" := ["findFiles2"]]})
          [("nameShort", "VSCodium")])]
    = [] ++ [WriteJson ("/home/user/.config/VSCodium" +:+ "/product.json")
               data]
    ∧ other_entries data = other_entries sample_product_json
    ∧ extensionEnabledApiProposals data = Some enabled
    ∧ ∀ k, k ∉ (str_lower ∘ fst
                  <$> [("GitHub.copilot-chat", ["chatProvider@2"])]) →
           enabled !! k
           = default ∅ (extensionEnabledApiProposals sample_product_json)
               !! k.
Proof.
  apply (existing_product_json_is_kept
           (sample_files (Loaded sample_product_json))
           [("GitHub.copilot-chat", ["chatProvider@2"])] {["findFiles2"]}
           "/home/user/.config/VSCodium" []);
    vm_compute; reflexivity.
Defined.

(** ** The settings merge *)

Section SettingsMerge.

Context {V : Type} (py_eq : V → V → bool).

Lemma filter_ext_elem_of {A : Type} (f g : A → bool) (l : list A) :
  (∀ x, x ∈ l → f x = g x) →
  filter (fun x => f x = true) l = filter (fun x => g x = true) l.
Proof.
  induction l as [|x l IH]; intros H; [done|].
  rewrite !filter_cons, (H x) by by left.
  rewrite IH; [done|]. intros y Hy. apply H. by right.
Qed.

Lemma merge_settings_spec (settings : list (string * V)) :
  NoDup settings.*1 →
  ∀ existing count,
    (∀ k, k ∉ settings.*1 →
          (merge_settings V py_eq settings existing count).1 !! k
          = existing !! k)
    ∧ (∀ k v, (k, v) ∈ settings →
          (merge_settings V py_eq settings existing count).1 !! k
          = if needs_update V py_eq existing (k, v) then Some v
            else existing !! k)
    ∧ (merge_settings V py_eq settings existing count).2
      = (count
         + length (filter (fun kv => needs_update V py_eq existing kv = true)
                     settings))%nat.
Proof.
  induction settings as [|[key value] rest IH]; intros Hnd existing count.
  - split_and!; [done|by intros ? ? ?%elem_of_nil|simpl; lia].
  - cbn [fmap list_fmap fst] in Hnd. apply NoDup_cons in Hnd as [Hkey Hnd].
    cbn [merge_settings]. rewrite filter_cons.
    assert (Hother : ∀ k v, (k, v) ∈ rest → k ≠ key).
    { intros k v Hin ->. apply Hkey.
      apply (list_elem_of_fmap_2 fst _ _ Hin). }
    change (match existing !! key with
            | Some old => negb (py_eq old value)
            | None => true
            end) with (needs_update V py_eq existing (key, value)).
    destruct (needs_update V py_eq existing (key, value)) eqn:Eup.
    + rewrite decide_True by done.
      destruct (IH Hnd (<[key := value]> existing) (S count))
        as (H1 & H2 & H3).
      split_and!.
      * intros k Hk. rewrite H1.
        -- rewrite lookup_insert_ne; [done|]. intros ->. apply Hk. by left.
        -- intros ?. apply Hk. by right.
      * intros k v [[= -> ->]|Hin]%elem_of_cons.
        -- rewrite H1 by done. by rewrite lookup_insert_eq, Eup.
        -- rewrite (H2 k v Hin). unfold needs_update. cbn [fst snd].
           rewrite lookup_insert_ne; [done|].
           intros ->. by apply (Hother _ _ Hin).
      * rewrite H3. cbn [length].
        rewrite (filter_ext_elem_of
                   (needs_update V py_eq (<[key:=value]> existing))
                   (needs_update V py_eq existing)); [lia|].
        intros [k v] Hin. unfold needs_update. cbn [fst snd].
        rewrite lookup_insert_ne; [done|].
        intros ->. by apply (Hother _ _ Hin).
    + rewrite decide_False by done.
      destruct (IH Hnd existing count) as (H1 & H2 & H3).
      split_and!; [| |done].
      * intros k Hk. apply H1. intros ?. apply Hk. by right.
      * intros k v [[= -> ->]|Hin]%elem_of_cons.
        -- rewrite H1 by done. by rewrite Eup.
        -- by apply H2.
Qed.

(** X24. The settings merge, for settings with distinct keys: a key that
    is not one of the Copilot settings keeps its value; a Copilot setting
    that is missing, or whose value differs, gets the required value, and
    one whose value compares equal keeps the value it had; the count is
    the number of settings that were set, at most the number of Copilot
    settings. *)
Theorem merge_settings_result (settings : list (string * V))
    (existing_settings : gmap string V) :
  NoDup settings.*1 →
  (∀ k, k ∉ settings.*1 →
        (merge_settings V py_eq settings existing_settings 0).1 !! k
        = existing_settings !! k)
  ∧ (∀ k v, (k, v) ∈ settings →
        (merge_settings V py_eq settings existing_settings 0).1 !! k
        = match existing_settings !! k with
          | Some old => if py_eq old v then Some old else Some v
          | None => Some v
          end)
  ∧ (merge_settings V py_eq settings existing_settings 0).2
    = length (filter (fun kv =>
                        needs_update V py_eq existing_settings kv = true)
                settings)
  ∧ ((merge_settings V py_eq settings existing_settings 0).2
     ≤ length settings)%nat.
Proof.
  intros Hnd.
  destruct (merge_settings_spec settings Hnd existing_settings 0)
    as (H1 & H2 & H3).
  split_and!; [done| |done|].
  - intros k v Hin. rewrite (H2 k v Hin). unfold needs_update.
    cbn [fst snd]. destruct (existing_settings !! k) as [old|]; [|done].
    by destruct (py_eq old v).
  - rewrite H3. simpl. apply length_filter.
Qed.

(** X25. Merging twice changes nothing the second time: when every
    required value compares equal to itself, running the merge on its own
    result returns that result with a count of zero. *)
Theorem merge_settings_idempotent (settings : list (string * V))
    (existing_settings : gmap string V) :
  NoDup settings.*1 →
  (∀ k v, (k, v) ∈ settings → py_eq v v = true) →
  merge_settings V py_eq settings
    (merge_settings V py_eq settings existing_settings 0).1 0
  = ((merge_settings V py_eq settings existing_settings 0).1, 0%nat).
Proof.
  intros Hnd Hrefl.
  destruct (merge_settings_spec settings Hnd existing_settings 0)
    as (H1 & H2 & _).
  set (merged := (merge_settings V py_eq settings existing_settings 0).1)
    in *.
  assert (Hno : ∀ kv, kv ∈ settings →
                      needs_update V py_eq merged kv = false).
  { intros [k v] Hin. unfold needs_update. cbn [fst snd].
    rewrite (H2 k v Hin). unfold needs_update. cbn [fst snd].
    destruct (existing_settings !! k) as [old|] eqn:Eold.
    - destruct (py_eq old v) eqn:Eeq; cbn [negb].
      + by rewrite Eeq.
      + by rewrite (Hrefl k v Hin).
    - by rewrite (Hrefl k v Hin). }
  clearbody merged. clear H1 H2.
  assert (Hgen : ∀ count,
            merge_settings V py_eq settings merged count = (merged, count));
    [|apply Hgen].
  clear Hnd Hrefl. induction settings as [|[key value] rest IH];
    intros count; [done|].
  cbn [merge_settings].
  change (match merged !! key with
          | Some old => negb (py_eq old value)
          | None => true
          end) with (needs_update V py_eq merged (key, value)).
  rewrite Hno by by left. apply IH. intros kv Hin. apply Hno. by right.
Qed.

End SettingsMerge.

Lemma merge_settings_result_witness :
  let settings := [("github.copilot.chat.modelPicker.enabled", true)] in
  let existing_settings : gmap string bool := {["editor.minimap" := false]} in
  (∀ k, k ∉ settings.*1 →
        (merge_settings bool Bool.eqb settings existing_settings 0).1 !! k
        = existing_settings !! k)
  ∧ (∀ k v, (k, v) ∈ settings →
        (merge_settings bool Bool.eqb settings existing_settings 0).1 !! k
        = match existing_settings !! k with
          | Some old => if Bool.eqb old v then Some old else Some v
          | None => Some v
          end)
  ∧ (merge_settings bool Bool.eqb settings existing_settings 0).2
    = length (filter (fun kv =>
                        needs_update bool Bool.eqb existing_settings kv = true)
                settings)
  ∧ ((merge_settings bool Bool.eqb settings existing_settings 0).2
     ≤ length settings)%nat.
Proof.
  apply (merge_settings_result Bool.eqb
           [("github.copilot.chat.modelPicker.enabled", true)]
           {["editor.minimap" := false]}).
  apply (bool_decide_eq_true_1 _). vm_compute. reflexivity.
Defined.

Lemma merge_settings_idempotent_witness :
  merge_settings bool Bool.eqb
    [("github.copilot.chat.modelPicker.enabled", true)]
    (merge_settings bool Bool.eqb
       [("github.copilot.chat.modelPicker.enabled", true)]
       {["editor.minimap" := false]} 0).1 0
  = ((merge_settings bool Bool.eqb
        [("github.copilot.chat.modelPicker.enabled", true)]
        {["editor.minimap" := false]} 0).1, 0%nat).
Proof.
  apply (merge_settings_idempotent Bool.eqb
           [("github.copilot.chat.modelPicker.enabled", true)]
           {["editor.minimap" := false]}).
  - apply (bool_decide_eq_true_1 _). vm_compute. reflexivity.
  - intros k v _. by destruct v.
Defined.

(** ** The [codium] command line *)

Lemma prefix_spec (a s : string) :
  String.prefix a s = true ↔ ∃ post, s = a +:+ post.
Proof.
  revert s. induction a as [|c a IH]; intros s.
  - destruct s; (split; [intros _; by eexists|done]).
  - destruct s as [|d s]; cbn [String.prefix].
    + split; [done|]. by intros (post & ?).
    + destruct (ascii_dec c d) as [->|Hcd].
      * rewrite IH. split.
        -- intros (post & ->). by exists post.
        -- intros (post & [= ->]). by exists post.
      * split; [done|]. intros (post & [= ? ?]). done.
Qed.

Lemma str_contains_spec (needle s : string) :
  str_contains needle s = true ↔ ∃ pre post, s = pre +:+ needle +:+ post.
Proof.
  induction s as [|c s IH].
  - cbn [str_contains]. rewrite orb_false_r, prefix_spec. split.
    + intros (post & ->). by exists EmptyString, post.
    + intros ([|? ?] & post & H); [by exists post|done].
  - cbn [str_contains]. rewrite orb_true_iff, prefix_spec, IH. split.
    + intros [(post & ->)|(pre & post & ->)].
      * by exists EmptyString, post.
      * by exists (String c pre), post.
    + intros ([|d pre] & post & H).
      * left. by exists post.
      * right. injection H as -> ->. by exists pre, post.
Qed.

Lemma append_assoc_string (a b c : string) :
  (a +:+ b) +:+ c = a +:+ (b +:+ c).
Proof.
  induction a as [|x a IH]; [done|].
  change (String x ((a +:+ b) +:+ c) = String x (a +:+ (b +:+ c))).
  by rewrite IH.
Qed.

Lemma str_contains_trans (a b s : string) :
  str_contains a b = true → str_contains b s = true →
  str_contains a s = true.
Proof.
  rewrite !str_contains_spec.
  intros (p1 & q1 & ->) (p2 & q2 & ->).
  exists (p2 +:+ p1), (q1 +:+ q2).
  by rewrite !append_assoc_string.
Qed.

Lemma copilot_chat_is_copilot ext :
  str_contains "github.copilot-chat" ext = true →
  str_contains "copilot" ext = true.
Proof. apply str_contains_trans. vm_compute. reflexivity. Qed.

(** X26. An extension that [is_extension_installed] finds is one that
    [validate_installation] finds: whenever the first returns true for the
    output of the listing command, the second returns true for it as
    well. The first asks for a line that is the id itself, the second for
    a line that contains it. *)
Theorem installed_implies_validated (list_extensions : run_result)
    (extension_name : string) :
  result (is_extension_installed list_extensions extension_name) = Ret true →
  result (validate_installation list_extensions) = Ret true.
Proof.
  unfold validate_installation, print_info. rewrite result_print_then.
  destruct list_extensions as [stdout| |stderr message|e]; try done.
  cbn [is_extension_installed result ret fst].
  intros [= Hin%bool_decide_eq_true].
  apply list_elem_of_fmap in Hin as (ext & Hext & Hin).
  destruct (filter _ (listed_extensions stdout)) as [|first rest] eqn:Ef.
  - assert (Hf : ext ∈ filter
                   (fun ext => str_contains "github.copilot-chat"
                                 (str_lower ext) = true)
                   (listed_extensions stdout)).
    { apply list_elem_of_filter. split; [|done]. by rewrite <- Hext. }
    rewrite Ef in Hf. by apply elem_of_nil in Hf.
  - unfold print_success, print_info. by rewrite !result_print_then.
Qed.

Lemma installed_implies_validated_witness :
  result (validate_installation
            (Completed "GitHub.copilot-chat
ms-python.python
")) = Ret true.
Proof.
  apply (installed_implies_validated _ "GitHub Copilot Chat").
  vm_compute. reflexivity.
Defined.

Lemma uninstall_all_spec uninstall exts :
  ∀ ran0 ran,
    result (uninstall_all uninstall exts ran0) = Ret ran →
    ∃ ran', ran = ran0 ++ ran'
      ∧ ran' `prefix_of` exts
      ∧ (ran' = exts ∨ ∃ ext, last ran' = Some ext
                              ∧ ∀ stdout, uninstall ext ≠ Completed stdout)
      ∧ ∀ i ext, ran' !! i = Some ext → (S i < length ran')%nat →
                 ∃ stdout, uninstall ext = Completed stdout.
Proof.
  induction exts as [|ext exts IH]; intros ran0 ran.
  - cbn [uninstall_all]. unfold print_success. rewrite result_print_then.
    intros [= <-]. exists []. rewrite app_nil_r.
    split_and!; [done|done|by left|]. intros i e Hi. by destruct i.
  - cbn [uninstall_all]. unfold print_info. rewrite result_print_then.
    assert (Hstop : (∀ stdout, uninstall ext ≠ Completed stdout) →
              ran0 ++ [ext] = ran →
              ∃ ran', ran = ran0 ++ ran' ∧ ran' `prefix_of` ext :: exts
                ∧ (ran' = ext :: exts
                   ∨ ∃ ext0, last ran' = Some ext0
                             ∧ ∀ stdout, uninstall ext0 ≠ Completed stdout)
                ∧ ∀ i e, ran' !! i = Some e → (S i < length ran')%nat →
                         ∃ stdout, uninstall e = Completed stdout).
    { intros Hno <-. exists [ext]. split_and!; [done| | |].
      - by exists exts.
      - right. by exists ext.
      - intros i e _ Hi. simpl in Hi. lia. }
    destruct (uninstall ext) as [stdout| |stderr message|e] eqn:Eu.
    + intros Hres. destruct (IH _ _ Hres) as (ran' & -> & Hpre & Hlast & Hok).
      exists (ext :: ran'). rewrite <- app_assoc.
      split_and!; [done| | |].
      * by apply prefix_cons.
      * destruct Hlast as [->|(e & Hl & Hno)]; [by left|].
        right. exists e. split; [|done].
        destruct ran'; [done|]. done.
      * intros [|i] e Hi Hlen.
        -- injection Hi as <-. by exists stdout.
        -- simpl in Hi, Hlen. apply (Hok i e Hi). lia.
    + unfold print_warning. rewrite result_print_then.
      intros [= H]. by apply Hstop.
    + unfold print_warning, print_info. rewrite !result_print_then.
      intros [= H]. by apply Hstop.
    + done.
Qed.

(** X27. The cleanup uninstalls Copilot extensions only, in the order of
    the listing, and gives up at the first uninstall that fails. The
    extensions whose uninstall command was run are a prefix of the listed
    extensions that have copilot in their lower-case name; every command
    but the last one completed; and the prefix is the whole list unless
    the last command did not complete, in which case the extensions after
    it are left installed. *)
Theorem cleanup_stops_at_first_failure (stdout : string)
    (uninstall : string → run_result) (ran : list string) :
  result (cleanup_existing_extensions (Completed stdout) uninstall)
  = Ret ran →
  ran `prefix_of` copilot_exts stdout
  ∧ (∀ ext, ext ∈ ran →
       ext ∈ listed_extensions stdout
       ∧ str_contains "copilot" (str_lower ext) = true)
  ∧ (ran = copilot_exts stdout
     ∨ ∃ ext, last ran = Some ext
              ∧ ∀ out, uninstall ext ≠ Completed out)
  ∧ ∀ i ext, ran !! i = Some ext → (S i < length ran)%nat →
             ∃ out, uninstall ext = Completed out.
Proof.
  unfold cleanup_existing_extensions, print_info.
  rewrite result_print_then. fold (copilot_exts stdout).
  assert (Hmem : ∀ ran, ran `prefix_of` copilot_exts stdout →
            ∀ ext, ext ∈ ran →
              ext ∈ listed_extensions stdout
              ∧ str_contains "copilot" (str_lower ext) = true).
  { intros l [k Hk] ext Hin.
    assert (Hc : ext ∈ copilot_exts stdout).
    { rewrite Hk. apply elem_of_app. by left. }
    apply list_elem_of_filter in Hc as [? ?]. done. }
  destruct (copilot_exts stdout) as [|ext exts] eqn:Ec.
  - unfold print_success. rewrite result_print_then. intros [= <-].
    split_and!; [done|by intros ? ?%elem_of_nil|by left|].
    intros i e Hi. by destruct i.
  - unfold print_warning. rewrite result_print_then. intros Hres.
    destruct (uninstall_all_spec _ _ _ _ Hres)
      as (ran' & -> & Hpre & Hlast & Hok).
    cbn [app]. split_and!; [done|by apply Hmem|done|done].
Qed.

Lemma cleanup_stops_at_first_failure_witness :
  ["GitHub.copilot"; "GitHub.copilot-chat"]
    `prefix_of` copilot_exts "GitHub.copilot
ms-python.python
GitHub.copilot-chat"
  ∧ (∀ ext, ext ∈ ["GitHub.copilot"; "GitHub.copilot-chat"] →
       ext ∈ listed_extensions "GitHub.copilot
ms-python.python
GitHub.copilot-chat"
       ∧ str_contains "copilot" (str_lower ext) = true)
  ∧ (["GitHub.copilot"; "GitHub.copilot-chat"]
     = copilot_exts "GitHub.copilot
ms-python.python
GitHub.copilot-chat"
     ∨ ∃ ext, last ["GitHub.copilot"; "GitHub.copilot-chat"] = Some ext
              ∧ ∀ out, (fun _ => Completed EmptyString) ext ≠ Completed out)
  ∧ ∀ i ext, ["GitHub.copilot"; "GitHub.copilot-chat"] !! i = Some ext →
             (S i < length ["GitHub.copilot"; "GitHub.copilot-chat"])%nat →
             ∃ out, (fun _ : string => Completed EmptyString) ext
                    = Completed out.
Proof.
  apply (cleanup_stops_at_first_failure _ (fun _ => Completed EmptyString)).
  vm_compute. reflexivity.
Defined.

(** What validation accepts, cleanup removes: when the listing
    command shows an extension that [validate_installation] counts as
    Copilot Chat and every uninstall command completes, the cleanup run on
    the same listing uninstalls every extension that validation would
    count, so that a second validation of what is left could not be
    satisfied by them. *)
Lemma validated_extensions_are_cleaned (stdout : string)
    (uninstall : string → run_result) :
  (∀ ext, ∃ out, uninstall ext = Completed out) →
  ∃ ran,
    result (cleanup_existing_extensions (Completed stdout) uninstall)
    = Ret ran
    ∧ ran = copilot_exts stdout
    ∧ (∀ ext, ext ∈ listed_extensions stdout →
         str_contains "github.copilot-chat" (str_lower ext) = true →
         ext ∈ ran)
    ∧ (result (validate_installation (Completed stdout)) = Ret true →
       ran ≠ []).
Proof.
  intros Hun.
  assert (Hall : ∀ exts ran0, result (uninstall_all uninstall exts ran0)
                              = Ret (ran0 ++ exts)).
  { induction exts as [|ext exts IH]; intros ran0.
    - cbn [uninstall_all]. unfold print_success.
      by rewrite result_print_then, app_nil_r.
    - cbn [uninstall_all]. unfold print_info. rewrite result_print_then.
      destruct (Hun ext) as (out & ->). rewrite IH.
      by rewrite <- app_assoc. }
  assert (Hchat : ∀ ext, ext ∈ listed_extensions stdout →
            str_contains "github.copilot-chat" (str_lower ext) = true →
            ext ∈ copilot_exts stdout).
  { intros ext Hin Hc. apply list_elem_of_filter. split; [|done].
    by apply copilot_chat_is_copilot. }
  exists (copilot_exts stdout). split_and!; [|done|done|].
  - unfold cleanup_existing_extensions, print_info.
    rewrite result_print_then. fold (copilot_exts stdout).
    destruct (copilot_exts stdout) as [|ext exts].
    + unfold print_success. by rewrite result_print_then.
    + unfold print_warning. rewrite result_print_then. apply Hall.
  - unfold validate_installation, print_info. rewrite result_print_then.
    destruct (filter _ (listed_extensions stdout)) as [|first rest] eqn:Ef.
    + unfold print_error. by rewrite result_print_then.
    + intros _ Hnil.
      assert (Hf : first ∈ filter
                     (fun ext => str_contains "github.copilot-chat"
                                   (str_lower ext) = true)
                     (listed_extensions stdout)).
      { rewrite Ef. by left. }
      apply list_elem_of_filter in Hf as [Hc Hin].
      specialize (Hchat first Hin Hc). rewrite Hnil in Hchat.
      by apply elem_of_nil in Hchat.
Qed.

Lemma validated_extensions_are_cleaned_witness :
  ∃ ran,
    result (cleanup_existing_extensions (Completed "GitHub.copilot-chat")
              (fun _ => Completed EmptyString)) = Ret ran
    ∧ ran = copilot_exts "GitHub.copilot-chat"
    ∧ (∀ ext, ext ∈ listed_extensions "GitHub.copilot-chat" →
         str_contains "github.copilot-chat" (str_lower ext) = true →
         ext ∈ ran)
    ∧ (result (validate_installation (Completed "GitHub.copilot-chat"))
       = Ret true → ran ≠ []).
Proof.
  apply (validated_extensions_are_cleaned "GitHub.copilot-chat"
           (fun _ => Completed EmptyString)).
  intros ext. by exists EmptyString.
Defined.

Lemma is_extension_installed_cases (r : run_result) name :
  match r with
  | RunFailed e => result (is_extension_installed r name) = Raise e
  | Completed stdout =>
      result (is_extension_installed r name)
      = Ret (bool_decide ("github.copilot-chat"
                          ∈ str_lower <$> listed_extensions stdout))
  | _ => result (is_extension_installed r name) = Ret false
  end.
Proof. by destruct r. Qed.

Lemma result_after_print {A : Type} (m : M unit) (k : M A) :
  (∃ out, m = (Ret tt, out)) → result (m;; k) = result k.
Proof. intros (out & ->). unfold bind. by destruct k. Qed.

(** One attempt: it succeeds and the loop ends, it fails and the loop
    goes on, or one of its commands cannot be run. *)
Lemma install_attempts_step install list_extensions name remaining
    attempt ran :
  (attempt_succeeds install list_extensions attempt = true
   ∧ result (install_attempts install list_extensions name (S remaining)
               attempt ran) = Ret (true, S ran))
  ∨ (attempt_succeeds install list_extensions attempt = false
     ∧ result (install_attempts install list_extensions name (S remaining)
                 attempt ran)
       = result (install_attempts install list_extensions name remaining
                   (S attempt) (S ran)))
  ∨ (∃ e, (install attempt = RunFailed e
           ∨ list_extensions attempt = RunFailed e)
          ∧ result (install_attempts install list_extensions name
                      (S remaining) attempt ran) = Raise e).
Proof.
  cbn [install_attempts]. unfold attempt_succeeds.
  destruct (install attempt) as [stdout| |stderr message|e] eqn:Ei.
  - left. split; [done|]. unfold print_success.
    by rewrite result_print_then.
  - right. left. split; [done|]. apply result_after_print.
    destruct (decide _); by eexists.
  - set (error_msg := match stderr with
                      | EmptyString => message
                      | String _ _ => str_strip stderr
                      end).
    assert (Hretry :
      result
        ((if decide (attempt < INSTALL_RETRY_COUNT)%nat
          then print_warning
                 [Str "Installation failed (attempt ";
                  Num (N.of_nat attempt); Str "/";
                  Num (N.of_nat INSTALL_RETRY_COUNT);
                  Str "), retrying..."]
          else print_error [Str "Installation failed: "; Str error_msg]);;
         install_attempts install list_extensions name remaining
           (S attempt) (S ran))
      = result (install_attempts install list_extensions name remaining
                  (S attempt) (S ran))).
    { apply result_after_print. destruct (decide _); by eexists. }
    destruct (str_contains "ScanningExtension" error_msg) eqn:Esc;
      cbn [andb]; [|right; left; by split].
    assert (Hscan : ∀ k : M (bool * nat),
              result (print_warning
                        [Str "Scanning error occurred, verifying installation..."];;
                      k) = result k).
    { intros k. unfold print_warning. apply result_print_then. }
    rewrite !Hscan.
    pose proof (is_extension_installed_cases (list_extensions attempt) name)
      as Hl.
    destruct (list_extensions attempt) as [out| |se msg|e] eqn:El.
    + rewrite (result_bind_ret _ _ _ Hl).
      destruct (bool_decide _) eqn:Eb.
      * left. split; [done|]. unfold print_success.
        by rewrite result_print_then.
      * right. left. by split.
    + rewrite (result_bind_ret _ _ _ Hl). right. left. by split.
    + rewrite (result_bind_ret _ _ _ Hl). right. left. by split.
    + right. right. exists e. split; [by right|].
      by rewrite (bind_raise_eq _ _ e Hl).
  - right. right. exists e. split; [by left|done].
Qed.

Lemma install_attempts_spec install list_extensions name remaining :
  ∀ attempt ran,
    match result (install_attempts install list_extensions name remaining
                    attempt ran) with
    | Ret (ok, n) =>
        ∃ k, n = (ran + k)%nat ∧ (k ≤ remaining)%nat
          ∧ (∀ j, (S j < k)%nat →
                  attempt_succeeds install list_extensions (attempt + j)
                  = false)
          ∧ (ok = true →
             ∃ k', k = S k'
                   ∧ attempt_succeeds install list_extensions (attempt + k')
                     = true)
          ∧ (ok = false →
             k = remaining
             ∧ ∀ j, (j < k)%nat →
                    attempt_succeeds install list_extensions (attempt + j)
                    = false)
    | Raise e =>
        ∃ j, (j < remaining)%nat
             ∧ (install (attempt + j)%nat = RunFailed e
                ∨ list_extensions (attempt + j)%nat = RunFailed e)
    end.
Proof.
  induction remaining as [|remaining IH]; intros attempt ran.
  - cbn [install_attempts result ret fst]. exists 0%nat.
    split_and!; [lia|lia|intros; lia|done|].
    intros _. split; [done|]. intros; lia.
  - destruct (install_attempts_step install list_extensions name remaining
                attempt ran) as [[Hs ->] | [[Hf ->] | (e & Hor & ->)]].
    + exists 1%nat. split_and!; [lia|lia|intros; lia| |done].
      intros _. exists 0%nat. by rewrite Nat.add_0_r.
    + specialize (IH (S attempt) (S ran)).
      destruct (result (install_attempts install list_extensions name
                          remaining (S attempt) (S ran))) as [[ok n]|e].
      * destruct IH as (k & -> & Hk & Hbefore & Hok & Hno).
        exists (S k). split_and!; [lia|lia| | |].
        -- intros [|j] Hj; [by rewrite Nat.add_0_r|].
           replace (attempt + S j)%nat with (S attempt + j)%nat by lia.
           apply Hbefore. lia.
        -- intros Ht. destruct (Hok Ht) as (k' & -> & Hs). exists (S k').
           split; [done|].
           by replace (attempt + S k')%nat with (S attempt + k')%nat by lia.
        -- intros Hfalse. destruct (Hno Hfalse) as (-> & Hall).
           split; [done|]. intros [|j] Hj; [by rewrite Nat.add_0_r|].
           replace (attempt + S j)%nat with (S attempt + j)%nat by lia.
           apply Hall. lia.
      * destruct IH as (j & Hj & Hor). exists (S j). split; [lia|].
        by replace (attempt + S j)%nat with (S attempt + j)%nat by lia.
    + exists 0%nat. split; [lia|]. by rewrite Nat.add_0_r.
Qed.

(** X28. The installer tries at most [INSTALL_RETRY_COUNT] times and
    stops at the first attempt that succeeds. When it returns, the number
    of install commands it ran is between 1 and 2; no attempt before the
    last one succeeded; it returns true exactly when the last attempt
    succeeded, and false only after both attempts failed. It raises only
    when one of the commands of an attempt could not be run at all. *)
Theorem install_extension_stops_at_first_success
    (install list_extensions : nat → run_result)
    (vsix_path extension_name : string) :
  match result (install_extension install list_extensions vsix_path
                  extension_name) with
  | Ret (ok, n) =>
      (1 ≤ n ≤ INSTALL_RETRY_COUNT)%nat
      ∧ (∀ i, (1 ≤ i < n)%nat →
              attempt_succeeds install list_extensions i = false)
      ∧ ok = attempt_succeeds install list_extensions n
      ∧ (ok = false → n = INSTALL_RETRY_COUNT)
  | Raise e =>
      ∃ i, (1 ≤ i ≤ INSTALL_RETRY_COUNT)%nat
           ∧ (install i = RunFailed e ∨ list_extensions i = RunFailed e)
  end.
Proof.
  unfold install_extension, print_info. rewrite result_print_then.
  pose proof (install_attempts_spec install list_extensions extension_name
                INSTALL_RETRY_COUNT 1 0) as H.
  destruct (result (install_attempts install list_extensions extension_name
                      INSTALL_RETRY_COUNT 1 0)) as [[ok n]|e].
  - destruct H as (k & -> & Hk & Hbefore & Hok & Hno). cbn [Nat.add].
    destruct ok.
    + destruct (Hok eq_refl) as (k' & -> & Hs).
      split; [lia|]. split; [|split; [symmetry; exact Hs|done]].
      intros i Hi. replace i with (1 + (i - 1))%nat by lia.
      apply Hbefore. lia.
    + destruct (Hno eq_refl) as (-> & Hall).
      split; [unfold INSTALL_RETRY_COUNT; lia|]. split; [|split; [|done]].
      * intros i Hi. replace i with (1 + (i - 1))%nat by lia.
        apply Hall. lia.
      * symmetry. apply (Hall 1%nat). unfold INSTALL_RETRY_COUNT. lia.
  - destruct H as (j & Hj & Hor). exists (1 + j)%nat. split; [lia|done].
Qed.

(** ** The comparison of versions is a total order *)

Section Orders.

Import Pep440.

Lemma pair_compare_lawful {A B : Type} (cmp1 : A → A → comparison)
    (cmp2 : B → B → comparison) :
  LawfulCompare cmp1 → LawfulCompare cmp2 →
  LawfulCompare (pair_compare cmp1 cmp2).
Proof.
  intros [E1 R1 S1 T1] [E2 R2 S2 T2]. split; unfold pair_compare.
  - intros [a b] [a' b']. cbn [fst snd].
    destruct (cmp1 a a') eqn:H1; [|done|done].
    intros H2. by rewrite (E1 _ _ H1), (E2 _ _ H2).
  - intros [a b]. cbn [fst snd]. by rewrite R1.
  - intros [a b] [a' b']. cbn [fst snd]. rewrite (S1 a a').
    destruct (cmp1 a a'); cbn [CompOpp]; [apply S2|done|done].
  - intros [a b] [a' b'] [a'' b'']. cbn [fst snd].
    destruct (cmp1 a a') eqn:H1; [|intros _|done].
    + apply E1 in H1 as ->.
      destruct (cmp1 a' a'') eqn:H2; [apply T2|done|done].
    + destruct (cmp1 a' a'') eqn:H2; [|intros _|done].
      * apply E1 in H2 as <-. by rewrite H1.
      * by rewrite (T1 _ _ _ H1 H2).
Qed.

Lemma lex_compare_lawful {A : Type} (cmp : A → A → comparison) :
  LawfulCompare cmp → LawfulCompare (lex_compare cmp).
Proof.
  intros [E R S T]. split.
  - intros a. induction a as [|x a IH]; intros [|y b]; cbn [lex_compare];
      [done|done|done|].
    destruct (cmp x y) eqn:H1; [|done|done].
    intros H2. by rewrite (E _ _ H1), (IH _ H2).
  - intros a. induction a as [|x a IH]; cbn [lex_compare]; [done|].
    by rewrite R.
  - intros a. induction a as [|x a IH]; intros [|y b]; cbn [lex_compare];
      [done|done|done|].
    rewrite (S x y). destruct (cmp x y); cbn [CompOpp]; [apply IH|done|done].
  - intros a. induction a as [|x a IH]; intros [|y b] [|z c];
      cbn [lex_compare]; try done.
    destruct (cmp x y) eqn:H1; [|intros _|done].
    + apply E in H1 as ->.
      destruct (cmp y z) eqn:H2; [apply IH|done|done].
    + destruct (cmp y z) eqn:H2; [|intros _|done].
      * apply E in H2 as <-. by rewrite H1.
      * by rewrite (T _ _ _ H1 H2).
Qed.

Lemma none_first_lawful {A : Type} (cmp : A → A → comparison) :
  LawfulCompare cmp → LawfulCompare (none_first cmp).
Proof.
  intros [E R S T]. split.
  - intros [x|] [y|]; cbn [none_first]; [|done|done|done].
    intros H. by rewrite (E _ _ H).
  - intros [x|]; cbn [none_first]; [apply R|done].
  - intros [x|] [y|]; cbn [none_first CompOpp]; [apply S|done|done|done].
  - intros [x|] [y|] [z|]; cbn [none_first]; try done. apply T.
Qed.

Lemma N_compare_lawful : LawfulCompare N.compare.
Proof.
  split.
  - apply N.compare_eq.
  - apply N.compare_refl.
  - intros x y. apply N.compare_antisym.
  - intros x y z. rewrite !N.compare_lt_iff. apply N.lt_trans.
Qed.

Lemma Z_compare_lawful : LawfulCompare Z.compare.
Proof.
  split.
  - apply Z.compare_eq.
  - apply Z.compare_refl.
  - intros x y. apply Z.compare_antisym.
  - intros x y z. rewrite !Z.compare_lt_iff. apply Z.lt_trans.
Qed.

Lemma ascii_compare_lawful : LawfulCompare Ascii.compare.
Proof.
  destruct N_compare_lawful as [E R S T]. unfold Ascii.compare. split.
  - intros x y H%E.
    by rewrite <- (ascii_N_embedding x), <- (ascii_N_embedding y), H.
  - intros x. apply R.
  - intros x y. apply S.
  - intros x y z. apply T.
Qed.

Lemma string_compare_lawful : LawfulCompare String.compare.
Proof.
  destruct ascii_compare_lawful as [E R S T]. split.
  - intros a. induction a as [|x a IH]; intros [|y b];
      cbn [String.compare]; [done|done|done|].
    destruct (Ascii.compare x y) eqn:H1; [|done|done].
    intros H2. by rewrite (E _ _ H1), (IH _ H2).
  - apply string_compare_refl.
  - intros a. induction a as [|x a IH]; intros [|y b];
      cbn [String.compare]; [done|done|done|].
    rewrite (S x y).
    destruct (Ascii.compare x y); cbn [CompOpp]; [apply IH|done|done].
  - intros a. induction a as [|x a IH]; intros [|y b] [|z c];
      cbn [String.compare]; try done.
    destruct (Ascii.compare x y) eqn:H1; [|intros _|done].
    + apply E in H1 as ->.
      destruct (Ascii.compare y z) eqn:H2; [apply IH|done|done].
    + destruct (Ascii.compare y z) eqn:H2; [|intros _|done].
      * apply E in H2 as <-. by rewrite H1.
      * by rewrite (T _ _ _ H1 H2).
Qed.

(** The comparison of keys is the comparison of their items as nested
    pairs. *)
Lemma key_compare_items (a b : CmpKey) :
  key_compare a b
  = pair_compare N.compare
      (pair_compare (lex_compare N.compare)
         (pair_compare (lex_compare Z.compare)
            (none_first
               (lex_compare (pair_compare Z.compare String.compare)))))
      (key_items a) (key_items b).
Proof.
  unfold key_compare, key_items, pair_compare. cbn [fst snd].
  destruct (N.compare _ _); [|done|done].
  destruct (lex_compare N.compare _ _); [|done|done].
  destruct (lex_compare Z.compare _ _); [|done|done].
  by destruct (key_local a), (key_local b).
Qed.

Lemma key_items_lawful :
  LawfulCompare
    (pair_compare N.compare
       (pair_compare (lex_compare N.compare)
          (pair_compare (lex_compare Z.compare)
             (none_first
                (lex_compare (pair_compare Z.compare String.compare)))))).
Proof.
  repeat first
    [ apply pair_compare_lawful | apply lex_compare_lawful
    | apply none_first_lawful | apply N_compare_lawful
    | apply Z_compare_lawful | apply string_compare_lawful ].
Qed.

Lemma version_ge_trans (a b c : Version) :
  version_ge a b = true → version_ge b c = true → version_ge a c = true.
Proof.
  unfold version_ge. rewrite !key_compare_items.
  destruct key_items_lawful as [E R S T].
  set (cmp := pair_compare _ _) in *.
  generalize (key_items (cmpkey a)) (key_items (cmpkey b))
    (key_items (cmpkey c)).
  intros x y z Hxy Hyz.
  destruct (cmp x z) eqn:Hxz; [done| |done].
  destruct (cmp y z) eqn:H2; [| done |].
  - apply E in H2 as ->. by rewrite Hxz in Hxy.
  - assert (Hzy : cmp z y = Lt) by (by rewrite (S y z), H2).
    by rewrite (T _ _ _ Hxz Hzy) in Hxy.
Qed.

End Orders.

(** X29. A newer host keeps every compatibility an older host has: when
    the comparator accepts a requirement for a host version, it accepts
    the same requirement for every host version that parses and is not
    older than that one in the order of versions. *)
Theorem newer_host_stays_compatible (vscode_version newer_version
    engine_requirement : string) (host newer : Pep440.Version) :
  Pep440.parse vscode_version = Ret host →
  Pep440.parse newer_version = Ret newer →
  Pep440.version_ge newer host = true →
  result (is_version_compatible vscode_version engine_requirement)
  = Ret true →
  is_version_compatible newer_version engine_requirement = (Ret true, []).
Proof.
  intros Hh Hn Hge.
  destruct (Pep440.parse (parse_engine_requirement engine_requirement))
    as [required|e] eqn:Hr.
  - rewrite (is_version_compatible_parsed _ _ _ _ Hh Hr),
      (is_version_compatible_parsed _ _ _ _ Hn Hr).
    cbn [result fst]. intros [= Hok]. f_equal. f_equal.
    by apply (version_ge_trans _ host).
  - unfold is_version_compatible. rewrite Hh, Hr.
    by destruct (parse_raises _ _ Hr) as [-> | ->].
Qed.

Lemma newer_host_stays_compatible_witness :
  is_version_compatible "1.110.1" "^1.104.0" = (Ret true, []).
Proof.
  apply (newer_host_stays_compatible "1.109.0" "1.110.1" "^1.104.0"
           (Pep440.mkVersion 0 [1; 109; 0]%N None None None None)
           (Pep440.mkVersion 0 [1; 110; 1]%N None None None None));
    vm_compute; reflexivity.
Defined.

(** ** The lines of the extension listing *)

Lemma skip_spaces_cons c l :
  skip_spaces (c :: l) = if is_space c then skip_spaces l else c :: l.
Proof.
  unfold skip_spaces. cbn [span]. destruct (is_space c); [|done].
  by destruct (span is_space l).
Qed.

Lemma skip_spaces_suffix l :
  (∃ run, l = run ++ skip_spaces l)
  ∧ (skip_spaces l = []
     ∨ ∃ c r, skip_spaces l = c :: r ∧ is_space c = false).
Proof.
  induction l as [|c l [(run & IH) Hhead]].
  - split; [by exists []|by left].
  - rewrite skip_spaces_cons. destruct (is_space c) eqn:Hc.
    + split; [|done]. exists (c :: run). cbn [app]. by rewrite <- IH.
    + split; [by exists []|]. right. by exists c, l.
Qed.

Lemma skip_spaces_id l :
  (l = [] ∨ ∃ c r, l = c :: r ∧ is_space c = false) → skip_spaces l = l.
Proof.
  intros [->|(c & r & -> & Hc)]; [done|].
  by rewrite skip_spaces_cons, Hc.
Qed.

Lemma skip_spaces_idempotent l : skip_spaces (skip_spaces l) = skip_spaces l.
Proof. apply skip_spaces_id, skip_spaces_suffix. Qed.

(** The characters of [s.strip()]: a part of [s] that neither starts nor
    ends with white space, and that stripping leaves as it is. *)
Lemma strip_chars l :
  let stripped := rev (skip_spaces (rev (skip_spaces l))) in
  (∀ c, c ∈ stripped → c ∈ l)
  ∧ skip_spaces stripped = stripped
  ∧ skip_spaces (rev stripped) = rev stripped.
Proof.
  intros stripped.
  destruct (skip_spaces_suffix l) as [(run & Hl) Hhead].
  destruct (skip_spaces_suffix (rev (skip_spaces l))) as [(run' & Hr) Hlast].
  assert (Hpre : skip_spaces l = stripped ++ rev run').
  { subst stripped. rewrite <- rev_app_distr, <- Hr. by rewrite rev_involutive. }
  split_and!.
  - intros c Hc. rewrite Hl. apply elem_of_app. right. rewrite Hpre.
    apply elem_of_app. by left.
  - apply skip_spaces_id. destruct stripped as [|c r] eqn:Es; [by left|].
    right. exists c, r. split; [done|].
    destruct Hhead as [Hnil|(c' & r' & Hc' & Hsp)].
    + by rewrite Hnil in Hpre.
    + rewrite Hc' in Hpre. by injection Hpre as -> _.
  - subst stripped. rewrite rev_involutive. apply skip_spaces_idempotent.
Qed.

Lemma str_strip_idempotent s : str_strip (str_strip s) = str_strip s.
Proof.
  unfold str_strip. rewrite list_ascii_of_string_of_list_ascii.
  destruct (strip_chars (list_ascii_of_string s)) as (_ & H1 & H2).
  cbv zeta in H1, H2. by rewrite H1, H2, rev_involutive.
Qed.

Lemma str_strip_chars s c :
  c ∈ list_ascii_of_string (str_strip s) → c ∈ list_ascii_of_string s.
Proof.
  unfold str_strip. rewrite list_ascii_of_string_of_list_ascii.
  by apply (strip_chars (list_ascii_of_string s)).
Qed.

Lemma str_split_fields sep s field :
  field ∈ str_split sep s → sep ∉ list_ascii_of_string field.
Proof.
  revert field. induction s as [|c s IH]; intros field; cbn [str_split].
  - intros ->%list_elem_of_singleton. by intros ?%elem_of_nil.
  - destruct (Ascii.eqb_spec c sep) as [->|Hc].
    + intros [->|Hin]%elem_of_cons; [by intros ?%elem_of_nil|by apply IH].
    + destruct (str_split sep s) as [|f fs] eqn:Es.
      * intros ->%list_elem_of_singleton. cbn [list_ascii_of_string].
        intros [?|?%elem_of_nil]%elem_of_cons; done.
      * intros [->|Hin]%elem_of_cons.
        -- cbn [list_ascii_of_string]. intros [?|Hf]%elem_of_cons; [done|].
           revert Hf. apply IH. by left.
        -- apply IH. by right.
Qed.

(** X30. The extension ids read from the output of the listing command
    are clean: each is a non-empty string without a line break that
    neither starts nor ends with white space (stripping it again changes
    nothing), and each is the stripped form of a line of the output. *)
Theorem listed_extensions_are_trimmed_lines (stdout ext : string) :
  ext ∈ listed_extensions stdout →
  ext ≠ EmptyString
  ∧ str_strip ext = ext
  ∧ ("010"%char ∉ list_ascii_of_string ext)
  ∧ ∃ line, line ∈ str_split "010" (str_strip stdout)
            ∧ ext = str_strip line.
Proof.
  unfold listed_extensions.
  intros (line & -> & [Hne Hin]%list_elem_of_filter)%list_elem_of_fmap.
  split_and!; [done|apply str_strip_idempotent| |by exists line].
  intros Hc%str_strip_chars. by apply (str_split_fields _ _ _ Hin).
Qed.

Lemma listed_extensions_are_trimmed_lines_witness :
  "GitHub.copilot-chat" ≠ EmptyString
  ∧ str_strip "GitHub.copilot-chat" = "GitHub.copilot-chat"
  ∧ ("010"%char ∉ list_ascii_of_string "GitHub.copilot-chat")
  ∧ ∃ line, line ∈ str_split "010" (str_strip "
  GitHub.copilot-chat  

ms-python.python
")
            ∧ "GitHub.copilot-chat" = str_strip line.
Proof.
  apply (listed_extensions_are_trimmed_lines "
  GitHub.copilot-chat  

ms-python.python
").
  apply (bool_decide_eq_true_1 _). vm_compute. reflexivity.
Defined.
